(** * The Neon native shim (crates/neon-runtime/src/neon.cc) over a model of its host

    The shim is a thin layer of [extern "C"] functions over the host's
    embedding interface (v8.h and nan.h).  Every function of the shim that
    the properties below talk about is transcribed statement by statement;
    the host primitives they call are modelled after the inline definitions
    of v8.h (Local, PersistentBase, HandleScope, EscapableHandleScope) and
    the documented behaviour of the out-of-line ones. *)

From Stdlib Require Import ZArith Lia.
From Stdlib Require Strings.Byte.
From stdpp Require Import gmap list strings.

#[local] Set Warnings "-clear-no-such-hyp".

(** ** Host values and handles *)

(** A host value is known by its identity (the tagged word behind every
    handle); the collector may move the object but keeps the identity. *)
Abbreviation addr := positive (only parsing).

(** Two roots of the host heap. *)
Definition undefined_value : addr := 1%positive.
Definition empty_string : addr := 2%positive.

(** [v8::Local<T>]: [val_] is null (the empty handle) or points to a slot of
    the handle stack. *)
Definition Local := option nat.

(** [v8::MaybeLocal<T>] has the same representation; [ToLocal] tells them
    apart. *)
Definition MaybeLocal := option nat.

(** [callback_t]: a static entry point and its closure, the two fields the
    shim reads. *)
Record callback_t := mk_callback_t {
  static_callback : positive;
  dynamic_callback : positive
}.

(** A [v8::FunctionCallback] stored in a template: the shim's own dispatcher
    or an entry point handed in by native code. *)
Inductive FunctionCallback :=
| ConstructBaseCallback
| StaticCallback (fn : positive).

Inductive HObject :=
| HUndefined
| HString (utf8 : list Byte.byte)
| HExternal (value : positive)
| HError (message : addr)
| HArray (elements : list addr)
| HPlainObject (properties : list (addr * addr))
| HProxy (own_keys : list addr + addr)
| HFunctionTemplate (callback : FunctionCallback) (data : addr)
    (class_name : option addr) (prototype_template instance_template : option addr)
| HObjectTemplate (properties : list (addr * addr)) (internal_field_count : nat).

(** The data of one open handle scope: where the handle stack stood when it
    was opened and, for an escapable scope, its escape slot. *)
Record ScopeData := mk_ScopeData {
  prev_next : nat;
  escape_slot : option nat
}.

(** Modelled from the spec: [neon::BaseClassMetadata], declared in
    neon_class_metadata.h which is not among the sources.  The metadata of a
    class holds its name, its allocate, construct, call and drop functions
    and its constructor template.  The fields come in the order in which
    [Neon_Class_CreateBase] passes them to the constructor; each callback
    comes with its closure (its kernel); the constructor template is kept in
    a persistent inside the object, known by its address; the name is a
    slice. *)
Record BaseClassMetadata := mk_BaseClassMetadata {
  construct_callback_ : positive;
  construct_kernel_ : positive;
  call_callback_ : positive;
  call_kernel_ : positive;
  allocate_callback_ : positive;
  allocate_kernel_ : positive;
  drop_instance_ : positive;
  template_ : positive;
  name_ : list Byte.byte * Z
}.

(** The state of the host and of the native memory the shim touches.
    - [handles]: the handle stack; a slot holds the_hole ([None]) or refers
      to a value;
    - [scopes]: the open handle scopes, outermost first; a scope object is
      known by its position;
    - [globals]: the global handle nodes behind non-empty persistents, each
      holding the same kind of word as a slot;
    - [persistents]: the [val_] field of every [v8::Persistent] living in
      native memory, null or a global node; an address that is not in the
      map holds no persistent (none was constructed there, or the one that
      was has been destroyed);
    - [metadata]: the class metadata objects living in native memory;
    - [pending_exception]: the exception scheduled on the host thread;
    - [kMaxLength]: [String::kMaxLength] of the host build, the longest
      string the host makes. *)
Record State := mk_State {
  heap : gmap positive HObject;
  handles : list (option positive);
  scopes : list ScopeData;
  globals : gmap positive (option positive);
  persistents : gmap positive (option positive);
  metadata : gmap positive BaseClassMetadata;
  pending_exception : option positive;
  kMaxLength : Z
}.

Definition set_heap (f : gmap positive HObject → gmap positive HObject) (st : State) : State :=
  mk_State (f (heap st)) (handles st) (scopes st) (globals st) (persistents st)
           (metadata st) (pending_exception st) (kMaxLength st).
Definition set_handles (f : list (option positive) → list (option positive)) (st : State) : State :=
  mk_State (heap st) (f (handles st)) (scopes st) (globals st) (persistents st)
           (metadata st) (pending_exception st) (kMaxLength st).
Definition set_scopes (f : list ScopeData → list ScopeData) (st : State) : State :=
  mk_State (heap st) (handles st) (f (scopes st)) (globals st) (persistents st)
           (metadata st) (pending_exception st) (kMaxLength st).
Definition set_globals
    (f : gmap positive (option positive) → gmap positive (option positive)) (st : State) : State :=
  mk_State (heap st) (handles st) (scopes st) (f (globals st)) (persistents st)
           (metadata st) (pending_exception st) (kMaxLength st).
Definition set_persistents
    (f : gmap positive (option positive) → gmap positive (option positive)) (st : State) : State :=
  mk_State (heap st) (handles st) (scopes st) (globals st) (f (persistents st))
           (metadata st) (pending_exception st) (kMaxLength st).
Definition set_metadata
    (f : gmap positive BaseClassMetadata → gmap positive BaseClassMetadata) (st : State) : State :=
  mk_State (heap st) (handles st) (scopes st) (globals st) (persistents st)
           (f (metadata st)) (pending_exception st) (kMaxLength st).
Definition set_pending (e : option positive) (st : State) : State :=
  mk_State (heap st) (handles st) (scopes st) (globals st) (persistents st)
           (metadata st) e (kMaxLength st).

(** A fresh isolate with one plain scope open, as on entry of any host
    callback. *)
Definition initial_state : State :=
  mk_State (<[empty_string := HString []]> (<[undefined_value := HUndefined]> ∅))
           [] [mk_ScopeData 0 None] ∅ ∅ ∅ None (2 ^ 28 - 16).

(** ** Computations over the state

    [None] is a fatal outcome: the host's [ApiCheck] aborts the process, or
    the shim reads memory it was not given or uses an object whose lifetime
    has ended, which is undefined. *)
Definition M (A : Type) : Type := State → option (A * State).

Definition ret {A} (a : A) : M A := λ st, Some (a, st).
Definition bind {A B} (m : M A) (k : A → M B) : M B :=
  λ st, match m st with
        | Some (a, st') => k a st'
        | None => None
        end.
Definition fatal {A} : M A := λ _, None.
Definition get_state : M State := λ st, Some (st, st).
Definition modify (f : State → State) : M unit := λ st, Some (tt, f st).
Definition lift_option {A} (o : option A) : M A :=
  λ st, match o with Some a => Some (a, st) | None => None end.

Notation "x <~ m ;; k" := (bind m (λ x, k))
  (at level 100, m at next level, right associativity).
Notation "m ;;; k" := (bind m (λ _, k))
  (at level 100, right associativity).

(** ** Host primitives: handles *)

(** [*val_] of a non-empty local: the content of its slot.  Reading a slot
    above the top of the handle stack is reading released memory. *)
Definition read_slot (i : nat) : M (option positive) :=
  st <~ get_state ;; lift_option (handles st !! i).

(** The value a handle refers to, if any: the handle is non-empty, its slot
    is live and holds a value. *)
Definition referent (st : State) (h : Local) : option positive :=
  match h with
  | Some i => match handles st !! i with
              | Some (Some a) => Some a
              | _ => None
              end
  | None => None
  end.

(** [HandleScope::CreateHandle]: the next slot of the handle stack; fatal
    ("Cannot create a handle without a HandleScope") when no scope is open. *)
Definition CreateHandle (v : option positive) : M nat :=
  st <~ get_state ;;
  match scopes st with
  | [] => fatal
  | _ => modify (set_handles (λ hs, hs ++ [v])) ;;; ret (length (handles st))
  end.

(** A local handle to a value. *)
Definition NewLocal (a : positive) : M Local :=
  i <~ CreateHandle (Some a) ;; ret (Some i).

(** [v8::HandleScope::HandleScope(isolate)]; returns the scope object. *)
Definition HandleScope_open : M nat :=
  st <~ get_state ;;
  modify (set_scopes (λ ss, ss ++ [mk_ScopeData (length (handles st)) None])) ;;;
  ret (length (scopes st)).

(** [v8::EscapableHandleScope::EscapableHandleScope(isolate)]: the escape
    slot is created in the enclosing scope and holds the_hole, then the scope
    is opened. *)
Definition EscapableHandleScope_open : M nat :=
  e <~ CreateHandle None ;;
  st <~ get_state ;;
  modify (set_scopes (λ ss, ss ++ [mk_ScopeData (length (handles st)) (Some e)])) ;;;
  ret (length (scopes st)).

(** The destructor of either scope: the handle stack returns to where it
    stood.  Scopes close innermost first; closing another one is outside the
    host's contract. *)
Definition HandleScope_close (sc : nat) : M unit :=
  st <~ get_state ;;
  if bool_decide (S sc = length (scopes st)) then
    match scopes st !! sc with
    | Some d =>
        modify (set_handles (take (prev_next d))) ;;;
        modify (set_scopes (take sc))
    | None => fatal
    end
  else fatal.

(** [v8::EscapableHandleScope::Escape]: fatal ("Escape value set twice")
    unless the escape slot still holds the_hole; an empty handle escapes as
    the empty handle and leaves undefined in the slot. *)
Definition EscapableHandleScope_Escape (sc : nat) (value : Local) : M Local :=
  st <~ get_state ;;
  match scopes st !! sc with
  | Some (mk_ScopeData _ (Some e)) =>
      cur <~ read_slot e ;;
      match cur with
      | Some _ => fatal
      | None =>
          match value with
          | None =>
              modify (set_handles (<[e := Some undefined_value]>)) ;;; ret None
          | Some i =>
              v <~ read_slot i ;;
              modify (set_handles (<[e := v]>)) ;;; ret (Some e)
          end
      end
  | _ => fatal
  end.

(** [Local::operator==]: two empty handles are equal, an empty and a
    non-empty one are not, two non-empty ones are compared by the words in
    their slots. *)
Definition Local_eq (v1 v2 : Local) : M bool :=
  match v1, v2 with
  | None, None => ret true
  | None, Some _ => ret false
  | Some _, None => ret false
  | Some a, Some b =>
      x <~ read_slot a ;; y <~ read_slot b ;; ret (bool_decide (x = y))
  end.

(** ** Host primitives: persistents *)

(** [V8::GlobalizeReference]: a new global node holding the word. *)
Definition GlobalizeReference (a : option positive) : M positive :=
  st <~ get_state ;;
  let g := fresh (dom (globals st)) in
  modify (set_globals (<[g := a]>)) ;;; ret g.

(** [V8::DisposeGlobal]: releases the node; releasing a node that is not
    live is a double free. *)
Definition DisposeGlobal (g : positive) : M unit :=
  st <~ get_state ;;
  match globals st !! g with
  | Some _ => modify (set_globals (delete g))
  | None => fatal
  end.

(** The [val_] field of the persistent at [p]. *)
Definition persistent_val (p : positive) : M (option positive) :=
  st <~ get_state ;; lift_option (persistents st !! p).

Definition set_persistent_val (p : positive) (v : option positive) : M unit :=
  modify (set_persistents (<[p := v]>)).

(** [PersistentBase::Reset()]. *)
Definition Persistent_Reset (p : positive) : M unit :=
  v <~ persistent_val p ;;
  match v with
  | None => ret tt
  | Some g => DisposeGlobal g ;;; set_persistent_val p None
  end.

(** [PersistentBase::Reset(isolate, other)]. *)
Definition Persistent_Reset_to (p : positive) (other : Local) : M unit :=
  Persistent_Reset p ;;;
  match other with
  | None => ret tt
  | Some i =>
      v <~ read_slot i ;;
      g <~ GlobalizeReference v ;;
      set_persistent_val p (Some g)
  end.

(** [Nan::New(persistent)], that is [Local<T>::New(isolate, persistent)]. *)
Definition Nan_New_persistent (p : positive) : M Local :=
  v <~ persistent_val p ;;
  match v with
  | None => ret None
  | Some g =>
      st <~ get_state ;;
      v <~ lift_option (globals st !! g) ;;
      i <~ CreateHandle v ;;
      ret (Some i)
  end.

(** ** The shim: scopes and persistents *)

(** Each function takes the arguments of its source but the isolate, which
    is the state, and hands back what the source writes through its [out]
    pointer. *)

(** neon.cc, lines 375-377: [*out = scope->Escape(value)]. *)
Definition Neon_Scope_Escape (scope : nat) (value : Local) : M Local :=
  EscapableHandleScope_Escape scope value.

(** neon.cc, lines 389-404: the scope is constructed in place and destructed
    in place; the model names the scope object it makes. *)
Definition Neon_Scope_Enter : M nat := HandleScope_open.
Definition Neon_Scope_Exit (scope : nat) : M unit := HandleScope_close scope.
Definition Neon_Scope_Enter_Escapable : M nat := EscapableHandleScope_open.
Definition Neon_Scope_Exit_Escapable (scope : nat) : M unit := HandleScope_close scope.

(** neon.cc, lines 760-762: [return v1 == v2]. *)
Definition Neon_Mem_SameHandle (v1 v2 : Local) : M bool := Local_eq v1 v2.

(** neon.cc, lines 764-766: an empty persistent constructed in place. *)
Definition Neon_Mem_NewPersistent (out : positive) : M unit :=
  set_persistent_val out None.

(** The destructor of [v8::Persistent], called explicitly: it releases
    nothing of its own (the traits of a plain persistent have
    [kResetInDestructor = false]) and ends the lifetime of the object, so
    that no persistent lives at [p] afterwards. *)
Definition Persistent_destroy (p : positive) : M unit :=
  modify (set_persistents (delete p)).

(** neon.cc, lines 768-772: [p->Reset()], then
    [p->Persistent::~Persistent()]. *)
Definition Neon_Mem_DropPersistent (p : positive) : M unit :=
  Persistent_Reset p ;;; Persistent_destroy p.

(** neon.cc, lines 774-776: [Nan::New] of the persistent, written to
    [out]. *)
Definition Neon_Mem_ReadPersistent (p : positive) : M Local :=
  Nan_New_persistent p.

(** neon.cc, lines 778-781: [p->Reset(isolate, h)]. *)
Definition Neon_Mem_ResetPersistent (p : positive) (h : Local) : M unit :=
  Persistent_Reset_to p h.

(** ** The shim: objects *)

(** A new object of the host heap. *)
Definition heap_alloc (o : HObject) : M positive :=
  st <~ get_state ;;
  let a := fresh (dom (heap st)) in
  modify (set_heap (<[a := o]>)) ;;; ret a.

(** neon.cc, lines 67-69: [*out = Nan::New<v8::Object>()]. *)
Definition Neon_Object_New : M Local :=
  a <~ heap_alloc (HPlainObject []) ;; NewLocal a.

(** ** Host primitives: strings, errors, templates

    A host call that makes a value is charged the one handle it returns.
    How many scratch handles the host leaves besides it in the current scope
    is its own business and changes from one version to another: they are
    not modelled, and the properties of the shim proved below do not depend
    on their number. *)

(** The referent of a handle the host is asked to work on; the host does not
    survive an empty handle or a released slot here. *)
Definition deref (h : Local) : M positive :=
  st <~ get_state ;; lift_option (referent st h).

(** The scope of a [Nan::HandleScope scope;] declared in a function body:
    opened there, closed on every way out. *)
Definition with_HandleScope {A} (body : M A) : M A :=
  scope <~ HandleScope_open ;;
  r <~ body ;;
  HandleScope_close scope ;;;
  ret r.

(** [strlen]: the number of bytes before the first NUL; none when the bytes
    at hand hold no NUL. *)
Fixpoint strlen (data : list Byte.byte) : option nat :=
  match data with
  | [] => None
  | Byte.x00 :: _ => Some 0
  | _ :: rest => S <$> strlen rest
  end.

(** A [uint32_t] passed where the host takes an [int]. *)
Definition int_of_uint32 (n : Z) : Z :=
  if (n <? 2 ^ 31)%Z then n else (n - 2 ^ 32)%Z.

(** [v8::String::NewFromUtf8(isolate, data, kNormal, length)].  Length 0
    yields the empty string; a length above [String::kMaxLength] yields the
    empty [MaybeLocal]; a negative length stands for [strlen(data)].  The
    bytes are then read from the buffer (reading past it is fatal) and a new
    string is made. *)
Definition String_NewFromUtf8 (data : list Byte.byte) (len : Z) : M MaybeLocal :=
  st <~ get_state ;;
  if (len =? 0)%Z then NewLocal empty_string
  else if (kMaxLength st <? len)%Z then ret None
  else
    n <~ (if (len <? 0)%Z then lift_option (strlen data) else ret (Z.to_nat len)) ;;
    if bool_decide (n ≤ length data ∧ (Z.of_nat n ≤ kMaxLength st)%Z) then
      a <~ heap_alloc (HString (take n data)) ;; NewLocal a
    else fatal.

(** [MaybeLocal::ToLocalChecked]: fatal on the empty one. *)
Definition ToLocalChecked (maybe : MaybeLocal) : M Local :=
  match maybe with
  | Some i => ret (Some i)
  | None => fatal
  end.

(** [v8::Exception::Error(message)]. *)
Definition Exception_Error (message : Local) : M Local :=
  m <~ deref message ;;
  e <~ heap_alloc (HError m) ;;
  NewLocal e.

(** [Isolate::ThrowException]: schedules the exception; an empty handle
    throws undefined. *)
Definition Isolate_ThrowException (exception : Local) : M unit :=
  match exception with
  | None => modify (set_pending (Some undefined_value))
  | Some _ => a <~ deref exception ;; modify (set_pending (Some a))
  end.

(** [Nan::ThrowError(v8::Local<v8::Value>)]. *)
Definition Nan_ThrowError (error : Local) : M unit :=
  Isolate_ThrowException error.

(** [Nan::ThrowError] on a C string: the message is made into a host
    string first, and that must succeed. *)
Definition Nan_ThrowError_msg (msg : list Byte.byte) : M unit :=
  with_HandleScope (
    maybe <~ String_NewFromUtf8 (msg ++ [Byte.x00]) (-1) ;;
    s <~ ToLocalChecked maybe ;;
    err <~ Exception_Error s ;;
    Isolate_ThrowException err).

(** [Nan::GetOwnPropertyNames]: a new array of the keys; empty when the
    enumeration throws, as the [ownKeys] trap of a proxy may. *)
Definition Nan_GetOwnPropertyNames (obj : Local) : M MaybeLocal :=
  a <~ deref obj ;;
  st <~ get_state ;;
  match heap st !! a with
  | Some (HPlainObject props) => arr <~ heap_alloc (HArray (props.*1)) ;; NewLocal arr
  | Some (HProxy (inl keys)) => arr <~ heap_alloc (HArray keys) ;; NewLocal arr
  | Some (HProxy (inr thrown)) => modify (set_pending (Some thrown)) ;;; ret None
  | _ => fatal
  end.

(** [v8::External::New] and [v8::External::Value]. *)
Definition External_New (value : positive) : M Local :=
  a <~ heap_alloc (HExternal value) ;; NewLocal a.

Definition External_Value (wrapper : positive) : M positive :=
  st <~ get_state ;;
  match heap st !! wrapper with
  | Some (HExternal value) => ret value
  | _ => fatal
  end.

(** [v8::FunctionTemplate::New(isolate, callback, data)]; empty data stands
    for undefined. *)
Definition FunctionTemplate_New (callback : FunctionCallback) (data : Local) : M Local :=
  d <~ match data with None => ret undefined_value | Some _ => deref data end ;;
  a <~ heap_alloc (HFunctionTemplate callback d None None None) ;;
  NewLocal a.

(** [FunctionTemplate::PrototypeTemplate] and [InstanceTemplate]: the object
    template is made on first use. *)
Definition FunctionTemplate_PrototypeTemplate (ft : Local) : M Local :=
  a <~ deref ft ;;
  st <~ get_state ;;
  match heap st !! a with
  | Some (HFunctionTemplate cb d cn (Some pt) it) => NewLocal pt
  | Some (HFunctionTemplate cb d cn None it) =>
      pt <~ heap_alloc (HObjectTemplate [] 0) ;;
      modify (set_heap (<[a := HFunctionTemplate cb d cn (Some pt) it]>)) ;;;
      NewLocal pt
  | _ => fatal
  end.

Definition FunctionTemplate_InstanceTemplate (ft : Local) : M Local :=
  a <~ deref ft ;;
  st <~ get_state ;;
  match heap st !! a with
  | Some (HFunctionTemplate cb d cn pt (Some it)) => NewLocal it
  | Some (HFunctionTemplate cb d cn pt None) =>
      it <~ heap_alloc (HObjectTemplate [] 0) ;;
      modify (set_heap (<[a := HFunctionTemplate cb d cn pt (Some it)]>)) ;;;
      NewLocal it
  | _ => fatal
  end.

Definition FunctionTemplate_SetClassName (ft : Local) (name : Local) : M unit :=
  a <~ deref ft ;;
  n <~ deref name ;;
  st <~ get_state ;;
  match heap st !! a with
  | Some (HFunctionTemplate cb d _ pt it) =>
      modify (set_heap (<[a := HFunctionTemplate cb d (Some n) pt it]>))
  | _ => fatal
  end.

Definition ObjectTemplate_SetInternalFieldCount (t : Local) (count : nat) : M unit :=
  a <~ deref t ;;
  st <~ get_state ;;
  match heap st !! a with
  | Some (HObjectTemplate props _) =>
      modify (set_heap (<[a := HObjectTemplate props count]>))
  | _ => fatal
  end.

(** [Template::Set(name, value)]: one more property of the template. *)
Definition Template_Set (t : Local) (name value : Local) : M unit :=
  a <~ deref t ;;
  k <~ deref name ;;
  v <~ deref value ;;
  st <~ get_state ;;
  match heap st !! a with
  | Some (HObjectTemplate props count) =>
      modify (set_heap (<[a := HObjectTemplate (props ++ [(k, v)]) count]>))
  | _ => fatal
  end.

(** ** Class metadata in native memory *)

Definition metadata_at (mp : positive) : M BaseClassMetadata :=
  st <~ get_state ;; lift_option (metadata st !! mp).

(** Modelled from the spec: the constructor of [neon::BaseClassMetadata], of
    the same header.  [new] makes the object and, inside it, the empty
    persistent that will hold the constructor template; the class has no
    name yet. *)
Definition new_BaseClassMetadata
    (construct_callback construct_kernel call_callback call_kernel
     allocate_callback allocate_kernel drop_instance : positive) : M positive :=
  st <~ get_state ;;
  let mp := fresh (dom (metadata st)) in
  let t := fresh (dom (persistents st)) in
  modify (set_persistents (<[t := None]>)) ;;;
  modify (set_metadata (<[mp :=
    mk_BaseClassMetadata construct_callback construct_kernel call_callback call_kernel
      allocate_callback allocate_kernel drop_instance t ([], 0%Z)]>)) ;;;
  ret mp.

(** Modelled from the spec: [ClassMetadata::GetTemplate] and
    [ClassMetadata::SetTemplate], declared in neon_class_metadata.h which is
    not among the sources.  The constructor template of a class is stored in
    a Persistent Handle of its metadata, [reset] when the class is created
    and [read] back into a handle afterwards. *)
Definition ClassMetadata_GetTemplate (mp : positive) : M Local :=
  md <~ metadata_at mp ;; Nan_New_persistent (template_ md).

Definition ClassMetadata_SetTemplate (mp : positive) (t : Local) : M unit :=
  md <~ metadata_at mp ;; Persistent_Reset_to (template_ md) t.

(** Modelled from the spec: [ClassMetadata::SetName], of the same header,
    keeps the slice (the bytes pointed to and their count) as the class
    name. *)
Definition ClassMetadata_SetName (mp : positive) (slice : list Byte.byte * Z) : M unit :=
  md <~ metadata_at mp ;;
  modify (set_metadata (<[mp :=
    mk_BaseClassMetadata (construct_callback_ md) (construct_kernel_ md)
      (call_callback_ md) (call_kernel_ md) (allocate_callback_ md)
      (allocate_kernel_ md) (drop_instance_ md) (template_ md) slice]>)).

(** What the host hands to a function callback. *)
Record FunctionCallbackInfo := mk_FunctionCallbackInfo {
  info_Data : positive;
  info_IsConstructCall : bool;
  info_This : positive;
  info_args : list positive
}.

(** The native code the shim calls into, taken as a parameter: the
    [construct] and [call] member functions of [neon::BaseClassMetadata],
    declared in neon_class_metadata.h which is not among the sources, run on
    a metadata object; and the static entry points that native code
    registers in templates. *)
Class NativeCode := {
  BaseClassMetadata_construct : positive → FunctionCallbackInfo → M unit;
  BaseClassMetadata_call : positive → FunctionCallbackInfo → M unit;
  static_entry : positive → FunctionCallbackInfo → M unit
}.

(** The value a function declared to return one hands back: the operand of
    the [return] reached, or none when control runs off the end of the
    body. *)
Inductive returned (A : Type) :=
| Return (a : A)
| NoReturn.
Arguments Return {A} a.
Arguments NoReturn {A}.

(** ** The shim: objects, strings, classes, functions, errors *)

(** neon.cc, lines 77-86.  The body ends after [out->Reset(isolate, larr)]:
    no [return] follows. *)
Definition Neon_Object_GetOwnPropertyNames (out obj : positive) : M (returned bool) :=
  with_HandleScope (
    lobj <~ Nan_New_persistent obj ;;
    maybe <~ Nan_GetOwnPropertyNames lobj ;;
    match maybe with
    | None => ret (Return false)
    | Some larr =>
        Persistent_Reset_to out (Some larr) ;;;
        ret NoReturn
    end).

(** neon.cc, lines 263-272. *)
Definition Neon_String_New (out : positive) (data : list Byte.byte) (len : Z)
  : M (returned bool) :=
  with_HandleScope (
    maybe <~ String_NewFromUtf8 data len ;;
    match maybe with
    | None => ret (Return false)
    | Some local =>
        Persistent_Reset_to out (Some local) ;;;
        ret (Return true)
    end).

(** neon.cc, lines 431-440. *)
Definition Neon_Class_ConstructBaseCallback `{NativeCode} (info : FunctionCallbackInfo)
  : M unit :=
  with_HandleScope (
    let wrapper := info_Data info in
    metadata <~ External_Value wrapper ;;
    if info_IsConstructCall info then
      BaseClassMetadata_construct metadata info
    else
      BaseClassMetadata_call metadata info).

(** neon.cc, lines 442-458. *)
Definition Neon_Class_CreateBase (allocate construct call : callback_t) (drop : positive)
  : M positive :=
  let allocate_callback := static_callback allocate in
  let construct_callback := static_callback construct in
  let call_callback := static_callback call in
  metadata <~ new_BaseClassMetadata construct_callback (dynamic_callback construct)
                call_callback (dynamic_callback call)
                allocate_callback (dynamic_callback allocate) drop ;;
  data <~ External_New metadata ;;
  constructor_template <~ FunctionTemplate_New ConstructBaseCallback data ;;
  ClassMetadata_SetTemplate metadata constructor_template ;;;
  instance_template <~ FunctionTemplate_InstanceTemplate constructor_template ;;
  ObjectTemplate_SetInternalFieldCount instance_template 1 ;;;
  ret metadata.

(** neon.cc, lines 510-521.  [name] stands for the bytes at the pointer;
    [byte_length] is a [uint32_t], passed to the host as an [int]. *)
Definition Neon_Class_SetName (metadata_pointer : positive) (name : list Byte.byte)
    (byte_length : Z) : M (returned bool) :=
  let metadata := metadata_pointer in
  ft <~ ClassMetadata_GetTemplate metadata ;;
  maybe_class_name <~ String_NewFromUtf8 name (int_of_uint32 byte_length) ;;
  match maybe_class_name with
  | None => ret (Return false)
  | Some class_name =>
      FunctionTemplate_SetClassName ft (Some class_name) ;;;
      ClassMetadata_SetName metadata (name, byte_length) ;;;
      ret (Return true)
  end.

(** neon.cc, lines 541-553.  The scope opens after the two templates have
    been fetched. *)
Definition Neon_Class_AddMethod (metadata_pointer : positive) (name : list Byte.byte)
    (byte_length : Z) (method : Local) : M (returned bool) :=
  let metadata := metadata_pointer in
  ft <~ ClassMetadata_GetTemplate metadata ;;
  pt <~ FunctionTemplate_PrototypeTemplate ft ;;
  with_HandleScope (
    maybe_key <~ String_NewFromUtf8 name (int_of_uint32 byte_length) ;;
    match maybe_key with
    | None => ret (Return false)
    | Some key =>
        Template_Set pt (Some key) method ;;;
        ret (Return true)
    end).

(** neon.cc, lines 615-622 and 629-636: the calls are commented out, what
    is left is [return false]. *)
Definition Neon_Fun_CallThin (out : positive) (fun_ self : positive) (argc : Z)
    (argv : list positive) : M (returned bool) :=
  ret (Return false).

Definition Neon_Fun_ConstructThin (out : positive) (fun_ : positive) (argc : Z)
    (argv : list positive) : M (returned bool) :=
  ret (Return false).

(** The text of the generic error. *)
Definition unknown_error_message : list Byte.byte :=
  String.list_byte_of_string "an unknown Neon error occurred"%string.

(** neon.cc, lines 746-758. *)
Definition Neon_Error_ThrowErrorFromUtf8 (data : list Byte.byte) (len : Z) : M unit :=
  maybe <~ String_NewFromUtf8 data len ;;
  match maybe with
  | None => Nan_ThrowError_msg unknown_error_message
  | Some msg =>
      err <~ Exception_Error (Some msg) ;;
      Nan_ThrowError err
  end.

(** The host calls the function of a template: the callback kept in the
    template runs on the template's data. *)
Definition host_invoke `{NativeCode} (template : positive) (is_construct_call : bool)
    (this : positive) (args : list positive) : M unit :=
  st <~ get_state ;;
  match heap st !! template with
  | Some (HFunctionTemplate callback data _ _ _) =>
      let info := mk_FunctionCallbackInfo data is_construct_call this args in
      match callback with
      | ConstructBaseCallback => Neon_Class_ConstructBaseCallback info
      | StaticCallback fn => static_entry fn info
      end
  | _ => fatal
  end.

(** ** Sequences of calls into the scope and handle system *)

Inductive op :=
| OpScopeEnter
| OpScopeEnterEscapable
| OpScopeExit (scope : nat)
| OpScopeEscape (scope : nat) (value : Local)
| OpObjectNew
| OpNewPersistent (out : positive)
| OpDropPersistent (p : positive)
| OpReadPersistent (p : positive)
| OpResetPersistent (p : positive) (h : Local).

Definition step (o : op) : M unit :=
  match o with
  | OpScopeEnter => Neon_Scope_Enter ;;; ret tt
  | OpScopeEnterEscapable => Neon_Scope_Enter_Escapable ;;; ret tt
  | OpScopeExit sc => Neon_Scope_Exit sc
  | OpScopeEscape sc v => Neon_Scope_Escape sc v ;;; ret tt
  | OpObjectNew => Neon_Object_New ;;; ret tt
  | OpNewPersistent out => Neon_Mem_NewPersistent out
  | OpDropPersistent p => Neon_Mem_DropPersistent p
  | OpReadPersistent p => Neon_Mem_ReadPersistent p ;;; ret tt
  | OpResetPersistent p h => Neon_Mem_ResetPersistent p h
  end.

Fixpoint run (ops : list op) : M unit :=
  match ops with
  | [] => ret tt
  | o :: rest => step o ;;; run rest
  end.

(** The calls that write the persistent at [p]. *)
Definition writes_persistent (p : positive) (o : op) : bool :=
  match o with
  | OpNewPersistent q | OpDropPersistent q | OpResetPersistent q _ => bool_decide (q = p)
  | _ => false
  end.

(** At least [n] scopes stay open all along the calls. *)
Fixpoint keeps_open (n : nat) (ops : list op) (st : State) : Prop :=
  match ops with
  | [] => True
  | o :: rest =>
      match step o st with
      | Some (_, st') => n ≤ length (scopes st') ∧ keeps_open n rest st'
      | None => True
      end
  end.

(** ** Well-formed states *)

(** The open scopes are nested: each starts at or above the start of the
    one around it and below the top of the handle stack, and the escape slot
    of an escapable scope lies in the scope around it. *)
Fixpoint scopes_nested (lo : nat) (ss : list ScopeData) (top : nat) : Prop :=
  match ss with
  | [] => lo ≤ top
  | d :: rest =>
      lo ≤ prev_next d ∧
      (∀ e, escape_slot d = Some e → lo ≤ e ∧ e < prev_next d) ∧
      scopes_nested (prev_next d) rest top
  end.

(** Moreover no handle lives outside every scope, and the outermost scope is
    a plain one. *)
Definition scopes_wf (st : State) : Prop :=
  scopes_nested 0 (scopes st) (length (handles st)) ∧
  match scopes st with
  | [] => handles st = []
  | d :: _ => prev_next d = 0 ∧ escape_slot d = None
  end.

(** Every non-empty persistent owns a live global node of its own. *)
Definition persistents_wf (st : State) : Prop :=
  (∀ p g, persistents st !! p = Some (Some g) → is_Some (globals st !! g)) ∧
  (∀ p1 p2 g, persistents st !! p1 = Some (Some g) →
              persistents st !! p2 = Some (Some g) → p1 = p2).

(** ** Predicates and states used in the properties *)

(** Two objects created one after the other: same contents, two identities. *)
Definition two_objects : State :=
  match run [OpObjectNew; OpObjectNew] initial_state with
  | Some (_, st) => st
  | None => initial_state
  end.

(** The escaped slot [e] holds [a] and lies below every scope from the
    [n]-th on. *)
Definition escaped (e : nat) (a : positive) (n : nat) (st : State) : Prop :=
  handles st !! e = Some (Some a) ∧
  ∀ k d, n ≤ k → scopes st !! k = Some d → e < prev_next d.

(** The persistent at [p] owns a node that holds [a], and no other
    persistent shares the node. *)
Definition holds (p : positive) (a : positive) (st : State) : Prop :=
  ∃ g, persistents st !! p = Some (Some g) ∧
       globals st !! g = Some (Some a) ∧
       ∀ q, q ≠ p → persistents st !! q ≠ Some (Some g).

(** The start of the innermost scope, or [lo] when none is open. *)
Definition innermost (lo : nat) (ss : list ScopeData) : nat :=
  match last ss with Some d => prev_next d | None => lo end.

(** A well-formed state: nested scopes, and persistents that own their
    nodes. *)
Definition wf (st : State) : Prop := scopes_wf st ∧ persistents_wf st.

(** The state reached from [initial_state] by a sequence of calls. *)
Definition after (ops : list op) : State :=
  match run ops initial_state with
  | Some (_, st) => st
  | None => initial_state
  end.

(** A persistent holding an object, then dropped once. *)
Definition holding : State :=
  after [OpNewPersistent 7; OpObjectNew; OpResetPersistent 7 (Some 0%nat)].
Definition dropped : State :=
  after [OpNewPersistent 7; OpObjectNew; OpResetPersistent 7 (Some 0%nat);
         OpDropPersistent 7].

(** An object and an empty persistent. *)
Definition object_and_persistent : State :=
  after [OpNewPersistent 7; OpObjectNew].

(** An escapable scope inside the outermost one, and an object created in
    it. *)
Definition in_escapable : State := after [OpScopeEnterEscapable; OpObjectNew].

(** The properties set on the prototype template of a constructor template;
    none as long as the prototype template has not been made. *)
Definition prototype_properties (st : State) (ft : positive) : list (positive * positive) :=
  match heap st !! ft with
  | Some (HFunctionTemplate _ _ _ (Some pt) _) =>
      match heap st !! pt with
      | Some (HObjectTemplate props _) => props
      | _ => []
      end
  | _ => []
  end.

(** The metadata at [mp] holds the constructor template [ft], and the
    prototype template of [ft], once made, is an object template. *)
Definition class_of (st : State) (mp ft : positive) : Prop :=
  ∃ md g cb d cn pt it,
    metadata st !! mp = Some md ∧
    persistents st !! template_ md = Some (Some g) ∧
    globals st !! g = Some (Some ft) ∧
    heap st !! ft = Some (HFunctionTemplate cb d cn pt it) ∧
    match pt with
    | Some p => ∃ props n, heap st !! p = Some (HObjectTemplate props n)
    | None => True
    end.

(** The host can make a string of [len] bytes: the empty string always, and
    any other up to its limit. *)
Definition encodable (st : State) (len : Z) : bool :=
  (len =? 0)%Z || (len <=? kMaxLength st)%Z.

(** [ft] is a template whose callback is the shim's dispatcher and whose
    data wraps the metadata at [mp]. *)
Definition constructor_template (st : State) (ft data mp : positive) : Prop :=
  (∃ cn pt it,
     heap st !! ft = Some (HFunctionTemplate ConstructBaseCallback data cn pt it)) ∧
  heap st !! data = Some (HExternal mp).

(** Native code for the examples: constructing makes an object, a plain call
    raises, as a class that has to be constructed does. *)
Definition example_native : NativeCode := {|
  BaseClassMetadata_construct := λ _ _, Neon_Object_New ;;; ret tt;
  BaseClassMetadata_call := λ _ _,
    Nan_ThrowError_msg (String.list_byte_of_string "constructor called without new."%string);
  static_entry := λ _ _, ret tt
|}.

Definition example_allocate : callback_t := mk_callback_t 11 12.
Definition example_construct : callback_t := mk_callback_t 13 14.
Definition example_call : callback_t := mk_callback_t 15 16.

(** A class registered in the initial state, and a method template. *)
Definition with_class : State :=
  match
    (Neon_Class_CreateBase example_allocate example_construct example_call 17 ;;;
     FunctionTemplate_New (StaticCallback 18) None) initial_state
  with
  | Some (_, st) => st
  | None => initial_state
  end.

(** The same on a host whose strings hold 40 bytes at most. *)
Definition with_class_small : State :=
  mk_State (heap with_class) (handles with_class) (scopes with_class) (globals with_class)
           (persistents with_class) (metadata with_class) (pending_exception with_class) 40.

Definition bytes_of (s : string) : list Byte.byte := String.list_byte_of_string s.

(** A buffer of 2^31 bytes, for a name that long: it starts with "foo" and
    a NUL byte. *)
Definition long_name : list Byte.byte :=
  bytes_of "foo" ++ Byte.x00 :: replicate (Z.to_nat (2 ^ 31 - 4)) Byte.x61.

(** An object held by the persistent at 7, and an empty persistent at 8. *)
Definition object_held : State :=
  after [OpNewPersistent 7; OpNewPersistent 8; OpObjectNew;
         OpResetPersistent 7 (Some 0%nat)].

(** ** The shim: further entries *)

(** [PersistentBase::Reset(isolate, other)] for a local that points into the
    frame of a call, not into the handle stack: [w] is the word it points
    to. *)
Definition Persistent_Reset_word (p : positive) (w : option positive) : M unit :=
  Persistent_Reset p ;;;
  g <~ GlobalizeReference w ;;
  set_persistent_val p (Some g).

(** [Nan::New<v8::Object>()]. *)
Definition Nan_New_Object : M Local :=
  a <~ heap_alloc (HPlainObject []) ;; NewLocal a.

(** [FunctionCallbackInfo::Length] and [operator[]]: an index below 0 or at
    or above the length reads as undefined. *)
Definition info_Length (info : FunctionCallbackInfo) : Z :=
  Z.of_nat (length (info_args info)).

Definition info_at (info : FunctionCallbackInfo) (i : Z) : positive :=
  if ((i <? 0) || (info_Length info <=? i))%Z then undefined_value
  else default undefined_value (info_args info !! Z.to_nat i).

(** neon.cc, lines 53-55. *)
Definition Neon_Call_Length (info : FunctionCallbackInfo) : Z := info_Length info.

(** neon.cc, lines 46-50. *)
Definition Neon_Call_InitData (info : FunctionCallbackInfo) (out : positive) : M unit :=
  with_HandleScope (
    let data := info_Data info in
    Persistent_Reset_word out (Some data)).

(** neon.cc, lines 61-65. *)
Definition Neon_Call_InitGet (info : FunctionCallbackInfo) (i : Z) (out : positive)
  : M unit :=
  with_HandleScope (
    let local := info_at info i in
    Persistent_Reset_word out (Some local)).

(** neon.cc, lines 71-75. *)
Definition Neon_Object_Init (out : positive) : M unit :=
  with_HandleScope (
    local <~ Nan_New_Object ;;
    Persistent_Reset_to out local).

(** A limit of the host build, taken as a parameter:
    [FixedArray::kMaxLength], the longest store of elements the host
    allocates. *)
Class HostLimits := {
  FixedArray_kMaxLength : Z
}.

(** [v8::Array::New(isolate, length)]: the host takes an [int], and a
    negative one stands for 0.  The elements are allocated at once: a length
    above [FixedArray::kMaxLength] is fatal ("invalid array length").
    Otherwise a new array of that length is made; every element of it reads
    as undefined. *)
Definition Array_New `{HostLimits} (length : Z) : M Local :=
  let real_length := if (0 <? length)%Z then length else 0%Z in
  if (FixedArray_kMaxLength <? real_length)%Z then fatal
  else
    a <~ heap_alloc (HArray (replicate (Z.to_nat real_length) undefined_value)) ;;
    NewLocal a.

(** [v8::Array::Length]. *)
Definition Array_Length (array : Local) : M Z :=
  a <~ deref array ;;
  st <~ get_state ;;
  match heap st !! a with
  | Some (HArray elements) => ret (Z.of_nat (length elements))
  | _ => fatal
  end.

(** neon.cc, lines 247-251; [length] is a [uint32_t]. *)
Definition Neon_Array_Init `{HostLimits} (out : positive) (length : Z) : M unit :=
  with_HandleScope (
    local <~ Array_New (int_of_uint32 length) ;;
    Persistent_Reset_to out local).

(** neon.cc, lines 257-261. *)
Definition Neon_Array_Length (array : positive) : M Z :=
  with_HandleScope (
    local <~ Nan_New_persistent array ;;
    Array_Length local).

(** neon.cc, lines 379-382: the callback is handed the escapable scope made
    for it. *)
Definition Neon_Scope_Chained {A} (callback : nat → M A) : M A :=
  v8_scope <~ EscapableHandleScope_open ;;
  r <~ callback v8_scope ;;
  HandleScope_close v8_scope ;;;
  ret r.

(** neon.cc, lines 384-387. *)
Definition Neon_Scope_Nested {A} (callback : M A) : M A :=
  with_HandleScope callback.

(** neon.cc, lines 565-574.  The pair is what the function returns and what
    it leaves in [out]. *)
Definition Neon_Fun_Template_New (callback : callback_t) : M (bool * Local) :=
  wrapper <~ External_New (dynamic_callback callback) ;;
  match wrapper with
  | None => ret (false, None)
  | Some _ =>
      let static_callback := StaticCallback (static_callback callback) in
      maybe_result <~ FunctionTemplate_New static_callback wrapper ;;
      match maybe_result with
      | Some i => ret (true, Some i)
      | None => ret (false, None)
      end
  end.

(** neon.cc, lines 604-608. *)
Definition Neon_Fun_GetDynamicCallback (data : positive) : M positive :=
  with_HandleScope (
    local <~ Nan_New_persistent data ;;
    a <~ deref local ;;
    External_Value a).

(** neon.cc, lines 704-708. *)
Definition Neon_Error_Throw (val : positive) : M unit :=
  with_HandleScope (
    local <~ Nan_New_persistent val ;;
    Nan_ThrowError local).

(** neon.cc, lines 710-715. *)
Definition Neon_Error_InitError (out msg : positive) : M unit :=
  with_HandleScope (
    lmsg <~ Nan_New_persistent msg ;;
    lerr <~ Exception_Error lmsg ;;
    Persistent_Reset_to out lerr).

(** Modelled from the spec: [ClassMetadata::GetName], declared in
    neon_class_metadata.h which is not among the sources: the name of the
    class, as the slice [ClassMetadata::SetName] stored. *)
Definition ClassMetadata_GetName (mp : positive) : M (list Byte.byte * Z) :=
  md <~ metadata_at mp ;; ret (name_ md).

(** neon.cc, lines 523-528: the buffer and the length of the name. *)
Definition Neon_Class_GetName (metadata_pointer : positive) : M (list Byte.byte * Z) :=
  let metadata := metadata_pointer in
  ClassMetadata_GetName metadata.

(** The kinds the host tells apart with [Value::IsUndefined], [IsString],
    [IsArray], [IsNativeError] and [IsObject]: undefined and a string are
    primitives, an array and an error are objects.  A template is not a
    value and is never asked. *)
Definition is_undefined (o : HObject) : bool :=
  match o with HUndefined => true | _ => false end.
Definition is_string (o : HObject) : bool :=
  match o with HString _ => true | _ => false end.
Definition is_array (o : HObject) : bool :=
  match o with HArray _ => true | _ => false end.
Definition is_native_error (o : HObject) : bool :=
  match o with HError _ => true | _ => false end.
Definition is_object (o : HObject) : bool :=
  match o with
  | HExternal _ | HError _ | HArray _ | HPlainObject _ | HProxy _ => true
  | _ => false
  end.

(** [val->IsX()]: the test on the value the handle refers to. *)
Definition Value_Is (test : HObject → bool) (val : Local) : M bool :=
  a <~ deref val ;;
  st <~ get_state ;;
  o <~ lift_option (heap st !! a) ;;
  ret (test o).

(** neon.cc, lines 638-640 and 672-674. *)
Definition Neon_Tag_IsUndefined (val : Local) : M bool := Value_Is is_undefined val.
Definition Neon_Tag_IsObject (val : Local) : M bool := Value_Is is_object val.

(** neon.cc, lines 642-646, 666-670, 676-680, 682-686 and 698-702: the same
    body around each test; [Neon_Tag_IsError] asks [IsNativeError]. *)
Definition Neon_Tag_IsUndefinedThin (val : positive) : M bool :=
  with_HandleScope (local <~ Nan_New_persistent val ;; Value_Is is_undefined local).
Definition Neon_Tag_IsString (val : positive) : M bool :=
  with_HandleScope (local <~ Nan_New_persistent val ;; Value_Is is_string local).
Definition Neon_Tag_IsObjectThin (val : positive) : M bool :=
  with_HandleScope (local <~ Nan_New_persistent val ;; Value_Is is_object local).
Definition Neon_Tag_IsArray (val : positive) : M bool :=
  with_HandleScope (local <~ Nan_New_persistent val ;; Value_Is is_array local).
Definition Neon_Tag_IsError (val : positive) : M bool :=
  with_HandleScope (local <~ Nan_New_persistent val ;; Value_Is is_native_error local).

(** The host's property access, taken as a parameter: reading or writing a
    property may run any code of the page (an accessor, a proxy trap).  The
    result is none when that code threw. *)
Class HostObjects := {
  Object_Get : positive → positive → M (option positive);
  Object_Set : positive → positive → positive → M (option bool)
}.

(** [Nan::Get(obj, key)] and [Nan::Set(obj, key, val)]. *)
Definition Nan_Get `{HostObjects} (obj key : Local) : M MaybeLocal :=
  o <~ deref obj ;;
  k <~ deref key ;;
  r <~ Object_Get o k ;;
  match r with
  | Some v => NewLocal v
  | None => ret None
  end.

Definition Nan_Set `{HostObjects} (obj key val : Local) : M (option bool) :=
  o <~ deref obj ;;
  k <~ deref key ;;
  v <~ deref val ;;
  Object_Set o k v.

(** neon.cc, lines 147-150; [len] is an [int32_t].  The pair is what the
    function returns and what it leaves in [key]. *)
Definition Neon_ASCII_Key (data : list Byte.byte) (len : Z) : M (bool * Local) :=
  maybe_key <~ String_NewFromUtf8 data len ;;
  match maybe_key with
  | Some key => ret (true, Some key)
  | None => ret (false, None)
  end.

(** The scope of a [Nan::EscapableHandleScope scope;] declared in a function
    body. *)
Definition with_EscapableHandleScope {A} (body : nat → M A) : M A :=
  scope <~ EscapableHandleScope_open ;;
  r <~ body scope ;;
  HandleScope_close scope ;;;
  ret r.

(** neon.cc, lines 152-165. *)
Definition Neon_Object_Get_String `{HostObjects} (obj : Local) (data : list Byte.byte)
    (len : Z) : M (bool * Local) :=
  with_EscapableHandleScope (λ scope,
    k <~ Neon_ASCII_Key data len ;;
    if negb k.1 then ret (false, None)
    else
      maybe <~ Nan_Get obj k.2 ;;
      match maybe with
      | None => ret (false, None)
      | Some result =>
          out <~ EscapableHandleScope_Escape scope (Some result) ;;
          ret (true, out)
      end).

(** neon.cc, lines 183-191.  The pair is what the function returns and what
    it writes to [out], if anything. *)
Definition Neon_Object_Set_String `{HostObjects} (obj : Local) (data : list Byte.byte)
    (len : Z) (val : Local) : M (bool * option bool) :=
  with_HandleScope (
    k <~ Neon_ASCII_Key data len ;;
    if negb k.1 then ret (false, None)
    else
      maybe <~ Nan_Set obj k.2 val ;;
      match maybe with
      | Some b => ret (true, Some b)
      | None => ret (false, None)
      end).

(** The host's property access returns, and returns with the handle stack
    and the scopes as it found them: whatever scopes the code it runs opens,
    it closes. *)
Definition host_balanced `{HostObjects} : Prop :=
  (∀ o k st, ∃ r st', Object_Get o k st = Some (r, st') ∧
     handles st' = handles st ∧ scopes st' = scopes st) ∧
  (∀ o k v st, ∃ r st', Object_Set o k v st = Some (r, st') ∧
     handles st' = handles st ∧ scopes st' = scopes st).

(** A host for the examples: own data properties only, found by the
    identity of the key. *)
Definition example_objects : HostObjects := {|
  Object_Get := λ o k,
    st <~ get_state ;;
    match heap st !! o with
    | Some (HPlainObject props) =>
        ret (Some (default undefined_value
                     ((λ r, r.2.2) <$> list_find (λ kv, kv.1 = k) props)))
    | _ => modify (set_pending (Some undefined_value)) ;;; ret None
    end;
  Object_Set := λ o k v,
    st <~ get_state ;;
    match heap st !! o with
    | Some (HPlainObject props) =>
        modify (set_heap (<[o := HPlainObject (props ++ [(k, v)])]>)) ;;; ret (Some true)
    | _ => modify (set_pending (Some undefined_value)) ;;; ret None
    end
|}.

(** A message held by the persistent at 7, and an empty persistent at 8. *)
Definition message_held : State :=
  match
    (Neon_Mem_NewPersistent 7 ;;; Neon_Mem_NewPersistent 8 ;;;
     Neon_String_New 7 (bytes_of "boom") 4) initial_state
  with
  | Some (_, st) => st
  | None => initial_state
  end.

(** The limit of a 64-bit host for the examples. *)
Definition example_limits : HostLimits := {|
  FixedArray_kMaxLength := 2 ^ 27 - 2
|}.

(** What a function callback is handed when it is called on one argument. *)
Definition example_info : FunctionCallbackInfo :=
  mk_FunctionCallbackInfo undefined_value false undefined_value [3%positive].

(** Every live global node belongs to a persistent. *)
Definition owned (st : State) : Prop :=
  ∀ g, is_Some (globals st !! g) → ∃ p, persistents st !! p = Some (Some g).

(** No persistent is constructed over one that holds a node. *)
Fixpoint constructs_over_empty (ops : list op) (st : State) : Prop :=
  match ops with
  | [] => True
  | o :: rest =>
      match o with
      | OpNewPersistent out => ∀ g, persistents st !! out ≠ Some (Some g)
      | _ => True
      end ∧
      match step o st with
      | Some (_, st') => constructs_over_empty rest st'
      | None => True
      end
  end.

(** The scopes from the outermost to the [n]-th are [ss]. *)
Definition scopes_below (n : nat) (ss : list ScopeData) (st : State) : Prop :=
  take n (scopes st) = ss.

(** * The task queue bridge *)

(** The life of a task. *)
Inductive phase :=
| Created
| Queued
| Executing (worker : nat)
| Completing
| Finished.

Global Instance phase_eq_dec : EqDecision phase.
Proof. solve_decision. Defined.

Inductive thread :=
| HostThread
| WorkerThread (w : nat).

(** What can be observed of a run. *)
Inductive event :=
| EvPerformBegin (task worker : nat)
| EvPerformEnd (task : nat)
| EvComplete (on : thread) (task : nat).

Global Instance thread_eq_dec : EqDecision thread.
Proof. solve_decision. Defined.
Global Instance event_eq_dec : EqDecision event.
Proof. solve_decision. Defined.

(** The bridge: the phase of every task ever scheduled (a task is known by
    its position), the tasks whose [perform] has finished and which wait for
    the host thread, oldest first, and the events so far. *)
Record bridge := mk_bridge {
  phases : list phase;
  finished_work : list nat;
  log : list event
}.

Definition empty_bridge : bridge := mk_bridge [] [] [].

(** Modelled from the spec: [new neon::Task(isolate, task, perform,
    complete, callback)], of neon_task.h which is not among the sources.  A
    task is created, on any thread. *)
Definition new_Task (b : bridge) : nat * bridge :=
  (length (phases b), mk_bridge (phases b ++ [Created]) (finished_work b) (log b)).

(** Modelled from the spec: [neon::queue_task], of neon_task.h which is not
    among the sources.  Schedule enqueues the task into the runtime-wide
    queue: Created -> Queued. *)
Definition queue_task (task : nat) (b : bridge) : option bridge :=
  match phases b !! task with
  | Some Created => Some (mk_bridge (<[task := Queued]> (phases b)) (finished_work b) (log b))
  | _ => None
  end.

(** neon.cc, lines 783-787: a task is made and queued. *)
Definition Neon_Task_Schedule (b : bridge) : option bridge :=
  let '(internal_task, b') := new_Task b in
  queue_task internal_task b'.

(** A worker runs one [perform] at a time. *)
Definition busy (w : nat) (b : bridge) : bool :=
  bool_decide (Executing w ∈ phases b).

(** Modelled from the spec: the rest of the state machine of the bridge,
    Queued -> Executing (off the host thread) -> Completing -> Finished (on
    the host thread).  A worker of the pool takes a queued task and runs its
    [perform]; when [perform] finishes the task is handed back to the host
    thread; the host thread takes the tasks handed back, oldest first, and
    runs [complete] on each, once, then discards it. *)
Inductive action :=
| Schedule (from : nat)
| PerformBegin (worker task : nat)
| PerformEnd (task : nat)
| HostDrain.

Definition act (pool : nat) (a : action) (b : bridge) : option bridge :=
  match a with
  | Schedule _ => Neon_Task_Schedule b
  | PerformBegin w task =>
      if bool_decide (w < pool) && negb (busy w b) then
        match phases b !! task with
        | Some Queued =>
            Some (mk_bridge (<[task := Executing w]> (phases b)) (finished_work b)
                            (log b ++ [EvPerformBegin task w]))
        | _ => None
        end
      else None
  | PerformEnd task =>
      match phases b !! task with
      | Some (Executing w) =>
          Some (mk_bridge (<[task := Completing]> (phases b)) (finished_work b ++ [task])
                          (log b ++ [EvPerformEnd task]))
      | _ => None
      end
  | HostDrain =>
      match finished_work b with
      | task :: rest =>
          Some (mk_bridge (<[task := Finished]> (phases b)) rest
                          (log b ++ [EvComplete HostThread task]))
      | [] => None
      end
  end.

Fixpoint run_bridge (pool : nat) (acts : list action) (b : bridge) : option bridge :=
  match acts with
  | [] => Some b
  | a :: rest =>
      match act pool a b with
      | Some b' => run_bridge pool rest b'
      | None => None
      end
  end.

Definition is_schedule (a : action) : bool :=
  match a with Schedule _ => true | _ => false end.

(** The number of calls of [Neon_Task_Schedule] in a run. *)
Definition scheduled (acts : list action) : nat := length (filter (λ a, is_schedule a = true) acts).

(** The [complete] invocations in a log: those of one task, and all. *)
Definition completes (task : nat) (e : event) : bool :=
  match e with
  | EvComplete _ i => bool_decide (i = task)
  | _ => false
  end.

Definition is_complete (e : event) : bool :=
  match e with EvComplete _ _ => true | _ => false end.

Fixpoint count (f : event → bool) (l : list event) : nat :=
  match l with
  | [] => 0
  | e :: rest => (if f e then 1 else 0) + count f rest
  end.

Definition completions_of (task : nat) (l : list event) : nat := count (completes task) l.
Definition completions (l : list event) : nat := count is_complete l.

(** The bridge has nothing left to do: only a new [Schedule] can move it. *)
Definition at_rest (pool : nat) (b : bridge) : Prop :=
  ∀ a, is_schedule a = false → act pool a b = None.

(** How far a task is, and how many steps the tasks of a bridge are from
    being finished. *)
Definition rank (p : phase) : nat :=
  match p with
  | Created => 0
  | Queued => 1
  | Executing _ => 2
  | Completing => 3
  | Finished => 4
  end.

Fixpoint remaining (ps : list phase) : nat :=
  match ps with
  | [] => 0
  | p :: rest => (4 - rank p) + remaining rest
  end.

Fixpoint count_finished (ps : list phase) : nat :=
  match ps with
  | [] => 0
  | p :: rest => (if decide (p = Finished) then 1 else 0) + count_finished rest
  end.

(** What holds of every bridge reached from the empty one. *)
Record bridge_invariant (b : bridge) : Prop := mk_bridge_invariant {
  inv_no_created : ∀ i, phases b !! i ≠ Some Created;
  inv_queue : ∀ i, i ∈ finished_work b ↔ phases b !! i = Some Completing;
  inv_queue_nodup : NoDup (finished_work b);
  inv_perform_end : ∀ i,
    phases b !! i = Some Completing ∨ phases b !! i = Some Finished →
    EvPerformEnd i ∈ log b;
  inv_complete_once : ∀ i,
    completions_of i (log b) = if decide (phases b !! i = Some Finished) then 1 else 0;
  inv_complete_total : completions (log b) = count_finished (phases b);
  inv_order : ∀ k t i,
    log b !! k = Some (EvComplete t i) →
    t = HostThread ∧ ∃ k', k' < k ∧ log b !! k' = Some (EvPerformEnd i)
}.

Definition is_executing (p : phase) : bool :=
  match p with Executing _ => true | _ => false end.

(** Four tasks scheduled from four threads on a pool of two workers; the
    [perform]s finish out of order. *)
Definition four_tasks : list action :=
  [Schedule 0; Schedule 1; PerformBegin 0 0; Schedule 2; PerformBegin 1 1;
   PerformEnd 1; Schedule 3; PerformBegin 1 3; HostDrain; PerformEnd 0;
   PerformBegin 0 2; PerformEnd 2; PerformEnd 3; HostDrain; HostDrain; HostDrain].

Definition four_tasks_done : bridge :=
  match run_bridge 2 four_tasks empty_bridge with
  | Some b => b
  | None => empty_bridge
  end.

(** * Properties of the shim *)

(** ** Unfolding computations *)

Lemma bind_Some {A B} (m : M A) (k : A → M B) st b st2 :
  bind m k st = Some (b, st2) ↔ ∃ a st1, m st = Some (a, st1) ∧ k a st1 = Some (b, st2).
Proof.
  unfold bind. split.
  - destruct (m st) as [[a st1]|]; [|done]. eauto.
  - intros (a & st1 & -> & H). done.
Qed.

Ltac inv_M :=
  repeat match goal with
  | H : bind _ _ _ = Some _ |- _ =>
      let H' := fresh "Hm" in
      apply bind_Some in H; destruct H as (? & ? & H' & H);
      cbv beta in H, H'
  | H : ret _ _ = Some _ |- _ => unfold ret in H; simplify_eq
  | H : get_state _ = Some _ |- _ => unfold get_state in H; simplify_eq
  | H : modify _ _ = Some _ |- _ => unfold modify in H; simplify_eq
  | H : fatal _ = Some _ |- _ => discriminate H
  | H : lift_option ?o _ = Some _ |- _ =>
      unfold lift_option in H; destruct o eqn:?; simplify_eq
  end.

(** ** Handle equality *)

Lemma Local_eq_referents st h1 h2 a1 a2 :
  referent st h1 = Some a1 → referent st h2 = Some a2 →
  Neon_Mem_SameHandle h1 h2 st = Some (bool_decide (a1 = a2), st).
Proof.
  unfold referent. intros H1 H2.
  destruct h1 as [i|]; [|done]. destruct h2 as [j|]; [|done].
  destruct (handles st !! i) as [[x|]|] eqn:Ei; simplify_eq.
  destruct (handles st !! j) as [[y|]|] eqn:Ej; simplify_eq.
  unfold Neon_Mem_SameHandle, Local_eq, read_slot, bind, get_state, lift_option, ret.
  rewrite Ei, Ej. do 2 f_equal.
  apply bool_decide_ext. split; congruence.
Qed.

Lemma Local_eq_refl st h :
  match h with Some i => is_Some (handles st !! i) | None => True end →
  Neon_Mem_SameHandle h h st = Some (true, st).
Proof.
  destruct h as [i|]; [|done]. intros [x Hx].
  unfold Neon_Mem_SameHandle, Local_eq, read_slot, bind, get_state, lift_option, ret.
  rewrite Hx. cbn. rewrite Hx. cbn. by rewrite bool_decide_eq_true_2.
Qed.

(** C8. [Neon_Mem_SameHandle] never changes the state and, on two handles
    that refer to values, answers whether the two values are one and the same
    host value; it answers [true] on a handle compared with itself (the empty
    handle included), and [false] on handles to two distinct host objects even
    when the heap holds the same contents for both. *)
Theorem Neon_Mem_SameHandle_identity (st : State) :
  (∀ h1 h2 a1 a2,
     referent st h1 = Some a1 → referent st h2 = Some a2 →
     ∃ b, Neon_Mem_SameHandle h1 h2 st = Some (b, st) ∧ (b = true ↔ a1 = a2)) ∧
  (∀ h, match h with Some i => is_Some (handles st !! i) | None => True end →
     Neon_Mem_SameHandle h h st = Some (true, st)) ∧
  (∀ h1 h2 a1 a2,
     referent st h1 = Some a1 → referent st h2 = Some a2 →
     a1 ≠ a2 → heap st !! a1 = heap st !! a2 →
     Neon_Mem_SameHandle h1 h2 st = Some (false, st)).
Proof.
  split; [|split].
  - intros h1 h2 a1 a2 H1 H2. exists (bool_decide (a1 = a2)). split.
    + by apply Local_eq_referents.
    + apply bool_decide_eq_true.
  - apply Local_eq_refl.
  - intros h1 h2 a1 a2 H1 H2 Hne _.
    rewrite (Local_eq_referents st h1 h2 a1 a2 H1 H2).
    by rewrite bool_decide_eq_false_2.
Qed.

Lemma Neon_Mem_SameHandle_identity_witness :
  Neon_Mem_SameHandle (Some 0) (Some 1) two_objects = Some (false, two_objects) ∧
  Neon_Mem_SameHandle (Some 0) (Some 0) two_objects = Some (true, two_objects).
Proof.
  destruct (Neon_Mem_SameHandle_identity two_objects) as (_ & Hrefl & Hdiff).
  split.
  - apply (Hdiff (Some 0) (Some 1) 3%positive 4%positive).
    + vm_compute. reflexivity.
    + vm_compute. reflexivity.
    + discriminate.
    + vm_compute. reflexivity.
  - apply (Hrefl (Some 0)). vm_compute. eexists. reflexivity.
Defined.

(** ** Dropping a persistent *)

Lemma Persistent_Reset_empty st p :
  persistents st !! p = Some None → Persistent_Reset p st = Some (tt, st).
Proof.
  intros H. unfold Persistent_Reset, persistent_val, bind, get_state, lift_option.
  by rewrite H.
Qed.

Lemma Neon_Mem_DropPersistent_ends st st1 p :
  Neon_Mem_DropPersistent p st = Some (tt, st1) → persistents st1 !! p = None.
Proof.
  unfold Neon_Mem_DropPersistent, Persistent_destroy.
  intros H. inv_M. cbn. apply lookup_delete_eq.
Qed.

(** What a drop that returns has done. *)
Lemma Neon_Mem_DropPersistent_inv st st1 p :
  Neon_Mem_DropPersistent p st = Some (tt, st1) →
  ∃ v, persistents st !! p = Some v ∧
       (∀ g, v = Some g → is_Some (globals st !! g)) ∧
       st1 = mk_State (heap st) (handles st) (scopes st)
               (match v with Some g => delete g (globals st) | None => globals st end)
               (delete p (persistents st)) (metadata st) (pending_exception st)
               (kMaxLength st).
Proof.
  unfold Neon_Mem_DropPersistent, Persistent_destroy, Persistent_Reset, persistent_val,
    DisposeGlobal, set_persistent_val, bind, get_state, lift_option, modify, ret.
  destruct (persistents st !! p) as [[g|]|] eqn:Hp; [| |done].
  - destruct (globals st !! g) as [w|] eqn:Hg; [|done]. cbn. intros [= <-].
    exists (Some g). split; [done|]. split; [by intros ? [= <-]|].
    unfold set_persistents, set_globals. cbn. by rewrite delete_insert_eq.
  - intros [= <-]. exists None. split; [done|]. split; [done|]. done.
Qed.

(** A well-formed state drops any persistent it holds. *)
Lemma Neon_Mem_DropPersistent_total st p :
  persistents_wf st → is_Some (persistents st !! p) →
  ∃ st1, Neon_Mem_DropPersistent p st = Some (tt, st1).
Proof.
  intros [Hlive _] [v Hv].
  unfold Neon_Mem_DropPersistent, Persistent_destroy, Persistent_Reset, persistent_val,
    bind, get_state, lift_option, ret.
  rewrite Hv. destruct v as [g|]; [|eauto].
  destruct (Hlive p g Hv) as [a Ha].
  unfold DisposeGlobal, bind, get_state. rewrite Ha. cbn. eauto.
Qed.

(** C2. A second [Neon_Mem_DropPersistent] is not a no-op.  Once the
    first has returned, the lifetime of the persistent has ended: no
    persistent lives at [p] any more.  Running [Neon_Mem_DropPersistent] on
    [p] again, or reading [p], uses the destroyed object, which is
    undefined: a fatal outcome. *)
Theorem Neon_Mem_DropPersistent_twice (st st1 : State) (p : positive) :
  Neon_Mem_DropPersistent p st = Some (tt, st1) →
  persistents st1 !! p = None ∧
  Neon_Mem_DropPersistent p st1 = None ∧
  Neon_Mem_ReadPersistent p st1 = None.
Proof.
  intros H. apply Neon_Mem_DropPersistent_ends in H.
  split; [done|]. split.
  - unfold Neon_Mem_DropPersistent, Persistent_Reset, persistent_val, bind, get_state,
      lift_option. by rewrite H.
  - unfold Neon_Mem_ReadPersistent, Nan_New_persistent, persistent_val, bind, get_state,
      lift_option. by rewrite H.
Qed.

(** ** Escaping a handle *)

Ltac case_M :=
  match goal with
  | H : (match ?x with _ => _ end) _ = Some _ |- _ => destruct x eqn:?
  | H : (if ?x then _ else _) _ = Some _ |- _ => destruct x eqn:?
  end.

Ltac unfold_shim H :=
  unfold step, Neon_Scope_Enter, Neon_Scope_Enter_Escapable, Neon_Scope_Exit,
    Neon_Scope_Exit_Escapable, Neon_Scope_Escape, Neon_Object_New,
    Neon_Mem_NewPersistent, Neon_Mem_DropPersistent, Neon_Mem_ReadPersistent,
    Neon_Mem_ResetPersistent, HandleScope_open, EscapableHandleScope_open,
    HandleScope_close, EscapableHandleScope_Escape, Persistent_destroy,
    Persistent_Reset_to, Persistent_Reset, Nan_New_persistent, NewLocal,
    CreateHandle, heap_alloc, GlobalizeReference, DisposeGlobal, persistent_val,
    set_persistent_val, read_slot in H.

Ltac solve_M := repeat first [progress inv_M | case_M].

Lemma escaped_frame e a n st st' :
  escaped e a n st →
  handles st' !! e = handles st !! e →
  (∀ k d, n ≤ k → scopes st' !! k = Some d →
     scopes st !! k = Some d ∨ length (handles st) ≤ prev_next d) →
  escaped e a n st'.
Proof.
  intros [He Hs] Hh Hsc. split; [congruence|].
  intros k d Hk Hd. destruct (Hsc k d Hk Hd) as [Hold|Hnew]; [by eapply Hs|].
  apply lookup_lt_Some in He. lia.
Qed.

Lemma lookup_snoc_Some {A} (l : list A) (x d : A) k :
  (l ++ [x]) !! k = Some d → l !! k = Some d ∨ d = x.
Proof.
  intros H. apply lookup_app_Some in H as [H|[_ H]]; [by left|right].
  apply list_lookup_singleton_Some in H as [_ H]. done.
Qed.

Lemma escaped_step e a n o st st' :
  escaped e a n st → step o st = Some (tt, st') → n ≤ length (scopes st') →
  escaped e a n st'.
Proof.
  intros Hesc Hstep Hn. pose proof Hesc as [He Hs].
  pose proof (lookup_lt_Some _ _ _ He) as Hlt.
  destruct o; unfold_shim Hstep; solve_M; cbn in *;
    try (by apply (escaped_frame e a n _ _ Hesc); cbn; eauto using lookup_app_l).
  - apply (escaped_frame e a n _ _ Hesc); cbn; [done|].
    intros k d _ Hd. apply lookup_snoc_Some in Hd as [Hd| ->]; cbn; eauto.
  - apply (escaped_frame e a n _ _ Hesc); cbn; [by apply lookup_app_l|].
    intros k d _ Hd. apply lookup_snoc_Some in Hd as [Hd| ->]; cbn; eauto.
    right. rewrite length_app. lia.
  - rewrite length_take in Hn.
    assert (e < prev_next s) by (apply (Hs scope); [lia|done]).
    apply (escaped_frame e a n _ _ Hesc); cbn.
    + by apply lookup_take_lt.
    + intros k d _ Hd. left. apply lookup_take_Some in Hd as [Hd _]. done.
  - assert (n0 ≠ e) by congruence.
    apply (escaped_frame e a n _ _ Hesc); cbn; [|by eauto].
    by apply list_lookup_insert_ne.
  - assert (n0 ≠ e) by congruence.
    apply (escaped_frame e a n _ _ Hesc); cbn; [|by eauto].
    by apply list_lookup_insert_ne.
Qed.

Lemma escaped_run e a n ops : ∀ st st',
  escaped e a n st → keeps_open n ops st → run ops st = Some (tt, st') →
  escaped e a n st'.
Proof.
  induction ops as [|o ops IH]; intros st st' Hesc Hopen Hrun; cbn in *.
  - inv_M. done.
  - inv_M. destruct x. rewrite Hm in Hopen. destruct Hopen as [Hn Hopen].
    eapply IH; [|done|done]. by eapply escaped_step.
Qed.

Lemma scopes_nested_lookup ss : ∀ lo top k d,
  scopes_nested lo ss top → ss !! k = Some d →
  lo ≤ prev_next d ∧ prev_next d ≤ top ∧
  (∀ e, escape_slot d = Some e → e < prev_next d) ∧
  (∀ k' d', k ≤ k' → ss !! k' = Some d' → prev_next d ≤ prev_next d').
Proof.
  induction ss as [|d0 ss IH]; intros lo top k d Hn Hk; [done|].
  destruct Hn as (Hlo & Hesc & Hrest). destruct k as [|k]; simplify_eq/=.
  - assert (Hmono : ∀ k' d', ss !! k' = Some d' →
                      prev_next d ≤ prev_next d' ∧ prev_next d' ≤ top).
    { intros k' d' Hk'. destruct (IH _ _ _ _ Hrest Hk') as (? & ? & _). done. }
    split; [done|]. split; [|split].
    + destruct ss as [|d1 ss']; [done|].
      destruct (Hmono 0 d1 eq_refl). destruct Hrest as (? & _ & _).
      etrans; [|apply (proj2 (Hmono 0 d1 eq_refl))]. done.
    + intros e He. by apply Hesc.
    + intros [|k'] d' _ Hk'; simplify_eq/=; [done|]. by apply (Hmono k').
  - destruct (IH _ _ _ _ Hrest Hk) as (H1 & H2 & H3 & H4).
    split; [lia|]. split; [done|]. split; [done|].
    intros [|k'] d' Hle Hk'; [lia|]. cbn in Hk'. apply (H4 k'); [lia|done].
Qed.

(** The escape slot of a scope lies in the scope around it. *)
Lemma scopes_nested_parent ss : ∀ lo top k d e,
  scopes_nested lo ss top → ss !! S k = Some d → escape_slot d = Some e →
  ∃ parent, ss !! k = Some parent ∧ prev_next parent ≤ e.
Proof.
  induction ss as [|d0 ss IH]; intros lo top k d e Hn Hk He; [done|].
  destruct Hn as (Hlo & Hesc & Hrest). cbn in Hk.
  destruct k as [|k].
  - exists d0. split; [done|]. destruct ss as [|d1 ss']; simplify_eq/=.
    destruct Hrest as (_ & Hesc1 & _). by apply Hesc1.
  - destruct (IH _ _ _ _ _ Hrest Hk He) as (parent & ? & ?). by exists parent.
Qed.

(** C4. In a well-formed state, take an escapable scope that has not been
    used to escape a handle yet and a handle that refers to a value.
    [Neon_Scope_Escape] returns a handle whose slot belongs to the scope
    around the escapable one and which refers to the very same value; the
    heap is untouched; and whatever calls follow, as long as the scope
    around stays open (the escapable scope itself may be closed), the handle
    keeps referring to that value. *)
Theorem Neon_Scope_Escape_preserves
    (st : State) (sc : nat) (d : ScopeData) (e : nat) (v : Local) (a : positive) :
  scopes_wf st →
  scopes st !! sc = Some d → escape_slot d = Some e →
  handles st !! e = Some None →
  referent st v = Some a →
  ∃ st1,
    Neon_Scope_Escape sc v st = Some (Some e, st1) ∧
    referent st1 (Some e) = Some a ∧
    heap st1 = heap st ∧
    (∃ psc parent, sc = S psc ∧ scopes st1 !! psc = Some parent ∧
       prev_next parent ≤ e ∧ e < prev_next d) ∧
    ∀ ops st2, keeps_open sc ops st1 → run ops st1 = Some (tt, st2) →
      referent st2 (Some e) = Some a.
Proof.
  intros [Hn Hout] Hsc He Hhole Hv.
  destruct v as [i|]; [|done]. cbn in Hv.
  destruct (handles st !! i) as [[x|]|] eqn:Hi; simplify_eq.
  destruct d as [pn es]; cbn in He; subst es.
  destruct (scopes_nested_lookup _ _ _ _ _ Hn Hsc) as (_ & _ & Hlt & Hmono).
  specialize (Hlt e eq_refl). cbn in Hlt.
  exists (set_handles (<[e := Some a]>) st).
  assert (Hnew : handles (set_handles (<[e := Some a]>) st) !! e = Some (Some a)).
  { cbn. apply list_lookup_insert_eq. by eapply lookup_lt_Some. }
  split; [|split; [|split; [|split]]].
  - unfold Neon_Scope_Escape, EscapableHandleScope_Escape, read_slot, bind, get_state,
      lift_option, modify, ret. by rewrite Hsc, Hhole, Hi.
  - cbn. cbn in Hnew. by rewrite Hnew.
  - done.
  - destruct sc as [|psc].
    + destruct (scopes st) as [|d0 ss]; simplify_eq/=. by destruct Hout.
    + destruct (scopes_nested_parent _ _ _ _ _ _ Hn Hsc eq_refl) as (parent & ? & ?).
      exists psc, parent. done.
  - intros ops st2 Hopen Hrun.
    assert (Hesc : escaped e a sc (set_handles (<[e := Some a]>) st)).
    { split; [done|]. cbn. intros k d' Hk Hd'.
      specialize (Hmono k d' Hk Hd'). cbn in Hmono. lia. }
    destruct (escaped_run _ _ _ _ _ _ Hesc Hopen Hrun) as [H2 _].
    cbn. by rewrite H2.
Qed.

(** ** Storing into a persistent and reading it back *)

Lemma fresh_dom_ne {A} (m : gmap positive A) g x :
  m !! g = Some x → fresh (dom m) ≠ g.
Proof.
  intros Hg Heq. apply (is_fresh (dom m)). rewrite Heq. apply elem_of_dom. eauto.
Qed.

Lemma holds_drop p a q st st' :
  holds p a st → q ≠ p → Neon_Mem_DropPersistent q st = Some (tt, st') →
  holds p a st'.
Proof.
  intros (g & Hp & Hg & Hothers) Hq Hdrop.
  apply Neon_Mem_DropPersistent_inv in Hdrop as (v & Hv & _ & ->).
  exists g. cbn. split; [by rewrite lookup_delete_ne|]. split.
  - destruct v as [g'|]; [|done]. rewrite lookup_delete_ne; [done|].
    intros ->. by eapply Hothers.
  - intros q' Hq'. destruct (decide (q' = q)) as [->|Hne].
    + by rewrite lookup_delete_eq.
    + rewrite lookup_delete_ne by done. by apply Hothers.
Qed.

Lemma holds_step p a o st st' :
  holds p a st → writes_persistent p o = false → step o st = Some (tt, st') →
  holds p a st'.
Proof.
  intros (g & Hp & Hg & Hothers) Hw Hstep.
  destruct o; cbn in Hw; try case_bool_decide; try done;
    try (by eapply (holds_drop p a); [exists g|..]);
    unfold_shim Hstep; solve_M; cbn in *;
    try (by exists g; eauto).
  all: exists g.
  all: try match goal with
       | Hq : persistents _ !! ?q = Some (Some ?g') |- _ =>
           assert (g' ≠ g) by (intros ->; by eapply Hothers)
       end.
  all: cbn; rewrite ?lookup_insert_ne, ?lookup_delete_ne by done.
  all: try (split; [done|]).
  all: split;
    [ rewrite ?lookup_insert_ne, ?lookup_delete_ne; [done|..]; try done;
      eapply fresh_dom_ne; rewrite ?lookup_delete_ne; done
    | intros q Hq; rewrite !lookup_insert; repeat case_decide; try done;
      try (by apply Hothers) ].
  all: intros [=Heq]; revert Heq; eapply fresh_dom_ne; rewrite ?lookup_delete_ne; done.
Qed.

Lemma holds_run p a ops : ∀ st st',
  holds p a st → forallb (λ o, negb (writes_persistent p o)) ops = true →
  run ops st = Some (tt, st') → holds p a st'.
Proof.
  induction ops as [|o ops IH]; intros st st' Hh Hw Hrun; cbn in *.
  - inv_M. done.
  - inv_M. destruct x. apply andb_true_iff in Hw as [Hw1 Hw2].
    apply negb_true_iff in Hw1. eapply IH; [|done|done]. by eapply holds_step.
Qed.

Lemma Neon_Mem_ResetPersistent_holds st p i a :
  persistents_wf st → is_Some (persistents st !! p) →
  handles st !! i = Some (Some a) →
  ∃ st1, Neon_Mem_ResetPersistent p (Some i) st = Some (tt, st1) ∧
         holds p a st1 ∧ heap st1 = heap st ∧
         handles st1 = handles st ∧ scopes st1 = scopes st.
Proof.
  intros [Hlive Hinj] [v Hv] Hi.
  unfold Neon_Mem_ResetPersistent, Persistent_Reset_to, Persistent_Reset, persistent_val,
    DisposeGlobal, GlobalizeReference, set_persistent_val, read_slot, bind, get_state,
    lift_option, modify, ret.
  rewrite Hv. destruct v as [g0|].
  - destruct (Hlive p g0 Hv) as [x Hx]. rewrite Hx. cbn. rewrite Hi. cbn.
    eexists. split; [done|]. split; [|done].
    set (g := fresh (dom (delete g0 (globals st)))).
    exists g. cbn. split; [by rewrite lookup_insert_eq|].
    split; [by rewrite lookup_insert_eq|].
    intros q Hq. rewrite !lookup_insert_ne by done. intros Hqg.
    destruct (Hlive q g Hqg) as [y Hy].
    assert (g ≠ g0) by (intros Heq; rewrite Heq in Hqg; by specialize (Hinj _ _ _ Hqg Hv)).
    apply (fresh_dom_ne (delete g0 (globals st)) g y); [|done].
    by rewrite lookup_delete_ne.
  - cbn. rewrite Hi. cbn. eexists. split; [done|]. split; [|done].
    set (g := fresh (dom (globals st))).
    exists g. cbn. split; [by rewrite lookup_insert_eq|].
    split; [by rewrite lookup_insert_eq|].
    intros q Hq. rewrite lookup_insert_ne by done. intros Hqg.
    destruct (Hlive q g Hqg) as [y Hy]. by apply (fresh_dom_ne (globals st) g y).
Qed.

(** C3. In a well-formed state, storing a handle that refers to a value
    into a persistent with [Neon_Mem_ResetPersistent] succeeds and leaves the
    heap alone; after any further calls that do not write that persistent,
    and provided a scope is open, [Neon_Mem_ReadPersistent] returns a handle
    that refers to the very same value, without allocating a host object. *)
Theorem Neon_Mem_Reset_Read_roundtrip
    (st : State) (p : positive) (h : Local) (a : positive) :
  persistents_wf st → is_Some (persistents st !! p) →
  referent st h = Some a →
  ∃ st1,
    Neon_Mem_ResetPersistent p h st = Some (tt, st1) ∧
    heap st1 = heap st ∧
    ∀ ops st2,
      forallb (λ o, negb (writes_persistent p o)) ops = true →
      run ops st1 = Some (tt, st2) → scopes st2 ≠ [] →
      ∃ out st3,
        Neon_Mem_ReadPersistent p st2 = Some (out, st3) ∧
        referent st3 out = Some a ∧ heap st3 = heap st2.
Proof.
  intros Hwf Hp Hh. destruct h as [i|]; [|done]. cbn in Hh.
  destruct (handles st !! i) as [[x|]|] eqn:Hi; simplify_eq.
  destruct (Neon_Mem_ResetPersistent_holds st p i a Hwf Hp Hi)
    as (st1 & Hreset & Hholds & Hheap & _).
  exists st1. split; [done|]. split; [done|].
  intros ops st2 Hops Hrun Hscope.
  destruct (holds_run _ _ _ _ _ Hholds Hops Hrun) as (g & Hpg & Hg & _).
  exists (Some (length (handles st2))), (set_handles (λ hs, hs ++ [Some a]) st2).
  split; [|split; [|done]].
  - unfold Neon_Mem_ReadPersistent, Nan_New_persistent, persistent_val, CreateHandle,
      bind, get_state, lift_option, modify, ret.
    rewrite Hpg, Hg. by destruct (scopes st2).
  - cbn. by rewrite lookup_app_r, Nat.sub_diag by done.
Qed.

(** ** Well-formedness is an invariant *)

Lemma scopes_nested_top ss : ∀ lo top top',
  scopes_nested lo ss top → top ≤ top' → scopes_nested lo ss top'.
Proof.
  induction ss as [|d ss IH]; intros lo top top' Hn Hle; cbn in *; [lia|].
  destruct Hn as (? & ? & ?). eauto.
Qed.

Lemma innermost_cons lo d ss : innermost lo (d :: ss) = innermost (prev_next d) ss.
Proof. unfold innermost. rewrite last_cons. by destruct (last ss). Qed.

Lemma scopes_nested_snoc ss : ∀ lo top d,
  scopes_nested lo (ss ++ [d]) top ↔
  scopes_nested lo ss (prev_next d) ∧
  (∀ e, escape_slot d = Some e → innermost lo ss ≤ e ∧ e < prev_next d) ∧
  prev_next d ≤ top.
Proof.
  induction ss as [|d0 ss IH]; intros lo top d; cbn.
  - unfold innermost. cbn. tauto.
  - rewrite IH, innermost_cons. tauto.
Qed.

Lemma scopes_nested_innermost ss : ∀ lo top,
  scopes_nested lo ss top → innermost lo ss ≤ top.
Proof.
  induction ss as [|d ss IH] using rev_ind; intros lo top Hn.
  - done.
  - apply scopes_nested_snoc in Hn as (_ & _ & ?).
    unfold innermost. by rewrite last_snoc.
Qed.

Lemma scopes_wf_grow st v :
  scopes_wf st → scopes st ≠ [] → scopes_wf (set_handles (λ hs, hs ++ [v]) st).
Proof.
  intros [Hn Hout] Hne. split; cbn.
  - eapply scopes_nested_top; [done|]. rewrite length_app. lia.
  - by destruct (scopes st).
Qed.

Lemma scopes_wf_write st i v :
  scopes_wf st → scopes_wf (set_handles (<[i := v]>) st).
Proof.
  intros [Hn Hout]. split; cbn.
  - by rewrite length_insert.
  - destruct (scopes st); [|done]. by rewrite Hout.
Qed.

Lemma scopes_wf_heap st f : scopes_wf st → scopes_wf (set_heap f st).
Proof. done. Qed.

Lemma scopes_wf_step o st st' :
  scopes_wf st → step o st = Some (tt, st') → scopes_wf st'.
Proof.
  intros Hwf Hstep. pose proof Hwf as [Hn Hout].
  destruct o; unfold_shim Hstep; solve_M; cbn in *; try done;
    try (by apply scopes_wf_write);
    try (by apply scopes_wf_grow; [|cbn; congruence]).
  - split; cbn.
    + apply scopes_nested_snoc. cbn. split; [exact Hn|]. split; [intros ? [=]|lia].
    + destruct (scopes x2); cbn; [|done]. by rewrite Hout.
  - match goal with H : scopes _ = _ :: _ |- _ => rename H into Hne end.
    split; cbn.
    + apply scopes_nested_snoc. cbn. rewrite length_app. cbn.
      split; [eapply scopes_nested_top; [apply Hwf|lia]|]. split; [|lia].
      intros e [= <-]. split; [|lia]. apply scopes_nested_innermost, Hwf.
    + rewrite Hne in *. done.
  - match goal with H : bool_decide _ = true |- _ =>
      apply bool_decide_eq_true in H; rename H into Hlen end.
    match goal with H : scopes _ !! _ = Some _ |- _ => rename H into Hs end.
    assert (Hsplit : scopes x0 = take scope (scopes x0) ++ [s]).
    { rewrite <- (take_drop scope (scopes x0)) at 1. f_equal.
      apply list_eq. intros [|k]; rewrite lookup_drop; cbn.
      - by rewrite Nat.add_0_r.
      - apply lookup_ge_None. lia. }
    rewrite Hsplit in Hn. apply scopes_nested_snoc in Hn as (Hn & _ & Htop).
    split; cbn.
    + by rewrite length_take, Nat.min_l.
    + destruct scope as [|k]; cbn.
      * destruct (scopes x0) as [|d0 ss]; simplify_eq/=.
        destruct Hout as [-> _]. done.
      * destruct (scopes x0) as [|d0 ss]; simplify_eq/=. done.
Qed.

Lemma persistents_wf_clear st p :
  persistents_wf st → persistents_wf (set_persistents (<[p := None]>) st).
Proof.
  intros [Hlive Hinj]. split; cbn.
  - intros q g. rewrite lookup_insert. case_decide; [done|]. apply Hlive.
  - intros q1 q2 g. rewrite !lookup_insert. repeat case_decide; try done. apply Hinj.
Qed.

Lemma persistents_wf_dispose st p g :
  persistents_wf st → persistents st !! p = Some (Some g) →
  persistents_wf (set_persistents (<[p := None]>) (set_globals (delete g) st)).
Proof.
  intros [Hlive Hinj] Hp. split; cbn.
  - intros q g'. rewrite lookup_insert. case_decide; [done|]. intros Hq.
    rewrite lookup_delete_ne; [by eapply Hlive|].
    intros ->. by specialize (Hinj _ _ _ Hp Hq).
  - intros q1 q2 g'. rewrite !lookup_insert. repeat case_decide; try done. apply Hinj.
Qed.

Lemma persistents_wf_store st p v :
  persistents_wf st →
  persistents_wf (set_persistents (<[p := Some (fresh (dom (globals st)))]>)
                    (set_globals (<[fresh (dom (globals st)) := v]>) st)).
Proof.
  intros [Hlive Hinj]. split; cbn.
  - intros q g'. rewrite lookup_insert. case_decide.
    + intros [= <-]. rewrite lookup_insert_eq. eauto.
    + intros Hq. destruct (Hlive _ _ Hq) as [y Hy].
      rewrite lookup_insert_ne; [eauto|]. by eapply fresh_dom_ne.
  - intros q1 q2 g'. rewrite !lookup_insert. repeat case_decide; subst; try done.
    + intros [= <-] Hq. destruct (Hlive _ _ Hq) as [y Hy].
      by destruct (fresh_dom_ne _ _ _ Hy).
    + intros Hq [= <-]. destruct (Hlive _ _ Hq) as [y Hy].
      by destruct (fresh_dom_ne _ _ _ Hy).
    + apply Hinj.
Qed.

Lemma persistents_wf_drop st st' p :
  persistents_wf st → Neon_Mem_DropPersistent p st = Some (tt, st') →
  persistents_wf st'.
Proof.
  intros [Hlive Hinj] Hdrop.
  apply Neon_Mem_DropPersistent_inv in Hdrop as (v & Hv & _ & ->).
  split; cbn.
  - intros q g' Hq. apply lookup_delete_Some in Hq as [Hne Hq].
    destruct v as [g|]; [|by eapply Hlive].
    rewrite lookup_delete_ne; [by eapply Hlive|].
    intros ->. by specialize (Hinj _ _ _ Hv Hq).
  - intros q1 q2 g' H1 H2. apply lookup_delete_Some in H1 as [_ H1].
    apply lookup_delete_Some in H2 as [_ H2]. by eapply Hinj.
Qed.

Lemma persistents_wf_step o st st' :
  persistents_wf st → step o st = Some (tt, st') → persistents_wf st'.
Proof.
  intros Hwf Hstep.
  destruct o; try (by eapply persistents_wf_drop);
    unfold_shim Hstep; solve_M; cbn in *; try done.
  - by apply persistents_wf_clear.
  - match goal with H : persistents _ !! _ = Some (Some _) |- _ =>
      pose proof (persistents_wf_dispose _ _ _ Hwf H) as Hwf' end.
    apply (persistents_wf_store _ p x3) in Hwf'. exact Hwf'.
  - apply (persistents_wf_store _ p x3) in Hwf. exact Hwf.
  - by apply persistents_wf_dispose.
Qed.

Lemma initial_state_wf : wf initial_state.
Proof.
  split.
  - split; cbn; [|done]. split; [lia|]. split; [intros ? [=]|lia].
  - split; intros *; cbn; by rewrite lookup_empty.
Qed.

Lemma wf_step o st st' : wf st → step o st = Some (tt, st') → wf st'.
Proof.
  intros [Hs Hp] Hstep. split; [by eapply scopes_wf_step|by eapply persistents_wf_step].
Qed.

Lemma wf_run ops : ∀ st st', wf st → run ops st = Some (tt, st') → wf st'.
Proof.
  induction ops as [|o ops IH]; intros st st' Hwf Hrun; cbn in *; inv_M; [done|].
  destruct x. eapply IH; [|done]. by eapply wf_step.
Qed.

(** ** The theorems at concrete states *)

Lemma after_wf ops : wf (after ops).
Proof.
  unfold after. destruct (run ops initial_state) as [[[] st]|] eqn:Hrun.
  - eapply wf_run; [apply initial_state_wf|done].
  - apply initial_state_wf.
Qed.

Lemma Neon_Mem_DropPersistent_twice_witness :
  persistents dropped !! 7%positive = None ∧
  Neon_Mem_DropPersistent 7 dropped = None ∧
  Neon_Mem_ReadPersistent 7 dropped = None.
Proof.
  apply (Neon_Mem_DropPersistent_twice holding dropped 7).
  vm_compute. reflexivity.
Defined.

Lemma Neon_Mem_Reset_Read_roundtrip_witness :
  ∃ st1,
    Neon_Mem_ResetPersistent 7 (Some 0%nat) object_and_persistent = Some (tt, st1) ∧
    heap st1 = heap object_and_persistent ∧
    ∀ ops st2,
      forallb (λ o, negb (writes_persistent 7 o)) ops = true →
      run ops st1 = Some (tt, st2) → scopes st2 ≠ [] →
      ∃ out st3,
        Neon_Mem_ReadPersistent 7 st2 = Some (out, st3) ∧
        referent st3 out = Some 3%positive ∧ heap st3 = heap st2.
Proof.
  apply (Neon_Mem_Reset_Read_roundtrip object_and_persistent 7 (Some 0%nat) 3).
  - apply (after_wf [OpNewPersistent 7; OpObjectNew]).
  - vm_compute. eexists. reflexivity.
  - vm_compute. reflexivity.
Defined.

Lemma Neon_Scope_Escape_preserves_witness :
  ∃ st1,
    Neon_Scope_Escape 1 (Some 1%nat) in_escapable = Some (Some 0%nat, st1) ∧
    referent st1 (Some 0%nat) = Some 3%positive ∧
    heap st1 = heap in_escapable ∧
    (∃ psc parent, 1%nat = S psc ∧ scopes st1 !! psc = Some parent ∧
       prev_next parent ≤ 0 ∧ 0 < prev_next (mk_ScopeData 1 (Some 0%nat))) ∧
    ∀ ops st2, keeps_open 1 ops st1 → run ops st1 = Some (tt, st2) →
      referent st2 (Some 0%nat) = Some 3%positive.
Proof.
  apply (Neon_Scope_Escape_preserves in_escapable 1 (mk_ScopeData 1 (Some 0%nat))
           0 (Some 1%nat) 3).
  - apply (after_wf [OpScopeEnterEscapable; OpObjectNew]).
  - vm_compute. reflexivity.
  - reflexivity.
  - vm_compute. reflexivity.
  - vm_compute. reflexivity.
Defined.

(** The escaped handle outlives its scope: the escapable scope is closed,
    another scope is opened and closed around a new object, and the handle
    still refers to the first object. *)
Example escaped_handle_survives :
  ∃ st1 st2,
    Neon_Scope_Escape 1 (Some 1%nat) in_escapable = Some (Some 0%nat, st1) ∧
    run [OpScopeExit 1; OpScopeEnter; OpObjectNew; OpScopeExit 1] st1 = Some (tt, st2) ∧
    referent st2 (Some 0%nat) = Some 3%positive ∧
    referent st2 (Some 1%nat) = None.
Proof. eexists _, _. vm_compute. done. Qed.

(** A second escape from the same scope is fatal. *)
Example escape_twice_is_fatal :
  ∃ st1,
    Neon_Scope_Escape 1 (Some 1%nat) in_escapable = Some (Some 0%nat, st1) ∧
    Neon_Scope_Escape 1 (Some 1%nat) st1 = None.
Proof. eexists. vm_compute. done. Qed.

(** ** Strings *)

Lemma NewLocal_open st a :
  scopes st ≠ [] →
  NewLocal a st = Some (Some (length (handles st)), set_handles (λ hs, hs ++ [Some a]) st).
Proof.
  intros Hs. unfold NewLocal, CreateHandle, bind, get_state, modify, ret.
  by destruct (scopes st).
Qed.

Lemma String_NewFromUtf8_empty st data :
  scopes st ≠ [] →
  String_NewFromUtf8 data 0 st =
    Some (Some (length (handles st)), set_handles (λ hs, hs ++ [Some empty_string]) st).
Proof. intros Hs. unfold String_NewFromUtf8, bind, get_state. cbn. by apply NewLocal_open. Qed.

Lemma String_NewFromUtf8_too_long st data len :
  (kMaxLength st < len)%Z → len ≠ 0%Z →
  String_NewFromUtf8 data len st = Some (None, st).
Proof.
  intros Hlen H0. unfold String_NewFromUtf8, bind, get_state.
  rewrite (proj2 (Z.eqb_neq _ _) H0), (proj2 (Z.ltb_lt _ _) Hlen). done.
Qed.

Lemma String_NewFromUtf8_fits st data len :
  scopes st ≠ [] → (0 < len ≤ kMaxLength st)%Z → (len ≤ Z.of_nat (length data))%Z →
  String_NewFromUtf8 data len st =
    Some (Some (length (handles st)),
          set_handles (λ hs, hs ++ [Some (fresh (dom (heap st)))])
            (set_heap (<[fresh (dom (heap st)) := HString (take (Z.to_nat len) data)]>) st)).
Proof.
  intros Hs Hlen Hdata. unfold String_NewFromUtf8, bind, get_state.
  rewrite (proj2 (Z.eqb_neq len 0)) by lia.
  rewrite (proj2 (Z.ltb_ge _ _)) by lia.
  rewrite (proj2 (Z.ltb_ge len 0)) by lia.
  unfold ret. rewrite bool_decide_eq_true_2 by (split; lia).
  unfold heap_alloc, bind, get_state, modify, ret.
  rewrite NewLocal_open by done. done.
Qed.

(** [encodable] is what it takes for the host to make the string. *)
Lemma String_NewFromUtf8_encodable st data len :
  scopes st ≠ [] → (0 ≤ len ≤ Z.of_nat (length data))%Z →
  ∃ maybe st',
    String_NewFromUtf8 data len st = Some (maybe, st') ∧
    (is_Some maybe ↔ encodable st len = true).
Proof.
  intros Hs Hlen. unfold encodable.
  destruct (decide (len = 0%Z)) as [->|Hnz];
    [|destruct (decide (len ≤ kMaxLength st)%Z) as [Hfit|Hlong]].
  - eexists _, _. split; [by apply String_NewFromUtf8_empty|]. cbn. split; eauto.
  - eexists _, _. split; [apply String_NewFromUtf8_fits; [done|lia|lia]|].
    rewrite (proj2 (Z.leb_le _ _) Hfit), orb_true_r. split; eauto.
  - eexists _, _. split; [apply String_NewFromUtf8_too_long; [lia|done]|].
    rewrite (proj2 (Z.eqb_neq _ _) Hnz), (proj2 (Z.leb_gt _ _)) by lia. cbn.
    split; [by intros [? ?]|done].
Qed.

(** The C string made of bytes without NUL. *)
Lemma strlen_app_nul (msg : list Byte.byte) :
  Forall (λ b, b ≠ Byte.x00) msg → strlen (msg ++ [Byte.x00]) = Some (length msg).
Proof.
  induction 1 as [|b msg Hb _ IH]; [done|].
  cbn. rewrite IH. by destruct b.
Qed.

Lemma String_NewFromUtf8_cstr st msg :
  scopes st ≠ [] → Forall (λ b, b ≠ Byte.x00) msg →
  (Z.of_nat (length msg) ≤ kMaxLength st)%Z →
  String_NewFromUtf8 (msg ++ [Byte.x00]) (-1) st =
    Some (Some (length (handles st)),
          set_handles (λ hs, hs ++ [Some (fresh (dom (heap st)))])
            (set_heap (<[fresh (dom (heap st)) := HString msg]>) st)).
Proof.
  intros Hs Hmsg Hlen. unfold String_NewFromUtf8, bind, get_state.
  change (-1 =? 0)%Z with false. cbv iota.
  rewrite (proj2 (Z.ltb_ge (kMaxLength st) (-1))) by lia.
  change (-1 <? 0)%Z with true. cbv iota.
  unfold lift_option. rewrite strlen_app_nul by done.
  rewrite bool_decide_eq_true_2 by (rewrite length_app; cbn; split; lia).
  unfold heap_alloc, bind, get_state, modify, ret.
  rewrite NewLocal_open by done. by rewrite take_app_length.
Qed.

(** ** Throwing *)

Lemma bind_eq {A B} (m : M A) (k : A → M B) st a st1 :
  m st = Some (a, st1) → bind m k st = k a st1.
Proof. intros H. unfold bind. by rewrite H. Qed.

Lemma Exception_Error_spec st i m :
  scopes st ≠ [] → handles st !! i = Some (Some m) →
  Exception_Error (Some i) st =
    Some (Some (length (handles st)),
          set_handles (λ hs, hs ++ [Some (fresh (dom (heap st)))])
            (set_heap (<[fresh (dom (heap st)) := HError m]>) st)).
Proof.
  intros Hs Hi. unfold Exception_Error, deref, heap_alloc, bind, get_state, lift_option,
    modify, ret. cbn. rewrite Hi. by rewrite NewLocal_open.
Qed.

Lemma Isolate_ThrowException_spec st i a :
  handles st !! i = Some (Some a) →
  Isolate_ThrowException (Some i) st = Some (tt, set_pending (Some a) st).
Proof.
  intros Hi. unfold Isolate_ThrowException, deref, bind, get_state, lift_option, modify.
  cbn. by rewrite Hi.
Qed.

Lemma lookup_snoc_length {A} (l : list A) (x : A) : (l ++ [x]) !! length l = Some x.
Proof. by rewrite lookup_app_r, Nat.sub_diag. Qed.

(** Throwing the error made from a message handle. *)
Lemma throw_error_of_message st i m :
  scopes st ≠ [] → handles st !! i = Some (Some m) →
  ∃ st',
    (err <~ Exception_Error (Some i) ;; Nan_ThrowError err) st = Some (tt, st') ∧
    pending_exception st' = Some (fresh (dom (heap st))) ∧
    heap st' = <[fresh (dom (heap st)) := HError m]> (heap st) ∧
    handles st' = handles st ++ [Some (fresh (dom (heap st)))] ∧
    scopes st' = scopes st.
Proof.
  intros Hs Hi. eexists. split.
  - erewrite bind_eq by (by apply Exception_Error_spec).
    unfold Nan_ThrowError. apply Isolate_ThrowException_spec. cbn.
    apply lookup_snoc_length.
  - done.
Qed.

Lemma unknown_error_message_no_nul : Forall (λ b, b ≠ Byte.x00) unknown_error_message.
Proof. vm_compute. repeat constructor; discriminate. Qed.

Lemma HandleScope_close_innermost st ss d :
  scopes st = ss ++ [d] →
  HandleScope_close (length ss) st =
    Some (tt, set_scopes (take (length ss)) (set_handles (take (prev_next d)) st)).
Proof.
  intros Hs. unfold HandleScope_close, bind, get_state, modify. rewrite Hs.
  rewrite bool_decide_eq_true_2 by (rewrite length_app; cbn; lia).
  by rewrite lookup_snoc_length.
Qed.

Lemma Nan_ThrowError_msg_spec st msg :
  Forall (λ b, b ≠ Byte.x00) msg → (Z.of_nat (length msg) ≤ kMaxLength st)%Z →
  ∃ st' e m,
    Nan_ThrowError_msg msg st = Some (tt, st') ∧
    pending_exception st' = Some e ∧
    heap st' !! e = Some (HError m) ∧
    heap st' !! m = Some (HString msg) ∧
    handles st' = handles st ∧ scopes st' = scopes st ∧
    (∀ a, is_Some (heap st !! a) → heap st' !! a = heap st !! a).
Proof.
  intros Hmsg Hlen.
  set (st0 := set_scopes (λ ss, ss ++ [mk_ScopeData (length (handles st)) None]) st).
  assert (Hs0 : scopes st0 ≠ []) by (cbn; by destruct (scopes st)).
  set (m := fresh (dom (heap st0))).
  set (st1 := set_handles (λ hs, hs ++ [Some m]) (set_heap (<[m := HString msg]>) st0)).
  destruct (throw_error_of_message st1 (length (handles st0)) m)
    as (st2 & Hthrow & Hpend & Hheap & Hhandles & Hscopes).
  { done. }
  { cbn. apply lookup_snoc_length. }
  eexists _, (fresh (dom (heap st1))), m. split; [|split; [|split; [|split; [|split; [|split]]]]].
  - unfold Nan_ThrowError_msg, with_HandleScope.
    erewrite bind_eq by reflexivity. cbv beta.
    erewrite bind_eq; cycle 1.
    { erewrite bind_eq by (by apply (String_NewFromUtf8_cstr st0)).
      cbn [ToLocalChecked]. erewrite bind_eq by reflexivity.
      exact Hthrow. }
    erewrite bind_eq; [reflexivity|].
    apply (HandleScope_close_innermost st2 (scopes st)). by rewrite Hscopes.
  - cbn. done.
  - cbn. rewrite Hheap. apply lookup_insert_eq.
  - cbn. rewrite Hheap. rewrite lookup_insert_ne.
    + cbn. apply lookup_insert_eq.
    + apply fresh_dom_ne with (x := HString msg). cbn. apply lookup_insert_eq.
  - cbn. rewrite Hhandles. cbn. rewrite <- !app_assoc. by rewrite take_app_length.
  - cbn. rewrite Hscopes. cbn. by rewrite take_app_length.
  - intros a [o Ha]. cbn. rewrite Hheap. cbn.
    rewrite !lookup_insert_ne; [done|..].
    + apply fresh_dom_ne with (x := o). done.
    + apply fresh_dom_ne with (x := o). cbn. rewrite lookup_insert_ne; [done|].
      apply fresh_dom_ne with (x := o). done.
Qed.

(** C10. With a scope open, on a buffer of [len] bytes,
    [Neon_Error_ThrowErrorFromUtf8] always returns with an exception
    pending, and the exception is an Error object: its message is the string
    made of the [len] bytes when the host can make that string, and the
    string "an unknown Neon error occurred" when it cannot ([len] above the
    host's limit).  The host's limit is assumed to admit the 30 bytes of the
    generic message. *)
Theorem Neon_Error_ThrowErrorFromUtf8_throws
    (st : State) (data : list Byte.byte) (len : Z) :
  scopes st ≠ [] →
  heap st !! empty_string = Some (HString []) →
  (0 ≤ len ≤ Z.of_nat (length data))%Z →
  (30 ≤ kMaxLength st)%Z →
  ∃ st' e m,
    Neon_Error_ThrowErrorFromUtf8 data len st = Some (tt, st') ∧
    pending_exception st' = Some e ∧
    heap st' !! e = Some (HError m) ∧
    heap st' !! m =
      Some (HString (if (len <=? kMaxLength st)%Z
                     then take (Z.to_nat len) data
                     else unknown_error_message)).
Proof.
  intros Hs Hroot Hlen Hmax. unfold Neon_Error_ThrowErrorFromUtf8.
  destruct (decide (len = 0%Z)) as [->|Hnz];
    [|destruct (decide (len ≤ kMaxLength st)%Z) as [Hfit|Hlong]].
  - destruct (throw_error_of_message
                (set_handles (λ hs, hs ++ [Some empty_string]) st)
                (length (handles st)) empty_string)
      as (st' & Hthrow & Hpend & Hheap & _); [done|apply lookup_snoc_length|].
    exists st', (fresh (dom (heap st))), empty_string.
    split; [|split; [done|split]].
    + erewrite bind_eq by (by apply String_NewFromUtf8_empty). exact Hthrow.
    + rewrite Hheap. apply lookup_insert_eq.
    + rewrite Hheap. cbn. rewrite lookup_insert_ne by (by eapply fresh_dom_ne).
      rewrite Hroot. by rewrite (proj2 (Z.leb_le 0 (kMaxLength st))) by lia.
  - set (m := fresh (dom (heap st))).
    set (st1 := set_handles (λ hs, hs ++ [Some m])
                  (set_heap (<[m := HString (take (Z.to_nat len) data)]>) st)).
    destruct (throw_error_of_message st1 (length (handles st)) m)
      as (st' & Hthrow & Hpend & Hheap & _); [done|apply lookup_snoc_length|].
    exists st', (fresh (dom (heap st1))), m.
    split; [|split; [done|split]].
    + erewrite bind_eq by (apply String_NewFromUtf8_fits; [done|lia|lia]). exact Hthrow.
    + rewrite Hheap. apply lookup_insert_eq.
    + rewrite Hheap. rewrite (proj2 (Z.leb_le len (kMaxLength st))) by done.
      rewrite lookup_insert_ne.
      * cbn. apply lookup_insert_eq.
      * eapply fresh_dom_ne. cbn. apply lookup_insert_eq.
  - destruct (Nan_ThrowError_msg_spec st unknown_error_message)
      as (st' & e & m & Hthrow & Hpend & He & Hm & _).
    { apply unknown_error_message_no_nul. }
    { change (Z.of_nat (length unknown_error_message)) with 30%Z. done. }
    exists st', e, m. split; [|split; [done|split; [done|]]].
    + erewrite bind_eq by (apply String_NewFromUtf8_too_long; lia). exact Hthrow.
    + rewrite Hm. by rewrite (proj2 (Z.leb_gt len (kMaxLength st))) by lia.
Qed.

(** ** Adding a method to a class *)

Lemma prototype_ready st mp ft :
  class_of st mp ft → scopes st ≠ [] →
  ∃ st1 i p n cb d cn it,
    (t <~ ClassMetadata_GetTemplate mp ;; FunctionTemplate_PrototypeTemplate t) st
      = Some (Some i, st1) ∧
    handles st1 !! i = Some (Some p) ∧
    heap st1 !! ft = Some (HFunctionTemplate cb d cn (Some p) it) ∧
    heap st1 !! p = Some (HObjectTemplate (prototype_properties st ft) n) ∧
    p ≠ ft ∧
    scopes st1 = scopes st ∧ kMaxLength st1 = kMaxLength st ∧
    (∀ j x, handles st !! j = Some x → handles st1 !! j = Some x) ∧
    (∀ a o, heap st !! a = Some o → a ≠ ft → heap st1 !! a = Some o).
Proof.
  intros (md & g & cb & d & cn & pt & it & Hmd & Hp & Hg & Hft & Hpt) Hs.
  unfold ClassMetadata_GetTemplate, metadata_at, Nan_New_persistent, persistent_val,
    CreateHandle, FunctionTemplate_PrototypeTemplate, deref, heap_alloc.
  unfold bind, get_state, lift_option, modify, ret.
  rewrite Hmd, Hp, Hg. destruct (scopes st) as [|s0 ss] eqn:Hsc; [done|].
  cbn. rewrite lookup_snoc_length. cbn. rewrite Hft.
  unfold prototype_properties. rewrite Hft.
  destruct pt as [p|].
  - destruct Hpt as (props & n & Hprops). rewrite Hprops.
    unfold NewLocal, CreateHandle, bind, get_state, modify, ret. cbn. rewrite Hsc.
    eexists _, _, p, n, cb, d, cn, it. split; [done|]. cbn.
    split; [apply lookup_snoc_length|]. split; [done|]. split; [done|].
    split; [congruence|]. split; [done|]. split; [done|]. split; [|done].
    intros j x Hj. rewrite <- app_assoc. by apply lookup_app_l_Some.
  - unfold NewLocal, CreateHandle, bind, get_state, modify, ret. cbn. rewrite Hsc.
    eexists _, _, (fresh (dom (heap st))), 0, cb, d, cn, it. split; [done|]. cbn.
    assert (fresh (dom (heap st)) ≠ ft) by (by eapply fresh_dom_ne).
    split; [apply lookup_snoc_length|]. split; [apply lookup_insert_eq|].
    split; [rewrite lookup_insert_ne by done; apply lookup_insert_eq|].
    split; [done|]. split; [done|]. split; [done|]. split.
    + intros j x Hj. rewrite <- app_assoc. by apply lookup_app_l_Some.
    + intros a o Ha Hne. rewrite !lookup_insert_ne; [done|by eapply fresh_dom_ne|done].
Qed.

Lemma referent_Some st h a :
  referent st h = Some a ↔ ∃ i, h = Some i ∧ handles st !! i = Some (Some a).
Proof.
  unfold referent. split.
  - destruct h as [i|]; [|done].
    destruct (handles st !! i) as [[x|]|] eqn:Hi; intros [= <-]. by exists i.
  - intros (i & -> & ->). done.
Qed.

Lemma Template_Set_spec st t p props n kh k vh v :
  referent st t = Some p → referent st kh = Some k → referent st vh = Some v →
  heap st !! p = Some (HObjectTemplate props n) →
  Template_Set t kh vh st =
    Some (tt, set_heap (<[p := HObjectTemplate (props ++ [(k, v)]) n]>) st).
Proof.
  intros Ht Hk Hv Hp. unfold Template_Set, deref, bind, get_state, lift_option, modify.
  by rewrite Ht, Hk, Hv, Hp.
Qed.

Lemma add_method_scoped st i p props n name len method mt :
  scopes st ≠ [] → handles st !! i = Some (Some p) →
  heap st !! p = Some (HObjectTemplate props n) →
  referent st method = Some mt →
  heap st !! empty_string = Some (HString []) →
  (0 ≤ len ≤ Z.of_nat (length name))%Z →
  ∃ st2,
    with_HandleScope (
      maybe_key <~ String_NewFromUtf8 name len ;;
      match maybe_key with
      | None => ret (Return false)
      | Some key => Template_Set (Some i) (Some key) method ;;; ret (Return true)
      end) st = Some (Return (encodable st len), st2) ∧
    scopes st2 = scopes st ∧
    if encodable st len then
      ∃ key, heap st2 !! p = Some (HObjectTemplate (props ++ [(key, mt)]) n) ∧
             heap st2 !! key = Some (HString (take (Z.to_nat len) name)) ∧
             ∀ a o, a ≠ p → heap st !! a = Some o → heap st2 !! a = Some o
    else heap st2 = heap st.
Proof.
  intros Hs Hi Hp Hm Hroot Hlen.
  apply referent_Some in Hm as (j & -> & Hj).
  set (st0 := set_scopes (λ ss, ss ++ [mk_ScopeData (length (handles st)) None]) st).
  assert (Hs0 : scopes st0 ≠ []) by (cbn; by destruct (scopes st)).
  assert (Hopen : HandleScope_open st = Some (length (scopes st), st0)) by done.
  assert (Hpe : p ≠ empty_string) by congruence.
  unfold with_HandleScope. erewrite bind_eq by exact Hopen. cbv beta.
  unfold encodable.
  destruct (decide (len = 0%Z)) as [->|Hnz];
    [|destruct (decide (len ≤ kMaxLength st)%Z) as [Hfit|Hlong]].
  - (* the empty name *)
    cbn [Z.eqb orb].
    set (st1 := set_handles (λ hs, hs ++ [Some empty_string]) st0).
    set (st2 := set_heap (<[p := HObjectTemplate (props ++ [(empty_string, mt)]) n]>) st1).
    exists (set_scopes (take (length (scopes st)))
              (set_handles (take (length (handles st))) st2)).
    split; [|split].
    + erewrite bind_eq; cycle 1.
      { erewrite bind_eq by (by apply String_NewFromUtf8_empty). cbv beta iota.
        erewrite bind_eq; [reflexivity|].
        apply Template_Set_spec with (p := p) (props := props) (n := n).
        - cbn. by rewrite (lookup_app_l_Some _ _ _ _ Hi).
        - cbn. by rewrite lookup_snoc_length.
        - cbn. by rewrite (lookup_app_l_Some _ _ _ _ Hj).
        - done. }
      erewrite bind_eq; [reflexivity|].
      by apply (HandleScope_close_innermost _ (scopes st)
                  (mk_ScopeData (length (handles st)) None)).
    + cbn. by rewrite take_app_length.
    + exists empty_string. cbn. split; [apply lookup_insert_eq|].
      split; [by rewrite lookup_insert_ne|].
      intros a o Ha Hao. by rewrite lookup_insert_ne.
  - (* a name the host takes *)
    rewrite (proj2 (Z.leb_le len (kMaxLength st))) by done. rewrite orb_true_r.
    set (key := fresh (dom (heap st))).
    set (st1 := set_handles (λ hs, hs ++ [Some key])
                  (set_heap (<[key := HString (take (Z.to_nat len) name)]>) st0)).
    set (st2 := set_heap (<[p := HObjectTemplate (props ++ [(key, mt)]) n]>) st1).
    assert (Hkp : key ≠ p) by (by eapply fresh_dom_ne).
    exists (set_scopes (take (length (scopes st)))
              (set_handles (take (length (handles st))) st2)).
    split; [|split].
    + erewrite bind_eq; cycle 1.
      { erewrite bind_eq by (apply (String_NewFromUtf8_fits st0); [done|cbn; lia|lia]).
        cbv beta iota. erewrite bind_eq; [reflexivity|].
        apply Template_Set_spec with (p := p) (props := props) (n := n).
        - cbn. by rewrite (lookup_app_l_Some _ _ _ _ Hi).
        - cbn. by rewrite lookup_snoc_length.
        - cbn. by rewrite (lookup_app_l_Some _ _ _ _ Hj).
        - cbn. by rewrite lookup_insert_ne. }
      erewrite bind_eq; [reflexivity|].
      by apply (HandleScope_close_innermost _ (scopes st)
                  (mk_ScopeData (length (handles st)) None)).
    + cbn. by rewrite take_app_length.
    + exists key. cbn. split; [apply lookup_insert_eq|].
      split; [rewrite lookup_insert_ne by done; apply lookup_insert_eq|].
      intros a o Ha Hao. rewrite !lookup_insert_ne; [done|by eapply fresh_dom_ne|done].
  - (* a name above the host's limit *)
    rewrite (proj2 (Z.eqb_neq len 0)) by done.
    rewrite (proj2 (Z.leb_gt len (kMaxLength st))) by lia. cbn [orb].
    exists (set_scopes (take (length (scopes st)))
              (set_handles (take (length (handles st))) st0)).
    split; [|split].
    + erewrite bind_eq; cycle 1.
      { erewrite bind_eq by (apply (String_NewFromUtf8_too_long st0); [cbn; lia|done]).
        reflexivity. }
      erewrite bind_eq; [reflexivity|].
      by apply (HandleScope_close_innermost _ (scopes st)
                  (mk_ScopeData (length (handles st)) None)).
    + cbn. by rewrite take_app_length.
    + done.
Qed.

Lemma int_of_uint32_small n : (n < 2 ^ 31)%Z → int_of_uint32 n = n.
Proof. intros H. unfold int_of_uint32. by rewrite (proj2 (Z.ltb_lt _ _) H). Qed.

(** Names of fewer than 2^31 bytes.  On a registered class, with a scope
    open and a method handle that refers to a template,
    [Neon_Class_AddMethod] returns [true] exactly when the host can make a
    string of the name, and then the prototype template of the class has one
    more property, from a string holding the name to the method; it returns
    [false] otherwise, and then the properties of the prototype template are
    what they were. *)
Theorem Neon_Class_AddMethod_encodes
    (st : State) (mp ft : positive) (name : list Byte.byte) (byte_length : Z)
    (method : Local) (mt : positive) :
  class_of st mp ft → scopes st ≠ [] →
  heap st !! empty_string = Some (HString []) →
  referent st method = Some mt →
  (0 ≤ byte_length ≤ Z.of_nat (length name))%Z → (byte_length < 2 ^ 31)%Z →
  ∃ st',
    Neon_Class_AddMethod mp name byte_length method st
      = Some (Return (encodable st byte_length), st') ∧
    if encodable st byte_length then
      ∃ key,
        prototype_properties st' ft = prototype_properties st ft ++ [(key, mt)] ∧
        heap st' !! key = Some (HString (take (Z.to_nat byte_length) name))
    else prototype_properties st' ft = prototype_properties st ft.
Proof.
  intros Hclass Hs Hroot Hm Hlen Hint.
  assert (Hne : empty_string ≠ ft).
  { destruct Hclass as (? & ? & ? & ? & ? & ? & ? & _ & _ & _ & Hft & _). congruence. }
  destruct (prototype_ready st mp ft Hclass Hs)
    as (st1 & i & p & n & cb & d & cn & it & Hrun & Hi & Hft & Hp & Hpft & Hsc & Hk
        & Hhandles & Hheap).
  apply referent_Some in Hm as (j & -> & Hj).
  destruct (add_method_scoped st1 i p (prototype_properties st ft) n name byte_length
              (Some j) mt) as (st2 & Hadd & _ & Hres).
  { by rewrite Hsc. }
  { done. }
  { done. }
  { apply referent_Some. exists j. split; [done|]. by apply Hhandles. }
  { by apply Hheap. }
  { done. }
  assert (Henc : encodable st1 byte_length = encodable st byte_length)
    by (unfold encodable; by rewrite Hk).
  rewrite Henc in *.
  exists st2. split.
  - unfold Neon_Class_AddMethod. rewrite int_of_uint32_small by done.
    unfold bind in Hrun |- *.
    destruct (ClassMetadata_GetTemplate mp st) as [[t st0]|]; [|done].
    rewrite Hrun. exact Hadd.
  - destruct (encodable st byte_length).
    + destruct Hres as (key & Hp2 & Hkey & Hrest). exists key. split; [|done].
      unfold prototype_properties at 1. rewrite (Hrest ft _ (not_eq_sym Hpft) Hft).
      by rewrite Hp2.
    + unfold prototype_properties at 1. rewrite Hres, Hft, Hp. done.
Qed.

Lemma strlen_lt (data : list Byte.byte) : ∀ n, strlen data = Some n → n < length data.
Proof.
  induction data as [|b data IH]; intros n; cbn; [done|].
  destruct (strlen data) as [m|];
    destruct b; cbn; intros [= <-]; try lia; specialize (IH m eq_refl); lia.
Qed.

Lemma String_NewFromUtf8_strlen st data len n :
  scopes st ≠ [] → (len < 0)%Z → strlen data = Some n →
  (Z.of_nat n ≤ kMaxLength st)%Z →
  String_NewFromUtf8 data len st =
    Some (Some (length (handles st)),
          set_handles (λ hs, hs ++ [Some (fresh (dom (heap st)))])
            (set_heap (<[fresh (dom (heap st)) := HString (take n data)]>) st)).
Proof.
  intros Hs Hneg Hn Hfit. unfold String_NewFromUtf8, bind, get_state.
  rewrite (proj2 (Z.eqb_neq len 0)) by lia.
  rewrite (proj2 (Z.ltb_ge (kMaxLength st) len)) by lia.
  rewrite (proj2 (Z.ltb_lt len 0)) by lia.
  unfold lift_option. rewrite Hn.
  rewrite bool_decide_eq_true_2 by (split; [apply strlen_lt in Hn; lia|done]).
  unfold heap_alloc, bind, get_state, modify, ret.
  by rewrite NewLocal_open.
Qed.

Lemma add_method_scoped_strlen st i p props k name len n method mt :
  scopes st ≠ [] → handles st !! i = Some (Some p) →
  heap st !! p = Some (HObjectTemplate props k) →
  referent st method = Some mt →
  (len < 0)%Z → strlen name = Some n → (Z.of_nat n ≤ kMaxLength st)%Z →
  ∃ st2 key,
    with_HandleScope (
      maybe_key <~ String_NewFromUtf8 name len ;;
      match maybe_key with
      | None => ret (Return false)
      | Some key => Template_Set (Some i) (Some key) method ;;; ret (Return true)
      end) st = Some (Return true, st2) ∧
    heap st2 !! p = Some (HObjectTemplate (props ++ [(key, mt)]) k) ∧
    heap st2 !! key = Some (HString (take n name)) ∧
    ∀ a o, a ≠ p → heap st !! a = Some o → heap st2 !! a = Some o.
Proof.
  intros Hs Hi Hp Hm Hneg Hn Hfit.
  apply referent_Some in Hm as (j & -> & Hj).
  set (st0 := set_scopes (λ ss, ss ++ [mk_ScopeData (length (handles st)) None]) st).
  assert (Hs0 : scopes st0 ≠ []) by (cbn; by destruct (scopes st)).
  assert (Hopen : HandleScope_open st = Some (length (scopes st), st0)) by done.
  unfold with_HandleScope. erewrite bind_eq by exact Hopen. cbv beta.
  set (key := fresh (dom (heap st))).
  set (st1 := set_handles (λ hs, hs ++ [Some key])
                (set_heap (<[key := HString (take n name)]>) st0)).
  set (st2 := set_heap (<[p := HObjectTemplate (props ++ [(key, mt)]) k]>) st1).
  assert (Hkp : key ≠ p) by (by eapply fresh_dom_ne).
  exists (set_scopes (take (length (scopes st)))
            (set_handles (take (length (handles st))) st2)), key.
  split; [|split; [|split]].
  - erewrite bind_eq; cycle 1.
    { erewrite bind_eq by (by apply (String_NewFromUtf8_strlen st0)).
      cbv beta iota. erewrite bind_eq; [reflexivity|].
      apply Template_Set_spec with (p := p) (props := props) (n := k).
      - cbn. by rewrite (lookup_app_l_Some _ _ _ _ Hi).
      - cbn. by rewrite lookup_snoc_length.
      - cbn. by rewrite (lookup_app_l_Some _ _ _ _ Hj).
      - cbn. by rewrite lookup_insert_ne. }
    erewrite bind_eq; [reflexivity|].
    by apply (HandleScope_close_innermost _ (scopes st)
                (mk_ScopeData (length (handles st)) None)).
  - cbn. apply lookup_insert_eq.
  - cbn. rewrite lookup_insert_ne by done. apply lookup_insert_eq.
  - intros a o Ha Hao. cbn. rewrite !lookup_insert_ne; [done|by eapply fresh_dom_ne|done].
Qed.

Lemma int_of_uint32_large n : (2 ^ 31 ≤ n)%Z → int_of_uint32 n = (n - 2 ^ 32)%Z.
Proof. intros H. unfold int_of_uint32. by rewrite (proj2 (Z.ltb_ge _ _) H). Qed.

(** C6. [Neon_Class_AddMethod] does not return [true] exactly when the name
    can be made into a string of the host.  A [byte_length] from 2^31 up
    reaches the host as a negative [int], which the host takes to mean a
    name that ends at its first NUL byte.  On a registered class, with a
    scope open, a method handle that refers to a template and a host whose
    strings hold fewer than 2^31 bytes, no string of [byte_length] bytes can
    be made; yet for a buffer whose first NUL byte is at [n], within the
    limit of the host, [Neon_Class_AddMethod] returns [true] and the
    prototype template of the class has one more property, from a string
    holding the first [n] bytes only to the method. *)
Theorem Neon_Class_AddMethod_narrows
    (st : State) (mp ft : positive) (name : list Byte.byte) (byte_length : Z)
    (method : Local) (mt : positive) (n : nat) :
  class_of st mp ft → scopes st ≠ [] →
  referent st method = Some mt →
  (2 ^ 31 ≤ byte_length < 2 ^ 32)%Z →
  strlen name = Some n →
  (Z.of_nat n ≤ kMaxLength st)%Z → (kMaxLength st < 2 ^ 31)%Z →
  encodable st byte_length = false ∧
  ∃ st' key,
    Neon_Class_AddMethod mp name byte_length method st = Some (Return true, st') ∧
    prototype_properties st' ft = prototype_properties st ft ++ [(key, mt)] ∧
    heap st' !! key = Some (HString (take n name)).
Proof.
  intros Hclass Hs Hm Hlen Hn Hfit Hmax. split.
  { unfold encodable. apply orb_false_iff. split; [apply Z.eqb_neq|apply Z.leb_gt]; lia. }
  destruct (prototype_ready st mp ft Hclass Hs)
    as (st1 & i & p & k & cb & d & cn & it & Hrun & Hi & Hft & Hp & Hpft & Hsc & Hk
        & Hhandles & Hheap).
  apply referent_Some in Hm as (j & -> & Hj).
  destruct (add_method_scoped_strlen st1 i p (prototype_properties st ft) k name
              (byte_length - 2 ^ 32) n (Some j) mt) as (st2 & key & Hadd & Hp2 & Hkey & Hrest).
  { by rewrite Hsc. }
  { done. }
  { done. }
  { apply referent_Some. exists j. split; [done|]. by apply Hhandles. }
  { lia. }
  { done. }
  { by rewrite Hk. }
  exists st2, key. split; [|split; [|done]].
  - unfold Neon_Class_AddMethod. rewrite int_of_uint32_large by lia.
    unfold bind in Hrun |- *.
    destruct (ClassMetadata_GetTemplate mp st) as [[t st0]|]; [|done].
    rewrite Hrun. exact Hadd.
  - unfold prototype_properties at 1. rewrite (Hrest ft _ (not_eq_sym Hpft) Hft).
    by rewrite Hp2.
Qed.

(** ** Class creation and the dispatch of the constructor template *)

Lemma lookup_snoc_length' {A} (l : list A) (x : A) n :
  n = length l → (l ++ [x]) !! n = Some x.
Proof. intros ->. apply lookup_snoc_length. Qed.

Lemma Neon_Class_CreateBase_spec st allocate construct call drop :
  scopes st ≠ [] →
  ∃ st1 mp ft data,
    Neon_Class_CreateBase allocate construct call drop st = Some (mp, st1) ∧
    metadata st1 !! mp =
      Some (mk_BaseClassMetadata
              (static_callback construct) (dynamic_callback construct)
              (static_callback call) (dynamic_callback call)
              (static_callback allocate) (dynamic_callback allocate)
              drop (fresh (dom (persistents st))) ([], 0%Z)) ∧
    constructor_template st1 ft data mp ∧
    class_of st1 mp ft.
Proof.
  intros Hs. destruct (scopes st) as [|s0 ss] eqn:Hsc; [done|].
  unfold Neon_Class_CreateBase, new_BaseClassMetadata, External_New, FunctionTemplate_New,
    ClassMetadata_SetTemplate, metadata_at, FunctionTemplate_InstanceTemplate,
    ObjectTemplate_SetInternalFieldCount, Persistent_Reset_to, Persistent_Reset,
    persistent_val, set_persistent_val, GlobalizeReference, DisposeGlobal, deref,
    heap_alloc, NewLocal, CreateHandle, read_slot.
  unfold bind, get_state, lift_option, modify, ret. cbn.
  repeat first
    [ rewrite lookup_snoc_length
    | rewrite lookup_insert_eq
    | rewrite Hsc
    | rewrite lookup_app_r by (rewrite ?length_app; cbn; lia)
    | rewrite lookup_insert_ne
        by (let Heq := fresh in
            intros Heq; symmetry in Heq; revert Heq;
            eapply fresh_dom_ne, lookup_insert_eq)
    | progress cbn ].
  set (data := fresh (dom (heap st))).
  set (mp := fresh (dom (metadata st))).
  set (h1 := <[data := HExternal mp]> (heap st)).
  set (ft := fresh (dom h1)).
  set (h2 := <[ft := HFunctionTemplate ConstructBaseCallback data None None None]> h1).
  set (it := fresh (dom h2)).
  assert (Hfd : ft ≠ data) by (eapply fresh_dom_ne, lookup_insert_eq).
  assert (Hif : it ≠ ft) by (eapply fresh_dom_ne, lookup_insert_eq).
  assert (Hid : it ≠ data).
  { eapply fresh_dom_ne. unfold h2. rewrite lookup_insert_ne by done.
    apply lookup_insert_eq. }
  eexists _, mp, ft, data. split; [reflexivity|]. cbn.
  split; [apply lookup_insert_eq|]. split; [split|].
  - exists None, None, (Some it). cbn.
    rewrite lookup_insert_ne by done. apply lookup_insert_eq.
  - cbn. rewrite !lookup_insert_ne by done. apply lookup_insert_eq.
  - eexists _, (fresh (dom (globals st))), ConstructBaseCallback, data, None, None, (Some it).
    cbn. split; [apply lookup_insert_eq|]. cbn.
    split; [apply lookup_insert_eq|]. split; [apply lookup_insert_eq|].
    split; [|done]. rewrite lookup_insert_ne by done. apply lookup_insert_eq.
Qed.

(** C1. A class created by [Neon_Class_CreateBase] has its metadata filled
    with the callbacks it was registered with, and a constructor template
    whose callback is [Neon_Class_ConstructBaseCallback] on that metadata.
    Whenever the host calls that template, the dispatcher runs, inside a
    scope of its own, the [construct] entry of that metadata if the host
    reports a construct call and its [call] entry if not, and nothing
    else. *)
Theorem Neon_Class_ConstructBaseCallback_dispatch `{NativeCode}
    (st : State) (allocate construct call : callback_t) (drop : positive) :
  scopes st ≠ [] →
  ∃ st1 mp md ft data,
    Neon_Class_CreateBase allocate construct call drop st = Some (mp, st1) ∧
    metadata st1 !! mp = Some md ∧
    construct_callback_ md = static_callback construct ∧
    construct_kernel_ md = dynamic_callback construct ∧
    call_callback_ md = static_callback call ∧
    call_kernel_ md = dynamic_callback call ∧
    allocate_callback_ md = static_callback allocate ∧
    allocate_kernel_ md = dynamic_callback allocate ∧
    drop_instance_ md = drop ∧
    class_of st1 mp ft ∧
    constructor_template st1 ft data mp ∧
    ∀ st2 is_construct_call this args,
      constructor_template st2 ft data mp →
      host_invoke ft is_construct_call this args st2 =
        with_HandleScope
          (if is_construct_call
           then BaseClassMetadata_construct mp
                  (mk_FunctionCallbackInfo data true this args)
           else BaseClassMetadata_call mp
                  (mk_FunctionCallbackInfo data false this args)) st2.
Proof.
  intros Hs.
  destruct (Neon_Class_CreateBase_spec st allocate construct call drop Hs)
    as (st1 & mp & ft & data & Hrun & Hmd & Htmpl & Hclass).
  eexists st1, mp, _, ft, data. split; [done|]. split; [exact Hmd|]. cbn.
  do 7 (split; [done|]). split; [done|]. split; [done|].
  intros st2 b this args [(cn & pt & it & Hft) Hdata].
  unfold host_invoke, bind, get_state. rewrite Hft.
  unfold Neon_Class_ConstructBaseCallback, with_HandleScope, External_Value.
  unfold bind, get_state, HandleScope_open, modify, ret. cbn.
  rewrite Hdata. by destruct b.
Qed.

(** ** Results declared boolean *)

Lemma persistents_wf_ext st st' :
  persistents st' = persistents st → globals st' = globals st →
  persistents_wf st → persistents_wf st'.
Proof. unfold persistents_wf. by intros -> ->. Qed.

Lemma holds_ext p a st st' :
  persistents st' = persistents st → globals st' = globals st →
  holds p a st → holds p a st'.
Proof. unfold holds. by intros -> ->. Qed.

(** C5, on [Neon_Object_GetOwnPropertyNames].  When the host succeeds in
    listing the keys of the object (here an ordinary object), the function
    stores the array of keys in [out] and then runs off the end of its body:
    it hands back no value at all, where a [true] is due. *)
Theorem Neon_Object_GetOwnPropertyNames_no_return
    (st : State) (out obj g a : positive) (props : list (positive * positive)) :
  persistents_wf st →
  is_Some (persistents st !! out) →
  persistents st !! obj = Some (Some g) →
  globals st !! g = Some (Some a) →
  heap st !! a = Some (HPlainObject props) →
  ∃ st' arr,
    Neon_Object_GetOwnPropertyNames out obj st = Some (NoReturn, st') ∧
    holds out arr st' ∧
    heap st' !! arr = Some (HArray (props.*1)).
Proof.
  intros Hwf Hout Hobj Hg Ha.
  set (st0 := set_scopes (λ ss, ss ++ [mk_ScopeData (length (handles st)) None]) st).
  set (st1 := set_handles (λ hs, hs ++ [Some a]) st0).
  set (arr := fresh (dom (heap st))).
  set (st2 := set_handles (λ hs, hs ++ [Some arr])
                (set_heap (<[arr := HArray (props.*1)]>) st1)).
  destruct (Neon_Mem_ResetPersistent_holds st2 out (S (length (handles st))) arr)
    as (st3 & Hreset & Hholds & Hheap & Hhandles & Hscopes).
  { by apply (persistents_wf_ext st). }
  { done. }
  { cbn. apply lookup_snoc_length'. rewrite length_app. cbn. lia. }
  exists (set_scopes (take (length (scopes st)))
            (set_handles (take (length (handles st))) st3)), arr.
  split; [|split].
  - unfold Neon_Object_GetOwnPropertyNames, with_HandleScope.
    erewrite bind_eq by reflexivity. cbv beta.
    erewrite bind_eq; cycle 1.
    { erewrite bind_eq; cycle 1.
      { unfold Nan_New_persistent, persistent_val, CreateHandle.
        unfold bind, get_state, lift_option, modify, ret. cbn.
        rewrite Hobj. cbn. rewrite Hg. cbn. destruct (scopes st); reflexivity. }
      cbv beta. erewrite bind_eq; cycle 1.
      { unfold Nan_GetOwnPropertyNames, deref, heap_alloc.
        unfold bind, get_state, lift_option, modify, ret. cbn.
        rewrite lookup_snoc_length. cbn. rewrite Ha. cbn.
        apply NewLocal_open. cbn. by destruct (scopes st). }
      cbv beta iota. erewrite bind_eq; [reflexivity|].
      cbn. replace (length (handles st ++ [Some a])) with (S (length (handles st)))
        by (rewrite length_app; cbn; lia).
      exact Hreset. }
    erewrite bind_eq; [reflexivity|].
    apply (HandleScope_close_innermost st3 (scopes st)
             (mk_ScopeData (length (handles st)) None)).
    by rewrite Hscopes.
  - by apply (holds_ext out arr st3).
  - cbn. rewrite Hheap. cbn. apply lookup_insert_eq.
Qed.

(** The failing path of the same function does hand back [false]. *)
Lemma Neon_Object_GetOwnPropertyNames_thrown st out obj g a thrown :
  persistents st !! obj = Some (Some g) →
  globals st !! g = Some (Some a) →
  heap st !! a = Some (HProxy (inr thrown)) →
  ∃ st', Neon_Object_GetOwnPropertyNames out obj st = Some (Return false, st') ∧
         pending_exception st' = Some thrown.
Proof.
  intros Hobj Hg Ha. eexists. split.
  - unfold Neon_Object_GetOwnPropertyNames, with_HandleScope.
    erewrite bind_eq by reflexivity. cbv beta.
    erewrite bind_eq; cycle 1.
    { erewrite bind_eq; cycle 1.
      { unfold Nan_New_persistent, persistent_val, CreateHandle.
        unfold bind, get_state, lift_option, modify, ret. cbn.
        rewrite Hobj. cbn. rewrite Hg. cbn. destruct (scopes st); reflexivity. }
      cbv beta. erewrite bind_eq; cycle 1.
      { unfold Nan_GetOwnPropertyNames, deref.
        unfold bind, get_state, lift_option, modify, ret. cbn.
        rewrite lookup_snoc_length. cbn. rewrite Ha. reflexivity. }
      reflexivity. }
    erewrite bind_eq; [reflexivity|].
    apply (HandleScope_close_innermost _ (scopes st)
             (mk_ScopeData (length (handles st)) None)). done.
  - done.
Qed.

(** [Neon_String_New] hands back a boolean on both paths. *)
Lemma Neon_String_New_returns st out data len :
  persistents_wf st → is_Some (persistents st !! out) →
  (0 ≤ len ≤ Z.of_nat (length data))%Z →
  ∃ st', Neon_String_New out data len st = Some (Return (encodable st len), st').
Proof.
  intros Hwf Hout Hlen.
  set (st0 := set_scopes (λ ss, ss ++ [mk_ScopeData (length (handles st)) None]) st).
  assert (Hs0 : scopes st0 ≠ []) by (cbn; by destruct (scopes st)).
  unfold Neon_String_New, with_HandleScope, encodable.
  erewrite bind_eq by reflexivity. cbv beta. fold st0.
  destruct (decide (len = 0%Z)) as [->|Hnz];
    [|destruct (decide (len ≤ kMaxLength st)%Z) as [Hfit|Hlong]].
  - destruct (Neon_Mem_ResetPersistent_holds
                (set_handles (λ hs, hs ++ [Some empty_string]) st0) out
                (length (handles st)) empty_string)
      as (st3 & Hreset & _ & _ & Hhandles & Hscopes);
      [by apply (persistents_wf_ext st)|done|apply lookup_snoc_length|].
    eexists. erewrite bind_eq; cycle 1.
    { erewrite bind_eq by (by apply String_NewFromUtf8_empty). cbv beta iota.
      erewrite bind_eq; [reflexivity|]. exact Hreset. }
    erewrite bind_eq; [reflexivity|].
    apply (HandleScope_close_innermost st3 (scopes st)
             (mk_ScopeData (length (handles st)) None)). by rewrite Hscopes.
  - rewrite (proj2 (Z.leb_le len (kMaxLength st))) by done. rewrite orb_true_r.
    destruct (Neon_Mem_ResetPersistent_holds
                (set_handles (λ hs, hs ++ [Some (fresh (dom (heap st)))])
                   (set_heap (<[fresh (dom (heap st)) :=
                                 HString (take (Z.to_nat len) data)]>) st0)) out
                (length (handles st)) (fresh (dom (heap st))))
      as (st3 & Hreset & _ & _ & Hhandles & Hscopes);
      [by apply (persistents_wf_ext st)|done|apply lookup_snoc_length|].
    eexists. erewrite bind_eq; cycle 1.
    { erewrite bind_eq by (apply (String_NewFromUtf8_fits st0); [done|cbn; lia|lia]).
      cbv beta iota. erewrite bind_eq; [reflexivity|]. exact Hreset. }
    erewrite bind_eq; [reflexivity|].
    apply (HandleScope_close_innermost st3 (scopes st)
             (mk_ScopeData (length (handles st)) None)). by rewrite Hscopes.
  - rewrite (proj2 (Z.eqb_neq len 0)) by done.
    rewrite (proj2 (Z.leb_gt len (kMaxLength st))) by lia. cbn [orb].
    eexists. erewrite bind_eq; cycle 1.
    { erewrite bind_eq by (apply (String_NewFromUtf8_too_long st0); [cbn; lia|done]).
      reflexivity. }
    erewrite bind_eq; [reflexivity|].
    apply (HandleScope_close_innermost _ (scopes st)
             (mk_ScopeData (length (handles st)) None)). done.
Qed.

Lemma FunctionTemplate_SetClassName_spec st i k ft n cb d cn pt it :
  handles st !! i = Some (Some ft) → handles st !! k = Some (Some n) →
  heap st !! ft = Some (HFunctionTemplate cb d cn pt it) →
  FunctionTemplate_SetClassName (Some i) (Some k) st =
    Some (tt, set_heap (<[ft := HFunctionTemplate cb d (Some n) pt it]>) st).
Proof.
  intros Hi Hk Hft. unfold FunctionTemplate_SetClassName, deref.
  unfold bind, get_state, lift_option, modify. cbn. rewrite Hi. cbn. rewrite Hk. cbn.
  by rewrite Hft.
Qed.

(** [Neon_Class_SetName] hands back a boolean on both paths. *)
Lemma Neon_Class_SetName_returns st mp ft name byte_length :
  class_of st mp ft → scopes st ≠ [] →
  heap st !! empty_string = Some (HString []) →
  (0 ≤ byte_length ≤ Z.of_nat (length name))%Z → (byte_length < 2 ^ 31)%Z →
  ∃ st', Neon_Class_SetName mp name byte_length st
           = Some (Return (encodable st byte_length), st').
Proof.
  intros (md & g & cb & d & cn & pt & it & Hmd & Hp & Hg & Hft & _) Hs Hroot Hlen Hint.
  set (st1 := set_handles (λ hs, hs ++ [Some ft]) st).
  assert (Hget : ClassMetadata_GetTemplate mp st = Some (Some (length (handles st)), st1)).
  { unfold ClassMetadata_GetTemplate, metadata_at, Nan_New_persistent, persistent_val,
      CreateHandle. unfold bind, get_state, lift_option, modify, ret.
    rewrite Hmd, Hp. cbn. rewrite Hg. cbn. by destruct (scopes st). }
  unfold Neon_Class_SetName, encodable. rewrite int_of_uint32_small by done.
  erewrite bind_eq by exact Hget. cbv beta.
  assert (Hset : ∀ st2, metadata st2 = metadata st →
            ∃ st3, ClassMetadata_SetName mp (name, byte_length) st2 = Some (tt, st3)).
  { intros st2 Hm. unfold ClassMetadata_SetName, metadata_at.
    unfold bind, get_state, lift_option, modify. rewrite Hm, Hmd. eauto. }
  destruct (decide (byte_length = 0%Z)) as [->|Hnz];
    [|destruct (decide (byte_length ≤ kMaxLength st)%Z) as [Hfit|Hlong]].
  - erewrite bind_eq by (by apply String_NewFromUtf8_empty). cbv beta iota.
    erewrite bind_eq; cycle 1.
    { eapply FunctionTemplate_SetClassName_spec with (ft := ft) (n := empty_string); cbn.
      - apply lookup_app_l_Some, lookup_snoc_length.
      - apply lookup_snoc_length', eq_refl.
      - exact Hft. }
    cbv beta. edestruct Hset as (st3 & Hst3); [|erewrite bind_eq by exact Hst3; eauto].
    done.
  - rewrite (proj2 (Z.leb_le byte_length (kMaxLength st))) by done. rewrite orb_true_r.
    erewrite bind_eq by (apply (String_NewFromUtf8_fits st1); [done|cbn; lia|lia]).
    cbv beta iota.
    erewrite bind_eq; cycle 1.
    { eapply FunctionTemplate_SetClassName_spec
        with (ft := ft) (n := fresh (dom (heap st))); cbn.
      - apply lookup_app_l_Some, lookup_snoc_length.
      - apply lookup_snoc_length', eq_refl.
      - rewrite lookup_insert_ne by (by eapply fresh_dom_ne). exact Hft. }
    cbv beta. edestruct Hset as (st3 & Hst3); [|erewrite bind_eq by exact Hst3; eauto].
    done.
  - rewrite (proj2 (Z.eqb_neq byte_length 0)) by done.
    rewrite (proj2 (Z.leb_gt byte_length (kMaxLength st))) by lia. cbn [orb].
    erewrite bind_eq by (apply (String_NewFromUtf8_too_long st1); [cbn; lia|done]).
    eauto.
Qed.

(** ** The thin call and construct *)

(** C7. [Neon_Fun_CallThin] and [Neon_Fun_ConstructThin] return [false]
    whatever they are given and leave the whole state as it was: no function
    runs, no exception is raised, and the persistent at [out] keeps its
    content. *)
Theorem Neon_Fun_Thin_stubs
    (st : State) (out fun_ self : positive) (argc : Z) (argv : list positive) :
  Neon_Fun_CallThin out fun_ self argc argv st = Some (Return false, st) ∧
  Neon_Fun_ConstructThin out fun_ argc argv st = Some (Return false, st).
Proof. split; reflexivity. Qed.

(** ** The class and error theorems at concrete states *)

Lemma Neon_Class_ConstructBaseCallback_dispatch_witness :
  ∃ st1 mp md ft data,
    Neon_Class_CreateBase example_allocate example_construct example_call 17 initial_state
      = Some (mp, st1) ∧
    metadata st1 !! mp = Some md ∧
    construct_callback_ md = 13%positive ∧
    construct_kernel_ md = 14%positive ∧
    call_callback_ md = 15%positive ∧
    call_kernel_ md = 16%positive ∧
    allocate_callback_ md = 11%positive ∧
    allocate_kernel_ md = 12%positive ∧
    drop_instance_ md = 17%positive ∧
    class_of st1 mp ft ∧
    constructor_template st1 ft data mp ∧
    ∀ st2 is_construct_call this args,
      constructor_template st2 ft data mp →
      @host_invoke example_native ft is_construct_call this args st2 =
        with_HandleScope
          (if is_construct_call
           then @BaseClassMetadata_construct example_native mp
                  (mk_FunctionCallbackInfo data true this args)
           else @BaseClassMetadata_call example_native mp
                  (mk_FunctionCallbackInfo data false this args)) st2.
Proof.
  apply (@Neon_Class_ConstructBaseCallback_dispatch example_native initial_state
           example_allocate example_construct example_call 17).
  vm_compute. discriminate.
Defined.

(** The two ways of calling the class of [with_class]: [new T()] leaves a
    new object and no exception, [T()] leaves an exception pending. *)
Example host_invoke_new :
  ∃ st', @host_invoke example_native 4 true 1 [] with_class = Some (tt, st') ∧
         pending_exception st' = None ∧
         heap st' !! 7%positive = Some (HPlainObject []).
Proof. eexists. vm_compute. done. Qed.

Example host_invoke_plain :
  ∃ st' e m, @host_invoke example_native 4 false 1 [] with_class = Some (tt, st') ∧
             pending_exception st' = Some e ∧
             heap st' !! e = Some (HError m) ∧
             heap st' !! m = Some (HString (bytes_of "constructor called without new.")).
Proof. eexists _, _, _. vm_compute. done. Qed.

Lemma with_class_class_of : class_of with_class 1 4.
Proof.
  eexists _, _, _, _, _, _, _.
  split; [vm_compute; reflexivity|].
  split; [vm_compute; reflexivity|].
  split; [vm_compute; reflexivity|].
  split; [vm_compute; reflexivity|]. done.
Qed.

(** The buffer holds the 2^31 bytes it is said to hold. *)
Lemma long_name_length : Z.of_nat (length long_name) = (2 ^ 31)%Z.
Proof.
  unfold long_name. rewrite length_app, length_cons, length_replicate.
  change (length (bytes_of "foo")) with 3. lia.
Qed.

Lemma Neon_Class_AddMethod_narrows_witness :
  encodable with_class (2 ^ 31) = false ∧
  ∃ st' key,
    Neon_Class_AddMethod 1 long_name (2 ^ 31) (Some 3%nat) with_class
      = Some (Return true, st') ∧
    prototype_properties st' 4 = prototype_properties with_class 4 ++ [(key, 6%positive)] ∧
    heap st' !! key = Some (HString (take 3 long_name)).
Proof.
  apply (Neon_Class_AddMethod_narrows with_class 1 4 long_name (2 ^ 31) (Some 3%nat) 6 3).
  - apply with_class_class_of.
  - vm_compute. discriminate.
  - vm_compute. reflexivity.
  - vm_compute. split; [discriminate|reflexivity].
  - reflexivity.
  - vm_compute. discriminate.
  - vm_compute. reflexivity.
Defined.

Lemma Neon_Class_AddMethod_encodes_witness :
  ∃ st',
    Neon_Class_AddMethod 1 (bytes_of "greet") 5 (Some 3%nat) with_class
      = Some (Return (encodable with_class 5), st') ∧
    if encodable with_class 5 then
      ∃ key,
        prototype_properties st' 4 = prototype_properties with_class 4 ++ [(key, 6%positive)] ∧
        heap st' !! key = Some (HString (take (Z.to_nat 5) (bytes_of "greet")))
    else prototype_properties st' 4 = prototype_properties with_class 4.
Proof.
  apply (Neon_Class_AddMethod_encodes with_class 1 4 (bytes_of "greet") 5 (Some 3%nat) 6).
  - apply with_class_class_of.
  - vm_compute. discriminate.
  - vm_compute. reflexivity.
  - vm_compute. reflexivity.
  - vm_compute. split; discriminate.
  - reflexivity.
Defined.

(** A method is attached under its name; a name above the host's limit is
    refused and the prototype stays without properties. *)
Example add_method_greet :
  ∃ st', Neon_Class_AddMethod 1 (bytes_of "greet") 5 (Some 3%nat) with_class
           = Some (Return true, st') ∧
         prototype_properties st' 4 = [(8%positive, 6%positive)] ∧
         heap st' !! 8%positive = Some (HString (bytes_of "greet")).
Proof. eexists. vm_compute. done. Qed.

Example add_method_too_long :
  ∃ st', Neon_Class_AddMethod 1 (replicate 41 Byte.x61) 41 (Some 3%nat) with_class_small
           = Some (Return false, st') ∧
         prototype_properties st' 4 = [].
Proof. eexists. vm_compute. done. Qed.

Lemma Neon_Object_GetOwnPropertyNames_no_return_witness :
  ∃ st' arr,
    Neon_Object_GetOwnPropertyNames 8 7 object_held = Some (NoReturn, st') ∧
    holds 8 arr st' ∧
    heap st' !! arr = Some (HArray ([] : list (positive * positive)).*1).
Proof.
  apply (Neon_Object_GetOwnPropertyNames_no_return object_held 8 7 1 3 []).
  - apply (after_wf [OpNewPersistent 7; OpNewPersistent 8; OpObjectNew;
                     OpResetPersistent 7 (Some 0%nat)]).
  - vm_compute. eexists. reflexivity.
  - vm_compute. reflexivity.
  - vm_compute. reflexivity.
  - vm_compute. reflexivity.
Defined.

Example get_own_property_names_runs_off :
  ∃ st', Neon_Object_GetOwnPropertyNames 8 7 object_held = Some (NoReturn, st').
Proof. eexists. vm_compute. reflexivity. Qed.

Lemma Neon_Error_ThrowErrorFromUtf8_throws_witness :
  ∃ st' e m,
    Neon_Error_ThrowErrorFromUtf8 (bytes_of "boom") 4 initial_state = Some (tt, st') ∧
    pending_exception st' = Some e ∧
    heap st' !! e = Some (HError m) ∧
    heap st' !! m =
      Some (HString (if (4 <=? kMaxLength initial_state)%Z
                     then take (Z.to_nat 4) (bytes_of "boom")
                     else unknown_error_message)).
Proof.
  apply (Neon_Error_ThrowErrorFromUtf8_throws initial_state (bytes_of "boom") 4).
  - vm_compute. discriminate.
  - vm_compute. reflexivity.
  - vm_compute. split; discriminate.
  - vm_compute. discriminate.
Defined.

(** On a host whose strings hold 40 bytes at most, a message of 41 bytes is
    replaced by the generic one. *)
Example throw_generic_error :
  ∃ st' e m,
    Neon_Error_ThrowErrorFromUtf8 (replicate 41 Byte.x61) 41 with_class_small
      = Some (tt, st') ∧
    pending_exception st' = Some e ∧
    heap st' !! e = Some (HError m) ∧
    heap st' !! m = Some (HString (bytes_of "an unknown Neon error occurred")).
Proof. eexists _, _, _. vm_compute. done. Qed.


(** * Properties of the task queue bridge *)

Lemma count_app f l1 l2 : count f (l1 ++ l2) = count f l1 + count f l2.
Proof. induction l1 as [|e l1 IH]; cbn; [done|]. rewrite IH. lia. Qed.

Lemma count_finished_app ps qs :
  count_finished (ps ++ qs) = count_finished ps + count_finished qs.
Proof. induction ps as [|p ps IH]; cbn; [done|]. rewrite IH. lia. Qed.

Lemma remaining_app ps qs : remaining (ps ++ qs) = remaining ps + remaining qs.
Proof. induction ps as [|p ps IH]; cbn; [done|]. rewrite IH. lia. Qed.

Lemma count_finished_insert ps : ∀ i p q,
  ps !! i = Some p →
  count_finished (<[i := q]> ps) + (if decide (p = Finished) then 1 else 0)
    = count_finished ps + (if decide (q = Finished) then 1 else 0).
Proof.
  induction ps as [|p0 ps IH]; intros i p q Hi; [done|].
  destruct i as [|i].
  - cbn in *. simplify_eq. repeat case_decide; lia.
  - change (<[S i := q]> (p0 :: ps)) with (p0 :: <[i := q]> ps).
    cbn [count_finished]. specialize (IH i p q Hi). lia.
Qed.

Lemma remaining_insert ps : ∀ i p q,
  ps !! i = Some p → rank p ≤ 4 → rank q ≤ 4 →
  remaining (<[i := q]> ps) + rank q = remaining ps + rank p.
Proof.
  induction ps as [|p0 ps IH]; intros i p q Hi Hp Hq; [done|].
  destruct i as [|i].
  - cbn in *. simplify_eq. lia.
  - change (<[S i := q]> (p0 :: ps)) with (p0 :: <[i := q]> ps).
    cbn [remaining]. specialize (IH i p q Hi Hp Hq). lia.
Qed.

Lemma rank_le p : rank p ≤ 4.
Proof. destruct p; cbn; lia. Qed.

Lemma empty_bridge_invariant : bridge_invariant empty_bridge.
Proof.
  split; cbn; try done.
  - intros i. split; [by intros ?%elem_of_nil|done].
  - constructor.
  - intros i [?|?]; done.
Qed.

Lemma Neon_Task_Schedule_eq b :
  Neon_Task_Schedule b =
    Some (mk_bridge (phases b ++ [Queued]) (finished_work b) (log b)).
Proof.
  unfold Neon_Task_Schedule, new_Task, queue_task. cbn.
  rewrite lookup_app_r, Nat.sub_diag by done. cbn. do 2 f_equal.
  rewrite insert_app_r_alt, Nat.sub_diag by done. done.
Qed.

Lemma lookup_snoc_iff {A} (l : list A) (x y : A) i :
  (l ++ [x]) !! i = Some y ↔ l !! i = Some y ∨ (i = length l ∧ y = x).
Proof.
  rewrite lookup_app_Some, list_lookup_singleton_Some. split.
  - intros [?|(? & ? & ?)]; [by left|right]. split; [lia|done].
  - intros [?|[-> ->]]; [by left|right]. split; [lia|]. split; [lia|done].
Qed.

(** An event that is no [complete] leaves the counts alone. *)
Lemma completions_of_snoc_other i l e :
  is_complete e = false → completions_of i (l ++ [e]) = completions_of i l.
Proof.
  intros He. unfold completions_of. rewrite count_app. cbn.
  destruct e; cbn in *; try done; lia.
Qed.

Lemma completions_snoc_other l e :
  is_complete e = false → completions (l ++ [e]) = completions l.
Proof. intros He. unfold completions. rewrite count_app. cbn. rewrite He. lia. Qed.

Lemma order_snoc_other (l : list event) e :
  is_complete e = false →
  (∀ k t i, l !! k = Some (EvComplete t i) →
     t = HostThread ∧ ∃ k', k' < k ∧ l !! k' = Some (EvPerformEnd i)) →
  ∀ k t i, (l ++ [e]) !! k = Some (EvComplete t i) →
     t = HostThread ∧ ∃ k', k' < k ∧ (l ++ [e]) !! k' = Some (EvPerformEnd i).
Proof.
  intros He Hl k t i Hk. apply lookup_snoc_iff in Hk as [Hk|[_ <-]]; [|done].
  destruct (Hl k t i Hk) as (-> & k' & Hlt & Hk'). split; [done|].
  exists k'. split; [done|]. by apply lookup_app_l_Some.
Qed.

Lemma act_invariant pool a b b' :
  bridge_invariant b → act pool a b = Some b' → bridge_invariant b'.
Proof.
  intros [Hnc Hq Hnd Hpe Hco Hct Hord] Hact. destruct a as [from|w task|task|]; cbn [act] in Hact.
  - (* Schedule *)
    rewrite Neon_Task_Schedule_eq in Hact. simplify_eq. split; cbn [phases finished_work log].
    + intros i Hi. apply lookup_snoc_iff in Hi as [Hi|[_ ?]]; [by eapply Hnc|done].
    + intros i. rewrite Hq, lookup_snoc_iff. naive_solver.
    + done.
    + intros i Hi. apply Hpe. rewrite !lookup_snoc_iff in Hi. naive_solver.
    + intros i. rewrite Hco. repeat case_decide; try done.
      * rewrite lookup_snoc_iff in *. naive_solver.
      * exfalso. rewrite lookup_snoc_iff in *. naive_solver.
    + rewrite Hct, count_finished_app. cbn. case_decide; [done|lia].
    + done.
  - (* PerformBegin *)
    destruct (bool_decide (w < pool) && negb (busy w b)); [|done].
    destruct (phases b !! task) as [[]|] eqn:Ht; simplify_eq. split; cbn [phases finished_work log].
    + intros i Hi. apply list_lookup_insert_Some in Hi. by destruct Hi as [(_&?&_)|[_ ?%Hnc]].
    + intros i. rewrite Hq, list_lookup_insert_Some. naive_solver.
    + done.
    + intros i Hi. apply elem_of_app. left. apply Hpe.
      rewrite !list_lookup_insert_Some in Hi. naive_solver.
    + intros i. rewrite completions_of_snoc_other, Hco by done.
      repeat case_decide; try done.
      * exfalso. rewrite list_lookup_insert_Some in *. naive_solver.
      * exfalso. rewrite list_lookup_insert_Some in *. naive_solver.
    + rewrite completions_snoc_other, Hct by done.
      pose proof (count_finished_insert _ _ _ (Executing w) Ht) as Hc.
      repeat case_decide; try done. lia.
    + by apply order_snoc_other.
  - (* PerformEnd *)
    destruct (phases b !! task) as [[]|] eqn:Ht; simplify_eq. split; cbn [phases finished_work log].
    + intros i Hi. apply list_lookup_insert_Some in Hi. by destruct Hi as [(_&?&_)|[_ ?%Hnc]].
    + intros i. rewrite elem_of_app, Hq, list_elem_of_singleton, list_lookup_insert_Some.
      pose proof (lookup_lt_Some _ _ _ Ht). naive_solver.
    + apply NoDup_app. split; [done|]. split; [|apply NoDup_singleton].
      intros i Hi ->%list_elem_of_singleton. apply Hq in Hi. congruence.
    + intros i Hi. apply elem_of_app.
      destruct (decide (i = task)) as [->|Hne].
      * right. by apply list_elem_of_singleton.
      * left. apply Hpe. rewrite !list_lookup_insert_Some in Hi. naive_solver.
    + intros i. rewrite completions_of_snoc_other, Hco by done.
      repeat case_decide; try done.
      * exfalso. rewrite list_lookup_insert_Some in *. naive_solver.
      * exfalso. rewrite list_lookup_insert_Some in *. naive_solver.
    + rewrite completions_snoc_other, Hct by done.
      pose proof (count_finished_insert _ _ _ Completing Ht) as Hc.
      repeat case_decide; try done. lia.
    + by apply order_snoc_other.
  - (* HostDrain *)
    destruct (finished_work b) as [|task rest] eqn:Hfw; simplify_eq.
    assert (Ht : phases b !! task = Some Completing) by (apply Hq; left).
    apply NoDup_cons in Hnd as [Hnotin Hnd].
    split; cbn [phases finished_work log].
    + intros i Hi. apply list_lookup_insert_Some in Hi. by destruct Hi as [(_&?&_)|[_ ?%Hnc]].
    + intros i. rewrite list_lookup_insert_Some. split.
      * intros Hi. right. split; [by intros ->|]. apply Hq. by right.
      * intros [(_ & ? & _)|[Hne Hi]]; [done|]. apply Hq in Hi.
        apply elem_of_cons in Hi as [->|?]; done.
    + done.
    + intros i Hi. apply elem_of_app. left. apply Hpe.
      rewrite !list_lookup_insert_Some in Hi.
      destruct (decide (i = task)) as [->|Hne]; [by left|]. naive_solver.
    + intros i. unfold completions_of. rewrite count_app. fold (completions_of i (log b)).
      rewrite Hco. cbn.
      pose proof (lookup_lt_Some _ _ _ Ht).
      destruct (decide (i = task)) as [->|Hne].
      * rewrite bool_decide_eq_true_2 by done.
        rewrite list_lookup_insert_eq by done. rewrite Ht.
        rewrite decide_False by done. rewrite decide_True by done. done.
      * rewrite bool_decide_eq_false_2 by done.
        rewrite list_lookup_insert_ne by done. lia.
    + unfold completions. rewrite count_app. fold (completions (log b)). rewrite Hct. cbn.
      pose proof (count_finished_insert _ _ _ Finished Ht) as Hc.
      rewrite decide_False in Hc by done. rewrite decide_True in Hc by done. lia.
    + intros k t i Hk. apply lookup_snoc_iff in Hk as [Hk|[-> Hk]].
      * destruct (Hord k t i Hk) as (-> & k' & Hlt & Hk'). split; [done|].
        exists k'. split; [done|]. by apply lookup_app_l_Some.
      * simplify_eq. split; [done|].
        assert (Hin : EvPerformEnd task ∈ log b) by (apply Hpe; by left).
        apply list_elem_of_lookup in Hin as [k' Hk']. exists k'.
        split; [by eapply lookup_lt_Some|]. by apply lookup_app_l_Some.
Qed.

Lemma run_bridge_invariant pool acts : ∀ b b',
  bridge_invariant b → run_bridge pool acts b = Some b' → bridge_invariant b'.
Proof.
  induction acts as [|a acts IH]; intros b b' Hinv Hrun; cbn in Hrun; [by simplify_eq|].
  destruct (act pool a b) as [b1|] eqn:Hact; [|done].
  eapply IH; [|done]. by eapply act_invariant.
Qed.

Lemma act_length pool a b b' :
  act pool a b = Some b' →
  length (phases b') = length (phases b) + (if is_schedule a then 1 else 0).
Proof.
  intros Hact. destruct a as [from|w task|task|]; cbn [act is_schedule] in *.
  - rewrite Neon_Task_Schedule_eq in Hact. simplify_eq. cbn. by rewrite length_app.
  - destruct (bool_decide (w < pool) && negb (busy w b)); [|done].
    destruct (phases b !! task) as [[]|]; simplify_eq. cbn. rewrite length_insert. lia.
  - destruct (phases b !! task) as [[]|]; simplify_eq. cbn. rewrite length_insert. lia.
  - destruct (finished_work b); simplify_eq. cbn. rewrite length_insert. lia.
Qed.

Lemma run_bridge_length pool acts : ∀ b b',
  run_bridge pool acts b = Some b' →
  length (phases b') = length (phases b) + scheduled acts.
Proof.
  induction acts as [|a acts IH]; intros b b' Hrun; cbn in Hrun.
  - simplify_eq. unfold scheduled. cbn. lia.
  - destruct (act pool a b) as [b1|] eqn:Hact; [|done].
    rewrite (IH _ _ Hrun), (act_length _ _ _ _ Hact).
    unfold scheduled. rewrite filter_cons. destruct (is_schedule a).
    + rewrite decide_True by done. cbn. lia.
    + rewrite decide_False by done. lia.
Qed.

(** Every action of the bridge itself brings the tasks one step closer to
    the end. *)
Lemma act_remaining pool a b b' :
  bridge_invariant b → is_schedule a = false → act pool a b = Some b' →
  S (remaining (phases b')) = remaining (phases b).
Proof.
  intros Hinv Hns Hact. destruct a as [from|w task|task|]; cbn [act is_schedule] in *.
  - done.
  - destruct (bool_decide (w < pool) && negb (busy w b)); [|done].
    destruct (phases b !! task) as [[]|] eqn:Ht; simplify_eq. cbn.
    pose proof (remaining_insert _ _ _ (Executing w) Ht) as Hr. cbn in Hr. lia.
  - destruct (phases b !! task) as [[]|] eqn:Ht; simplify_eq. cbn.
    pose proof (remaining_insert _ _ _ Completing Ht) as Hr. cbn in Hr. lia.
  - destruct (finished_work b) as [|task rest] eqn:Hfw; simplify_eq. cbn.
    assert (Ht : phases b !! task = Some Completing).
    { apply (inv_queue b Hinv). rewrite Hfw. left. }
    pose proof (remaining_insert _ _ _ Finished Ht) as Hr. cbn in Hr. lia.
Qed.

(** A bridge at rest has finished every task. *)
Lemma at_rest_finished pool b :
  1 ≤ pool → bridge_invariant b → at_rest pool b →
  ∀ i p, phases b !! i = Some p → p = Finished.
Proof.
  intros Hpool Hinv Hrest i p Hi. destruct p as [| |w| |]; [| | | |done]; exfalso.
  - by apply (inv_no_created b Hinv i).
  - destruct (busy 0 b) eqn:Hbusy.
    + apply bool_decide_eq_true in Hbusy. apply list_elem_of_lookup in Hbusy as [j Hj].
      specialize (Hrest (PerformEnd j) eq_refl). cbn in Hrest. by rewrite Hj in Hrest.
    + specialize (Hrest (PerformBegin 0 i) eq_refl). cbn in Hrest.
      rewrite Hbusy, Hi in Hrest. by rewrite bool_decide_eq_true_2 in Hrest by lia.
  - specialize (Hrest (PerformEnd i) eq_refl). cbn in Hrest. by rewrite Hi in Hrest.
  - apply (inv_queue b Hinv) in Hi. specialize (Hrest HostDrain eq_refl). cbn in Hrest.
    destruct (finished_work b); [by apply elem_of_nil in Hi|done].
Qed.

Lemma all_finished_at_rest pool b :
  bridge_invariant b → (∀ i p, phases b !! i = Some p → p = Finished) → at_rest pool b.
Proof.
  intros Hinv Hall a Hns. destruct a as [from|w task|task|]; cbn [act is_schedule] in *.
  - done.
  - destruct (bool_decide (w < pool) && negb (busy w b)); [|done].
    destruct (phases b !! task) as [p|] eqn:Ht; [|done]. by rewrite (Hall _ _ Ht).
  - destruct (phases b !! task) as [p|] eqn:Ht; [|done]. by rewrite (Hall _ _ Ht).
  - destruct (finished_work b) as [|task rest] eqn:Hfw; [done|].
    assert (Ht : phases b !! task = Some Completing).
    { apply (inv_queue b Hinv). rewrite Hfw. left. }
    by specialize (Hall _ _ Ht).
Qed.

Lemma count_finished_all ps :
  (∀ i p, ps !! i = Some p → p = Finished) → count_finished ps = length ps.
Proof.
  induction ps as [|p ps IH]; intros Hall; cbn; [done|].
  rewrite (Hall 0 p eq_refl), decide_True by done.
  rewrite IH; [done|]. intros i q Hi. by apply (Hall (S i)).
Qed.

(** A bridge that is not at rest can move. *)
Lemma rest_or_move pool b :
  1 ≤ pool → bridge_invariant b →
  at_rest pool b ∨ ∃ a b', is_schedule a = false ∧ act pool a b = Some b'.
Proof.
  intros Hpool Hinv.
  destruct (finished_work b) as [|task rest] eqn:Hfw.
  2:{ right. exists HostDrain. eexists. split; [done|]. cbn. by rewrite Hfw. }
  destruct (list_find (λ p, is_executing p = true) (phases b)) as [[i p]|] eqn:Hexec.
  { apply list_find_Some in Hexec as (Hi & Hp & _). destruct p; try done.
    right. exists (PerformEnd i). eexists. split; [done|]. cbn. by rewrite Hi. }
  destruct (list_find (λ p, p = Queued) (phases b)) as [[i p]|] eqn:Hqueued.
  { apply list_find_Some in Hqueued as (Hi & -> & _).
    right. exists (PerformBegin 0 i). eexists. split; [done|]. cbn.
    rewrite Hi. rewrite bool_decide_eq_true_2 by lia.
    unfold busy. rewrite bool_decide_eq_false_2; [done|].
    intros Hin. apply list_find_None in Hexec.
    rewrite Forall_forall in Hexec. by apply (Hexec _ Hin). }
  left. apply all_finished_at_rest; [done|]. intros i p Hi.
  apply list_find_None in Hexec, Hqueued. rewrite Forall_forall in Hexec, Hqueued.
  assert (Hin : p ∈ phases b) by (by eapply list_elem_of_lookup_2).
  destruct p as [| |w| |]; [| | | |done]; exfalso.
  - by apply (inv_no_created b Hinv i).
  - by apply (Hqueued _ Hin).
  - by apply (Hexec _ Hin).
  - apply (inv_queue b Hinv) in Hi. rewrite Hfw in Hi. by apply elem_of_nil in Hi.
Qed.

(** Left alone, the bridge comes to rest. *)
Lemma comes_to_rest pool : ∀ n b,
  1 ≤ pool → bridge_invariant b → remaining (phases b) ≤ n →
  ∃ more b', scheduled more = 0 ∧ run_bridge pool more b = Some b' ∧ at_rest pool b'.
Proof.
  induction n as [|n IH]; intros b Hpool Hinv Hn.
  - destruct (rest_or_move pool b Hpool Hinv) as [Hrest|(a & b1 & Hns & Hact)].
    + exists [], b. done.
    + pose proof (act_remaining _ _ _ _ Hinv Hns Hact). lia.
  - destruct (rest_or_move pool b Hpool Hinv) as [Hrest|(a & b1 & Hns & Hact)].
    + exists [], b. done.
    + pose proof (act_remaining _ _ _ _ Hinv Hns Hact) as Hrem.
      destruct (IH b1 Hpool) as (more & b' & Hsched & Hrun & Hrest).
      { by eapply act_invariant. }
      { lia. }
      exists (a :: more), b'. split; [|split; [|done]].
      * unfold scheduled in *. rewrite filter_cons. rewrite decide_False; [done|].
        by rewrite Hns.
      * cbn. by rewrite Hact.
Qed.

(** Once at rest, the bridge has invoked one [complete] for each task. *)
Lemma at_rest_completions pool b :
  1 ≤ pool → bridge_invariant b → at_rest pool b →
  completions (log b) = length (phases b) ∧
  ∀ task, task < length (phases b) → completions_of task (log b) = 1.
Proof.
  intros Hpool Hinv Hrest.
  pose proof (at_rest_finished pool b Hpool Hinv Hrest) as Hall. split.
  - by rewrite (inv_complete_total b Hinv), count_finished_all.
  - intros task Htask. rewrite (inv_complete_once b Hinv).
    destruct (lookup_lt_is_Some_2 (phases b) task) as [p Hp]; [lia|].
    rewrite Hp, (Hall _ _ Hp). by rewrite decide_True.
Qed.

(** C9.  Take any run of the bridge from the empty one, with a pool of at
    least one worker: [Neon_Task_Schedule] called any number N of times, from
    whatever threads, interleaved in any way with the workers starting and
    finishing [perform]s and the host thread draining the finished work.
    Then N tasks exist; no task has had its [complete] invoked more than
    once; every [complete] was invoked on the host thread, after the
    [perform] of the same task had finished; whenever the bridge is at rest
    exactly N [complete]s have been invoked, one for each task; and the
    bridge, left alone, does come to rest, in that very state. *)
Theorem Neon_Task_Schedule_completes (pool : nat) (acts : list action) (b : bridge) :
  1 ≤ pool →
  run_bridge pool acts empty_bridge = Some b →
  length (phases b) = scheduled acts ∧
  (∀ task, completions_of task (log b) ≤ 1) ∧
  (∀ k t task,
     log b !! k = Some (EvComplete t task) →
     t = HostThread ∧ ∃ k', k' < k ∧ log b !! k' = Some (EvPerformEnd task)) ∧
  (at_rest pool b →
     completions (log b) = scheduled acts ∧
     ∀ task, task < scheduled acts → completions_of task (log b) = 1) ∧
  (∃ more b',
     scheduled more = 0 ∧ run_bridge pool more b = Some b' ∧ at_rest pool b' ∧
     completions (log b') = scheduled acts ∧
     ∀ task, task < scheduled acts → completions_of task (log b') = 1).
Proof.
  intros Hpool Hrun.
  pose proof (run_bridge_invariant _ _ _ _ empty_bridge_invariant Hrun) as Hinv.
  pose proof (run_bridge_length _ _ _ _ Hrun) as Hlen. cbn in Hlen.
  split; [done|]. split; [|split; [|split]].
  - intros task. rewrite (inv_complete_once b Hinv). case_decide; lia.
  - apply (inv_order b Hinv).
  - intros Hrest. rewrite <- Hlen. by apply (at_rest_completions pool).
  - destruct (comes_to_rest pool (remaining (phases b)) b Hpool Hinv)
      as (more & b' & Hsched & Hmore & Hrest); [done|].
    exists more, b'. split; [done|]. split; [done|]. split; [done|].
    pose proof (run_bridge_invariant _ _ _ _ Hinv Hmore) as Hinv'.
    pose proof (run_bridge_length _ _ _ _ Hmore) as Hlen'.
    rewrite Hsched, Nat.add_0_r, Hlen in Hlen'. rewrite <- Hlen'.
    by apply (at_rest_completions pool).
Qed.

Lemma Neon_Task_Schedule_completes_witness :
  length (phases four_tasks_done) = scheduled four_tasks ∧
  (∀ task, completions_of task (log four_tasks_done) ≤ 1) ∧
  (∀ k t task,
     log four_tasks_done !! k = Some (EvComplete t task) →
     t = HostThread ∧
     ∃ k', k' < k ∧ log four_tasks_done !! k' = Some (EvPerformEnd task)) ∧
  (at_rest 2 four_tasks_done →
     completions (log four_tasks_done) = scheduled four_tasks ∧
     ∀ task, task < scheduled four_tasks →
       completions_of task (log four_tasks_done) = 1) ∧
  (∃ more b',
     scheduled more = 0 ∧ run_bridge 2 more four_tasks_done = Some b' ∧ at_rest 2 b' ∧
     completions (log b') = scheduled four_tasks ∧
     ∀ task, task < scheduled four_tasks → completions_of task (log b') = 1).
Proof.
  apply (Neon_Task_Schedule_completes 2 four_tasks four_tasks_done).
  - lia.
  - vm_compute. reflexivity.
Defined.

(** The run above ends at rest, with the four [complete]s in the order in
    which the [perform]s finished. *)
Example four_tasks_log :
  filter (λ e, is_complete e = true) (log four_tasks_done) =
    [EvComplete HostThread 1; EvComplete HostThread 0;
     EvComplete HostThread 2; EvComplete HostThread 3] ∧
  phases four_tasks_done = [Finished; Finished; Finished; Finished] ∧
  finished_work four_tasks_done = [].
Proof. vm_compute. done. Qed.

(** * Further properties of the shim *)

(** ** A scope declared in a function body *)

Lemma with_HandleScope_eq {A} (body : M A) st r st1 :
  body (set_scopes (λ ss, ss ++ [mk_ScopeData (length (handles st)) None]) st)
    = Some (r, st1) →
  scopes st1 = scopes st ++ [mk_ScopeData (length (handles st)) None] →
  with_HandleScope body st =
    Some (r, set_scopes (take (length (scopes st)))
               (set_handles (take (length (handles st))) st1)).
Proof.
  intros Hb Hs. unfold with_HandleScope.
  erewrite bind_eq by (unfold HandleScope_open, bind, get_state, modify, ret; reflexivity).
  cbv beta. erewrite bind_eq by exact Hb. cbv beta.
  erewrite bind_eq by (by apply HandleScope_close_innermost).
  done.
Qed.

(** The state after a scoped body that touched nothing but the handle
    stack above the scope, the globals and the persistents. *)
Lemma scope_restored st hs h gl ps e :
  set_scopes (take (length (scopes st)))
    (set_handles (take (length (handles st)))
       (mk_State h (handles st ++ hs)
          (scopes st ++ [mk_ScopeData (length (handles st)) None]) gl ps
          (metadata st) e (kMaxLength st)))
  = mk_State h (handles st) (scopes st) gl ps (metadata st) e (kMaxLength st).
Proof.
  unfold set_scopes, set_handles. cbn. by rewrite !take_app_length.
Qed.

(** ** Storing a word into a persistent *)

Lemma Persistent_Reset_to_word st p i w :
  handles st !! i = Some w →
  Persistent_Reset_to p (Some i) st = Persistent_Reset_word p w st.
Proof.
  intros Hi.
  unfold Persistent_Reset_to, Persistent_Reset_word, Persistent_Reset, persistent_val,
    DisposeGlobal, GlobalizeReference, set_persistent_val, read_slot, bind, get_state,
    lift_option, modify, ret.
  destruct (persistents st !! p) as [[g|]|]; [|by cbn; rewrite Hi|done].
  destruct (globals st !! g); [|done]. cbn. by rewrite Hi.
Qed.

Lemma Persistent_Reset_word_spec st p a :
  persistents_wf st → is_Some (persistents st !! p) →
  ∃ gl ps,
    let st1 := mk_State (heap st) (handles st) (scopes st) gl ps (metadata st)
                        (pending_exception st) (kMaxLength st) in
    Persistent_Reset_word p (Some a) st = Some (tt, st1) ∧
    holds p a st1 ∧ persistents_wf st1 ∧
    (∀ q b, q ≠ p → holds q b st → holds q b st1) ∧
    (∀ q, is_Some (persistents st !! q) → is_Some (ps !! q)).
Proof.
  intros Hwf Hp.
  set (st0 := set_handles (λ l, l ++ [Some a]) st).
  assert (Hwf0 : persistents_wf st0) by done.
  assert (Hi : handles st0 !! length (handles st) = Some (Some a))
    by apply lookup_snoc_length.
  destruct (Neon_Mem_ResetPersistent_holds st0 p _ a Hwf0 Hp Hi)
    as (st1 & Hreset & Hholds & Hheap & Hhs & Hss).
  assert (Hwf1 : persistents_wf st1)
    by (eapply (persistents_wf_step (OpResetPersistent p _)); [exact Hwf0|exact Hreset]).
  assert (Hothers : ∀ q b, q ≠ p → holds q b st0 → holds q b st1).
  { intros q b Hq Hh. eapply (holds_step q b (OpResetPersistent p _)); [done| |exact Hreset].
    cbn. by rewrite bool_decide_eq_false_2. }
  unfold Neon_Mem_ResetPersistent in Hreset.
  rewrite (Persistent_Reset_to_word _ _ _ _ Hi) in Hreset.
  revert Hreset Hholds Hwf1 Hothers. clear Hheap Hhs Hss Hwf0 Hi. subst st0.
  unfold Persistent_Reset_word, Persistent_Reset, persistent_val,
    DisposeGlobal, GlobalizeReference, set_persistent_val, bind, get_state,
    lift_option, modify, ret.
  destruct Hp as [v Hv]. cbn. rewrite Hv.
  assert (Hdone : ∀ gl ps,
    holds p a (mk_State (heap st) (handles st ++ [Some a]) (scopes st) gl ps (metadata st)
                 (pending_exception st) (kMaxLength st)) →
    persistents_wf (mk_State (heap st) (handles st ++ [Some a]) (scopes st) gl ps
                      (metadata st) (pending_exception st) (kMaxLength st)) →
    (∀ q b, q ≠ p → holds q b (set_handles (λ l, l ++ [Some a]) st) →
       holds q b (mk_State (heap st) (handles st ++ [Some a]) (scopes st) gl ps
                    (metadata st) (pending_exception st) (kMaxLength st))) →
    (∀ q, is_Some (persistents st !! q) → is_Some (ps !! q)) →
    let st1 := mk_State (heap st) (handles st) (scopes st) gl ps (metadata st)
                        (pending_exception st) (kMaxLength st) in
    holds p a st1 ∧ persistents_wf st1 ∧
    (∀ q b, q ≠ p → holds q b st → holds q b st1) ∧
    (∀ q, is_Some (persistents st !! q) → is_Some (ps !! q))).
  { intros gl ps H1 H2 H3 H4. cbn.
    split; [by eapply holds_ext; [| |exact H1]|].
    split; [by eapply persistents_wf_ext; [| |exact H2]|].
    split; [|done]. intros q b Hq Hh.
    eapply holds_ext; [| |apply (H3 q b Hq)]; [done|done|].
    by eapply holds_ext; [| |exact Hh]. }
  destruct v as [g0|].
  - destruct (proj1 Hwf p g0 Hv) as [x Hx]. rewrite Hx. cbn. rewrite Hx. cbn.
    intros [= <-] Hholds Hwf1 Hothers.
    eexists _, _. split; [done|]. apply Hdone; [done..|].
    intros q [y Hy]. destruct (decide (q = p)) as [->|Hq].
    + by rewrite lookup_insert_eq.
    + cbn. rewrite !lookup_insert_ne by done. by exists y.
  - cbn. intros [= <-] Hholds Hwf1 Hothers.
    eexists _, _. split; [done|]. apply Hdone; [done..|].
    intros q [y Hy]. destruct (decide (q = p)) as [->|Hq].
    + by rewrite lookup_insert_eq.
    + cbn. rewrite !lookup_insert_ne by done. by exists y.
Qed.
Lemma snoc_not_nil {A} (l : list A) (x : A) : l ++ [x] ≠ [].
Proof. by destruct l. Qed.

Lemma Nan_New_Object_spec st :
  scopes st ≠ [] →
  Nan_New_Object st =
    Some (Some (length (handles st)),
          set_handles (λ hs, hs ++ [Some (fresh (dom (heap st)))])
            (set_heap (<[fresh (dom (heap st)) := HPlainObject []]>) st)).
Proof.
  intros Hs. unfold Nan_New_Object, heap_alloc, NewLocal, CreateHandle, bind, get_state,
    modify, ret. cbn. by destruct (scopes st).
Qed.

Lemma fresh_dom_None {A} (m : gmap positive A) : m !! fresh (dom m) = None.
Proof. apply not_elem_of_dom, is_fresh. Qed.

(** X3. [Neon_Object_Init] on an allocated persistent of a state whose
    persistents own their nodes succeeds; it adds one empty object to the
    heap, at an identity that was not in use, and nothing else; the
    persistent holds that object; every other persistent holds what it
    held; and the handle stack and the scopes are as before, so the handle
    the function made for itself is released. *)
Theorem Neon_Object_Init_fresh (st : State) (out : positive) :
  persistents_wf st → is_Some (persistents st !! out) →
  ∃ st' a,
    Neon_Object_Init out st = Some (tt, st') ∧
    heap st !! a = None ∧
    heap st' = <[a := HPlainObject []]> (heap st) ∧
    holds out a st' ∧
    (∀ q b, q ≠ out → holds q b st → holds q b st') ∧
    handles st' = handles st ∧ scopes st' = scopes st ∧
    persistents_wf st'.
Proof.
  intros Hwf Hout.
  set (d := mk_ScopeData (length (handles st)) None).
  set (a := fresh (dom (heap st))).
  set (stb := mk_State (<[a := HPlainObject []]> (heap st)) (handles st ++ [Some a])
                (scopes st ++ [d]) (globals st) (persistents st) (metadata st)
                (pending_exception st) (kMaxLength st)).
  destruct (Persistent_Reset_word_spec stb out a) as (gl & ps & Hstore & Hh & Hwf1 & Hothers & _);
    [done|done|].
  cbn in Hstore, Hh, Hwf1, Hothers.
  exists (mk_State (<[a := HPlainObject []]> (heap st)) (handles st) (scopes st) gl ps
            (metadata st) (pending_exception st) (kMaxLength st)), a.
  split.
  { unfold Neon_Object_Init.
    erewrite with_HandleScope_eq; [by rewrite scope_restored| |done].
    erewrite bind_eq by (apply Nan_New_Object_spec; apply snoc_not_nil). cbv beta.
    erewrite Persistent_Reset_to_word by (cbn; apply lookup_snoc_length).
    exact Hstore. }
  split; [apply fresh_dom_None|]. split; [done|].
  split; [by eapply holds_ext; [| |exact Hh]|].
  split; [|split; [done|split; [done|by eapply persistents_wf_ext; [| |exact Hwf1]]]].
  intros q b Hq Hqb. eapply holds_ext; [| |apply (Hothers q b Hq)]; [done|done|].
  by eapply holds_ext; [| |exact Hqb].
Qed.

Lemma scoped_store_word st out a :
  persistents_wf st → is_Some (persistents st !! out) →
  ∃ st',
    with_HandleScope (Persistent_Reset_word out (Some a)) st = Some (tt, st') ∧
    holds out a st' ∧
    (∀ q b, q ≠ out → holds q b st → holds q b st') ∧
    heap st' = heap st ∧ handles st' = handles st ∧ scopes st' = scopes st ∧
    persistents_wf st'.
Proof.
  intros Hwf Hout.
  set (d := mk_ScopeData (length (handles st)) None).
  set (stb := mk_State (heap st) (handles st ++ [])
                (scopes st ++ [d]) (globals st) (persistents st) (metadata st)
                (pending_exception st) (kMaxLength st)).
  destruct (Persistent_Reset_word_spec stb out a) as (gl & ps & Hstore & Hh & Hwf1 & Hothers & _);
    [done|done|].
  cbn in Hstore, Hh, Hwf1, Hothers.
  exists (mk_State (heap st) (handles st) (scopes st) gl ps
            (metadata st) (pending_exception st) (kMaxLength st)).
  split.
  { erewrite with_HandleScope_eq; [by rewrite scope_restored| |done].
    subst stb. rewrite app_nil_r in Hstore |- *. exact Hstore. }
  split; [by eapply holds_ext; [| |exact Hh]|].
  split; [|split; [done|split; [done|split; [done|by eapply persistents_wf_ext; [| |exact Hwf1]]]]].
  intros q b Hq Hqb. eapply holds_ext; [| |apply (Hothers q b Hq)]; [done|done|].
  by eapply holds_ext; [| |exact Hqb].
Qed.

(** X4. [Neon_Call_InitGet] stores into the persistent the argument at
    index [i] when [0 <= i < Neon_Call_Length info], and undefined for any
    other index, negative or too large; it leaves the heap, the handle stack,
    the scopes and the other persistents as they were. *)
Theorem Neon_Call_InitGet_bounds
    (st : State) (info : FunctionCallbackInfo) (i : Z) (out : positive) :
  persistents_wf st → is_Some (persistents st !! out) →
  ∃ st',
    Neon_Call_InitGet info i out st = Some (tt, st') ∧
    ((0 ≤ i < Neon_Call_Length info)%Z →
       ∃ a, info_args info !! Z.to_nat i = Some a ∧ holds out a st') ∧
    (¬ (0 ≤ i < Neon_Call_Length info)%Z → holds out undefined_value st') ∧
    (∀ q b, q ≠ out → holds q b st → holds q b st') ∧
    heap st' = heap st ∧ handles st' = handles st ∧ scopes st' = scopes st.
Proof.
  intros Hwf Hout.
  destruct (scoped_store_word st out (info_at info i) Hwf Hout)
    as (st' & Hrun & Hh & Hothers & Hheap & Hhs & Hss & _).
  exists st'. split; [exact Hrun|].
  split; [|split; [|done]].
  - intros Hi. unfold Neon_Call_Length, info_Length in Hi.
    destruct (lookup_lt_is_Some_2 (info_args info) (Z.to_nat i)) as [a Ha]; [lia|].
    exists a. split; [done|].
    unfold info_at, info_Length in Hh. rewrite Ha in Hh.
    by replace ((i <? 0) || (Z.of_nat (length (info_args info)) <=? i))%Z with false in Hh
      by (symmetry; apply orb_false_iff; split; [apply Z.ltb_ge|apply Z.leb_gt]; lia).
  - intros Hi. unfold Neon_Call_Length, info_Length in Hi.
    unfold info_at, info_Length in Hh.
    by replace ((i <? 0) || (Z.of_nat (length (info_args info)) <=? i))%Z with true in Hh
      by (symmetry; apply orb_true_iff;
          destruct (Z.ltb_spec i 0); [by left|right; apply Z.leb_le; lia]).
Qed.

Lemma Nan_New_persistent_spec st p g w :
  persistents st !! p = Some (Some g) → globals st !! g = Some w → scopes st ≠ [] →
  Nan_New_persistent p st =
    Some (Some (length (handles st)), set_handles (λ hs, hs ++ [w]) st).
Proof.
  intros Hp Hg Hs.
  unfold Nan_New_persistent, persistent_val, CreateHandle, bind, get_state, lift_option,
    modify, ret.
  rewrite Hp, Hg. by destruct (scopes st).
Qed.

Lemma Nan_New_persistent_empty st p :
  persistents st !! p = Some None → Nan_New_persistent p st = Some (None, st).
Proof.
  intros Hp. unfold Nan_New_persistent, persistent_val, bind, get_state, lift_option, ret.
  by rewrite Hp.
Qed.

Lemma throw_persistent (st : State) (val : positive) (v : option positive)
    (a : positive) :
  persistents st !! val = Some v →
  (∀ g, v = Some g → globals st !! g = Some (Some a)) →
  Neon_Error_Throw val st =
    Some (tt, set_pending (Some (match v with Some _ => a | None => undefined_value end)) st).
Proof.
  intros Hv Hg. unfold Neon_Error_Throw.
  set (d := mk_ScopeData (length (handles st)) None).
  destruct v as [g|].
  - specialize (Hg g eq_refl).
    erewrite (with_HandleScope_eq _ st tt
      (mk_State (heap st) (handles st ++ [Some a]) (scopes st ++ [d]) (globals st)
         (persistents st) (metadata st) (Some a) (kMaxLength st))).
    + rewrite scope_restored. by destruct st.
    + erewrite bind_eq by (by eapply Nan_New_persistent_spec; [| |apply snoc_not_nil]).
      cbv beta. unfold Nan_ThrowError. by erewrite Isolate_ThrowException_spec
        by apply lookup_snoc_length.
    + done.
  - erewrite (with_HandleScope_eq _ st tt
      (mk_State (heap st) (handles st ++ []) (scopes st ++ [d]) (globals st)
         (persistents st) (metadata st) (Some undefined_value) (kMaxLength st))).
    + rewrite scope_restored. by destruct st.
    + erewrite bind_eq by (by apply Nan_New_persistent_empty). cbv beta.
      cbn. by rewrite app_nil_r.
    + done.
Qed.

(** X6. [Neon_Error_Throw] schedules the value the persistent holds as
    the pending exception, and undefined when the persistent is empty;
    nothing else of the state changes: the scope it opens is closed and the
    handle it made released. *)
Theorem Neon_Error_Throw_pending (st : State) (val : positive) (v : option positive)
    (a : positive) :
  persistents st !! val = Some v →
  (∀ g, v = Some g → globals st !! g = Some (Some a)) →
  Neon_Error_Throw val st =
    Some (tt, set_pending (Some (match v with Some _ => a | None => undefined_value end)) st).
Proof. apply throw_persistent. Qed.

Lemma scoped_store st h hs e out i a :
  let stb := mk_State h (handles st ++ hs)
               (scopes st ++ [mk_ScopeData (length (handles st)) None]) (globals st)
               (persistents st) (metadata st) e (kMaxLength st) in
  persistents_wf st → is_Some (persistents st !! out) →
  (handles st ++ hs) !! i = Some (Some a) →
  ∃ gl ps,
    let st' := mk_State h (handles st) (scopes st) gl ps (metadata st) e (kMaxLength st) in
    Persistent_Reset_to out (Some i) stb =
      Some (tt, mk_State h (handles st ++ hs)
                  (scopes st ++ [mk_ScopeData (length (handles st)) None]) gl ps
                  (metadata st) e (kMaxLength st)) ∧
    holds out a st' ∧
    (∀ q b, q ≠ out → holds q b st → holds q b st') ∧
    persistents_wf st'.
Proof.
  intros stb Hwf Hout Hi.
  destruct (Persistent_Reset_word_spec stb out a) as (gl & ps & Hstore & Hh & Hwf1 & Hothers & _);
    [done|done|].
  cbn in Hstore, Hh, Hwf1, Hothers.
  exists gl, ps. cbn.
  split; [by erewrite Persistent_Reset_to_word by exact Hi|].
  split; [by eapply holds_ext; [| |exact Hh]|].
  split; [|by eapply persistents_wf_ext; [| |exact Hwf1]].
  intros q b Hq Hqb. eapply holds_ext; [| |apply (Hothers q b Hq)]; [done|done|].
  by eapply holds_ext; [| |exact Hqb].
Qed.

(** X7. [Neon_Error_InitError] followed by [Neon_Error_Throw].  When
    [msg] holds a message and [out] is allocated, [Neon_Error_InitError]
    adds one error object with that message to the heap, at an identity not
    in use, makes [out] hold it, and leaves the handle stack, the scopes and
    the pending exception alone; [Neon_Error_Throw] on [out] then makes that
    error the pending exception and changes nothing else. *)
Theorem Neon_Error_InitError_Throw (st : State) (out msg g m : positive) :
  persistents_wf st → is_Some (persistents st !! out) →
  persistents st !! msg = Some (Some g) → globals st !! g = Some (Some m) →
  ∃ st1 e,
    Neon_Error_InitError out msg st = Some (tt, st1) ∧
    heap st !! e = None ∧
    heap st1 = <[e := HError m]> (heap st) ∧
    holds out e st1 ∧
    handles st1 = handles st ∧ scopes st1 = scopes st ∧
    pending_exception st1 = pending_exception st ∧
    Neon_Error_Throw out st1 = Some (tt, set_pending (Some e) st1).
Proof.
  intros Hwf Hout Hmsg Hg.
  set (e := fresh (dom (heap st))).
  destruct (scoped_store st (<[e := HError m]> (heap st)) [Some m; Some e]
              (pending_exception st) out (S (length (handles st))) e Hwf Hout)
    as (gl & ps & Hstore & Hh & _ & Hwf1).
  { rewrite lookup_app_r by lia.
    by replace (S (length (handles st)) - length (handles st)) with 1 by lia. }
  cbn in Hh, Hwf1.
  eexists _, e. split.
  { unfold Neon_Error_InitError.
    erewrite with_HandleScope_eq; [by rewrite scope_restored| |done].
    erewrite bind_eq by (by eapply Nan_New_persistent_spec; [| |apply snoc_not_nil]).
    cbv beta.
    erewrite bind_eq by (apply Exception_Error_spec; [apply snoc_not_nil|apply lookup_snoc_length]).
    cbv beta. unfold set_handles, set_heap, set_scopes. cbn.
    rewrite length_app, Nat.add_1_r, <- (assoc_L (++) _ [Some m] [Some e]).
    exact Hstore. }
  split; [apply fresh_dom_None|]. split; [done|]. split; [exact Hh|].
  split; [done|]. split; [done|]. split; [done|].
  destruct Hh as (g' & Hp' & Hg' & _).
  rewrite (throw_persistent _ out (Some g') e Hp'); [done|].
  by intros ? [= <-].
Qed.

Lemma scope_restored_same st :
  set_scopes (take (length (scopes st)))
    (set_handles (take (length (handles st)))
       (set_scopes (λ ss, ss ++ [mk_ScopeData (length (handles st)) None]) st)) = st.
Proof.
  destruct st. unfold set_scopes, set_handles. cbn.
  by rewrite take_app_length, firstn_all.
Qed.

(** X9. [Neon_String_New] on an allocated persistent, for [len] bytes that
    lie in the buffer.  When the host can make a string of that length the
    function returns true, the persistent holds a string made of the first
    [len] bytes, every object of the heap is as it was, every other
    persistent holds what it held, and the handle stack and the scopes are
    as before.  Otherwise it returns false and the state is exactly the one
    it started from. *)
Theorem Neon_String_New_stores (st : State) (out : positive) (data : list Byte.byte)
    (len : Z) :
  persistents_wf st → is_Some (persistents st !! out) →
  heap st !! empty_string = Some (HString []) →
  (0 ≤ len ≤ Z.of_nat (length data))%Z →
  if encodable st len then
    ∃ st' s,
      Neon_String_New out data len st = Some (Return true, st') ∧
      holds out s st' ∧
      heap st' !! s = Some (HString (take (Z.to_nat len) data)) ∧
      (∀ a o, heap st !! a = Some o → heap st' !! a = Some o) ∧
      (∀ q b, q ≠ out → holds q b st → holds q b st') ∧
      handles st' = handles st ∧ scopes st' = scopes st
  else Neon_String_New out data len st = Some (Return false, st).
Proof.
  intros Hwf Hout Hroot Hlen. unfold encodable, Neon_String_New.
  destruct (Z.eqb_spec len 0) as [->|Hne]; cbn [orb].
  - destruct (scoped_store st (heap st) [Some empty_string]
              (pending_exception st) out (length (handles st)) empty_string Hwf Hout)
      as (gl & ps & Hstore & Hh & Hothers & Hwf1); [apply lookup_snoc_length|].
    cbn in Hh, Hothers.
    eexists _, empty_string. split.
    { erewrite with_HandleScope_eq; [by rewrite scope_restored| |done].
      erewrite bind_eq by (apply String_NewFromUtf8_empty; apply snoc_not_nil).
      cbv beta iota. by erewrite bind_eq by exact Hstore. }
    split; [exact Hh|]. split; [done|]. split; [done|]. split; [exact Hothers|done].
  - destruct (Z.leb_spec len (kMaxLength st)) as [Hfit|Hlong].
    + set (s := fresh (dom (heap st))).
      destruct (scoped_store st (<[s := HString (take (Z.to_nat len) data)]> (heap st))
                  [Some s] (pending_exception st) out (length (handles st)) s Hwf Hout)
        as (gl & ps & Hstore & Hh & Hothers & Hwf1); [apply lookup_snoc_length|].
      cbn in Hh, Hothers.
      eexists _, s. split.
      { erewrite with_HandleScope_eq; [by rewrite scope_restored| |done].
        erewrite bind_eq
          by (apply String_NewFromUtf8_fits; [apply snoc_not_nil|cbn; lia|lia]).
        cbv beta iota. by erewrite bind_eq by exact Hstore. }
      split; [exact Hh|]. split; [cbn; by rewrite lookup_insert_eq|].
      split; [|split; [exact Hothers|done]].
      intros a o Ha. cbn. rewrite lookup_insert_ne; [done|].
      by eapply fresh_dom_ne.
    + erewrite with_HandleScope_eq; [by rewrite scope_restored_same| |done].
      by erewrite bind_eq by (apply String_NewFromUtf8_too_long; [cbn; lia|done]).
Qed.
Lemma scoped_look {A} (k : Local → M A) st p g w r :
  persistents st !! p = Some (Some g) → globals st !! g = Some w →
  (let stb := set_handles (λ hs, hs ++ [w])
                (set_scopes (λ ss, ss ++ [mk_ScopeData (length (handles st)) None]) st) in
   k (Some (length (handles st))) stb = Some (r, stb)) →
  with_HandleScope (local <~ Nan_New_persistent p ;; k local) st = Some (r, st).
Proof.
  intros Hp Hg Hk. cbv zeta in Hk.
  rewrite (with_HandleScope_eq _ st r
    (set_handles (λ hs, hs ++ [w])
       (set_scopes (λ ss, ss ++ [mk_ScopeData (length (handles st)) None]) st))).
  - f_equal. f_equal. destruct st. unfold set_scopes, set_handles. cbn.
    by rewrite !take_app_length.
  - erewrite bind_eq by (by eapply Nan_New_persistent_spec; [| |apply snoc_not_nil]).
    cbv beta. exact Hk.
  - done.
Qed.

Lemma Array_New_spec `{HostLimits} st len :
  scopes st ≠ [] →
  ((if (0 <? len)%Z then len else 0%Z) ≤ FixedArray_kMaxLength)%Z →
  Array_New len st =
    Some (Some (length (handles st)),
          set_handles (λ hs, hs ++ [Some (fresh (dom (heap st)))])
            (set_heap (<[fresh (dom (heap st)) :=
               HArray (replicate (Z.to_nat (if (0 <? len)%Z then len else 0%Z))
                         undefined_value)]>) st)).
Proof.
  intros Hs Hfit. unfold Array_New.
  rewrite (proj2 (Z.ltb_ge _ _) Hfit).
  unfold heap_alloc, NewLocal, CreateHandle, bind, get_state, modify, ret. cbn.
  by destruct (scopes st).
Qed.

Lemma Array_New_too_long `{HostLimits} st len :
  (FixedArray_kMaxLength < (if (0 <? len)%Z then len else 0%Z))%Z →
  Array_New len st = None.
Proof. intros Hlong. unfold Array_New. by rewrite (proj2 (Z.ltb_lt _ _) Hlong). Qed.

(** X11. [Neon_Array_Init] followed by [Neon_Array_Length], on an allocated
    persistent and a host whose limit on the elements of an array is not
    negative.  A length above that limit and below [2^31] is fatal: the host
    aborts.  For any other length [Neon_Array_Init] makes the persistent
    hold a new array and leaves the handle stack and the scopes as before,
    and [Neon_Array_Length] of that persistent returns the length asked for
    when it is below [2^31], and 0 from there on, where the [uint32_t]
    reaches the host as a negative [int]; it leaves the state as it found
    it. *)
Theorem Neon_Array_Init_Length `{HostLimits} (st : State) (out : positive) (len : Z) :
  persistents_wf st → is_Some (persistents st !! out) →
  (0 ≤ len < 2 ^ 32)%Z → (0 ≤ FixedArray_kMaxLength)%Z →
  if (FixedArray_kMaxLength <? len)%Z && (len <? 2 ^ 31)%Z then
    Neon_Array_Init out len st = None
  else
    ∃ st1 arr,
      Neon_Array_Init out len st = Some (tt, st1) ∧
      heap st !! arr = None ∧
      holds out arr st1 ∧
      handles st1 = handles st ∧ scopes st1 = scopes st ∧
      Neon_Array_Length out st1 =
        Some (if (len <? 2 ^ 31)%Z then len else 0%Z, st1).
Proof.
  intros Hwf Hout Hlen Hmax.
  set (real := (if (0 <? int_of_uint32 len)%Z then int_of_uint32 len else 0%Z)).
  assert (Hreal : real = (if (len <? 2 ^ 31)%Z then len else 0%Z)).
  { subst real. unfold int_of_uint32.
    destruct (Z.ltb_spec len (2 ^ 31)); [|destruct (Z.ltb_spec 0 (len - 2 ^ 32)); lia].
    destruct (Z.ltb_spec 0 len); lia. }
  destruct ((FixedArray_kMaxLength <? len)%Z && (len <? 2 ^ 31)%Z) eqn:Hcase.
  { apply andb_true_iff in Hcase as [H1 H2].
    apply Z.ltb_lt in H1. rewrite H2 in Hreal.
    unfold Neon_Array_Init, with_HandleScope.
    erewrite bind_eq by (unfold HandleScope_open, bind, get_state, modify, ret; reflexivity).
    cbv beta. unfold bind at 1. unfold bind at 1.
    rewrite Array_New_too_long; [done|]. fold real. lia. }
  assert (Hfit : (real ≤ FixedArray_kMaxLength)%Z).
  { rewrite Hreal. apply andb_false_iff in Hcase as [H1|H2].
    - apply Z.ltb_ge in H1. destruct (len <? 2 ^ 31)%Z; lia.
    - by rewrite H2. }
  set (n := Z.to_nat real).
  set (arr := fresh (dom (heap st))).
  destruct (scoped_store st (<[arr := HArray (replicate n undefined_value)]> (heap st))
              [Some arr] (pending_exception st) out (length (handles st)) arr Hwf Hout)
    as (gl & ps & Hstore & Hh & _ & Hwf1); [apply lookup_snoc_length|].
  cbn in Hh, Hwf1.
  eexists _, arr. split.
  { unfold Neon_Array_Init.
    erewrite with_HandleScope_eq; [by rewrite scope_restored| |done].
    erewrite bind_eq by (apply Array_New_spec; [apply snoc_not_nil|exact Hfit]).
    cbv beta. exact Hstore. }
  split; [apply fresh_dom_None|]. split; [exact Hh|]. split; [done|]. split; [done|].
  destruct Hh as (g & Hp & Hg & _).
  unfold Neon_Array_Length. erewrite scoped_look; [| exact Hp | exact Hg |].
  - reflexivity.
  - cbv zeta. unfold Array_Length, deref, referent, bind, get_state, lift_option, ret.
    cbn. rewrite lookup_snoc_length. cbn. rewrite lookup_insert_eq.
    do 2 f_equal. rewrite length_replicate. subst n. rewrite <- Hreal.
    apply Z2Nat.id. rewrite Hreal. destruct (len <? 2 ^ 31)%Z; lia.
Qed.

(** X12. Reading one persistent twice, or two persistents, with
    [Neon_Mem_ReadPersistent] yields two different handles, each referring
    to the value its persistent holds; [Neon_Mem_SameHandle] on them is true
    exactly when the two values are one and the same. *)
Theorem Neon_Mem_ReadPersistent_SameHandle
    (st : State) (p q g1 g2 a b : positive) :
  persistents st !! p = Some (Some g1) → globals st !! g1 = Some (Some a) →
  persistents st !! q = Some (Some g2) → globals st !! g2 = Some (Some b) →
  scopes st ≠ [] →
  ∃ h1 h2 st1 st2,
    Neon_Mem_ReadPersistent p st = Some (h1, st1) ∧
    Neon_Mem_ReadPersistent q st1 = Some (h2, st2) ∧
    h1 ≠ h2 ∧
    referent st2 h1 = Some a ∧ referent st2 h2 = Some b ∧
    Neon_Mem_SameHandle h1 h2 st2 = Some (bool_decide (a = b), st2).
Proof.
  intros Hp Hg1 Hq Hg2 Hs.
  set (st1 := set_handles (λ hs, hs ++ [Some a]) st).
  set (st2 := set_handles (λ hs, hs ++ [Some b]) st1).
  exists (Some (length (handles st))), (Some (length (handles st1))), st1, st2.
  assert (H1 : referent st2 (Some (length (handles st))) = Some a).
  { cbn. rewrite lookup_app_l by (rewrite length_app; cbn; lia).
    by rewrite lookup_snoc_length. }
  assert (H2 : referent st2 (Some (length (handles st1))) = Some b).
  { cbn. by rewrite lookup_snoc_length. }
  split; [by eapply Nan_New_persistent_spec|].
  split; [by eapply Nan_New_persistent_spec|].
  split; [cbn; rewrite length_app; cbn; intros [=]; lia|].
  split; [done|]. split; [done|].
  by apply Local_eq_referents.
Qed.

Lemma ClassMetadata_GetTemplate_spec st mp md g ft :
  metadata st !! mp = Some md → persistents st !! template_ md = Some (Some g) →
  globals st !! g = Some (Some ft) → scopes st ≠ [] →
  ClassMetadata_GetTemplate mp st =
    Some (Some (length (handles st)), set_handles (λ hs, hs ++ [Some ft]) st).
Proof.
  intros Hmd Hp Hg Hs. unfold ClassMetadata_GetTemplate, metadata_at.
  erewrite bind_eq by (unfold bind, get_state, lift_option; rewrite Hmd; reflexivity).
  by eapply Nan_New_persistent_spec.
Qed.

Lemma ClassMetadata_SetName_spec st mp md slice :
  metadata st !! mp = Some md →
  ClassMetadata_SetName mp slice st =
    Some (tt, set_metadata (<[mp :=
      mk_BaseClassMetadata (construct_callback_ md) (construct_kernel_ md)
        (call_callback_ md) (call_kernel_ md) (allocate_callback_ md)
        (allocate_kernel_ md) (drop_instance_ md) (template_ md) slice]>) st).
Proof.
  intros Hmd. unfold ClassMetadata_SetName, metadata_at, bind, get_state, lift_option, modify.
  by rewrite Hmd.
Qed.

(** X8. [Neon_Class_SetName] and [Neon_Class_GetName].  For a class with
    its constructor template, a name of [byte_length < 2^31] bytes that lie
    in the buffer, and a scope open, [Neon_Class_SetName] returns whether the
    host can make a string of that length, and the class keeps its
    constructor template either way.  On success the class name of the
    template is a host string holding the bytes of the name, the other
    fields of the template are unchanged, and [Neon_Class_GetName] returns
    the buffer and the length that were passed.  On failure neither the heap
    nor the metadata has changed. *)
Theorem Neon_Class_SetName_GetName
    (st : State) (mp ft : positive) (cb : FunctionCallback) (d : positive)
    (cn pt it : option positive) (name : list Byte.byte) (byte_length : Z) :
  class_of st mp ft →
  heap st !! ft = Some (HFunctionTemplate cb d cn pt it) →
  scopes st ≠ [] →
  heap st !! empty_string = Some (HString []) →
  (0 ≤ byte_length ≤ Z.of_nat (length name))%Z → (byte_length < 2 ^ 31)%Z →
  ∃ st',
    Neon_Class_SetName mp name byte_length st
      = Some (Return (encodable st byte_length), st') ∧
    class_of st' mp ft ∧
    if encodable st byte_length then
      ∃ key,
        heap st' !! ft = Some (HFunctionTemplate cb d (Some key) pt it) ∧
        heap st' !! key = Some (HString (take (Z.to_nat byte_length) name)) ∧
        Neon_Class_GetName mp st' = Some ((name, byte_length), st')
    else
      heap st' = heap st ∧ metadata st' = metadata st.
Proof.
  intros Hclass Hft Hs Hroot Hlen Hint.
  pose proof Hclass as (md & g & cb' & d' & cn' & pt' & it' & Hmd & Hp & Hg & Hft' & Hpt).
  rewrite Hft in Hft'. symmetry in Hft'. simplify_eq.
  assert (Hrootft : empty_string ≠ ft) by (intros Heq; rewrite Heq, Hft in Hroot; done).
  set (st1 := set_handles (λ hs, hs ++ [Some ft]) st).
  unfold Neon_Class_SetName, encodable. rewrite int_of_uint32_small by done.
  erewrite bind_eq by (by eapply ClassMetadata_GetTemplate_spec). cbv beta. fold st1.
  assert (Hkeep : ∀ (h' : gmap positive HObject),
    (∀ p o, heap st !! p = Some o → p ≠ ft → h' !! p = Some o) →
    match pt with
    | Some p => ∃ props n, h' !! p = Some (HObjectTemplate props n)
    | None => True
    end).
  { intros h' Hh'. destruct pt as [p|]; [|done]. destruct Hpt as (props & n & Hprops).
    exists props, n. apply Hh'; [done|]. intros ->. rewrite Hft in Hprops. done. }
  destruct (decide (byte_length = 0%Z)) as [->|Hnz];
    [|destruct (decide (byte_length ≤ kMaxLength st)%Z) as [Hfit|Hlong]].
  - erewrite bind_eq by (by apply String_NewFromUtf8_empty). cbv beta iota.
    erewrite bind_eq; cycle 1.
    { eapply FunctionTemplate_SetClassName_spec with (ft := ft) (n := empty_string); cbn.
      - apply lookup_app_l_Some, lookup_snoc_length.
      - apply lookup_snoc_length', eq_refl.
      - exact Hft. }
    cbv beta. erewrite bind_eq by (by apply ClassMetadata_SetName_spec).
    eexists. split; [reflexivity|]. cbn [orb Z.eqb].
    split.
    { eexists _, g, cb, d, (Some empty_string), pt, it. cbn.
      split; [apply lookup_insert_eq|]. cbn.
      split; [done|]. split; [done|]. split; [apply lookup_insert_eq|].
      apply Hkeep. intros p o Hp' Hpf. by rewrite lookup_insert_ne. }
    exists empty_string. cbn. split; [apply lookup_insert_eq|].
    split; [by rewrite lookup_insert_ne|].
    unfold Neon_Class_GetName, ClassMetadata_GetName, metadata_at, bind, get_state,
      lift_option, ret. cbn. by rewrite lookup_insert_eq.
  - rewrite (proj2 (Z.leb_le byte_length (kMaxLength st))) by done. rewrite orb_true_r.
    erewrite bind_eq by (apply (String_NewFromUtf8_fits st1); [done|cbn; lia|lia]).
    cbv beta iota.
    set (key := fresh (dom (heap st))).
    assert (Hkf : key ≠ ft) by (by eapply fresh_dom_ne).
    erewrite bind_eq; cycle 1.
    { eapply FunctionTemplate_SetClassName_spec with (ft := ft) (n := key); cbn.
      - apply lookup_app_l_Some, lookup_snoc_length.
      - apply lookup_snoc_length', eq_refl.
      - rewrite lookup_insert_ne by done. exact Hft. }
    cbv beta. erewrite bind_eq by (by apply ClassMetadata_SetName_spec).
    eexists. split; [reflexivity|].
    split.
    { eexists _, g, cb, d, (Some key), pt, it. cbn.
      split; [apply lookup_insert_eq|]. cbn.
      split; [done|]. split; [done|]. split; [apply lookup_insert_eq|].
      apply Hkeep. intros p o Hp' Hpf. rewrite lookup_insert_ne by done.
      rewrite lookup_insert_ne; [done|]. by eapply fresh_dom_ne. }
    exists key. cbn. split; [apply lookup_insert_eq|].
    split; [rewrite lookup_insert_ne by done; apply lookup_insert_eq|].
    unfold Neon_Class_GetName, ClassMetadata_GetName, metadata_at, bind, get_state,
      lift_option, ret. cbn. by rewrite lookup_insert_eq.
  - rewrite (proj2 (Z.eqb_neq byte_length 0)) by done.
    rewrite (proj2 (Z.leb_gt byte_length (kMaxLength st))) by lia. cbn [orb].
    erewrite bind_eq by (apply (String_NewFromUtf8_too_long st1); [cbn; lia|done]).
    eexists. split; [reflexivity|]. split; [|done].
    exists md, g, cb, d, cn, pt, it. done.
Qed.
Lemma External_New_spec st value :
  scopes st ≠ [] →
  External_New value st =
    Some (Some (length (handles st)),
          set_handles (λ hs, hs ++ [Some (fresh (dom (heap st)))])
            (set_heap (<[fresh (dom (heap st)) := HExternal value]>) st)).
Proof.
  intros Hs. unfold External_New, heap_alloc, bind, get_state, modify, ret. cbn.
  by rewrite NewLocal_open.
Qed.

Lemma FunctionTemplate_New_spec st callback i d :
  scopes st ≠ [] → handles st !! i = Some (Some d) →
  FunctionTemplate_New callback (Some i) st =
    Some (Some (length (handles st)),
          set_handles (λ hs, hs ++ [Some (fresh (dom (heap st)))])
            (set_heap (<[fresh (dom (heap st)) :=
               HFunctionTemplate callback d None None None]>) st)).
Proof.
  intros Hs Hi. unfold FunctionTemplate_New, deref, heap_alloc, bind, get_state,
    lift_option, modify, ret. cbn. rewrite Hi. by rewrite NewLocal_open.
Qed.

(** X5. The closure of a function comes back to its callback.  With a
    scope open, [Neon_Fun_Template_New] returns true and a handle to a new
    template whose callback is the static callback and whose data is a new
    external value wrapping the dynamic callback; nothing that was in the
    heap changes.  Whenever the host calls that template, the static entry
    point runs on call information whose data is that wrapper; and from such
    call information [Neon_Call_InitData] stores the wrapper into a
    persistent from which [Neon_Fun_GetDynamicCallback] reads the dynamic
    callback, leaving the state as it found it. *)
Theorem Neon_Fun_Template_New_roundtrip `{NativeCode} (st : State) (callback : callback_t) :
  scopes st ≠ [] →
  ∃ st1 i ft w,
    Neon_Fun_Template_New callback st = Some ((true, Some i), st1) ∧
    referent st1 (Some i) = Some ft ∧
    heap st !! ft = None ∧ heap st !! w = None ∧
    heap st1 !! ft =
      Some (HFunctionTemplate (StaticCallback (static_callback callback)) w None None None) ∧
    heap st1 !! w = Some (HExternal (dynamic_callback callback)) ∧
    (∀ a o, heap st !! a = Some o → heap st1 !! a = Some o) ∧
    (∀ st2 is_construct_call this args,
       heap st2 !! ft = heap st1 !! ft →
       host_invoke ft is_construct_call this args st2 =
         static_entry (static_callback callback)
           (mk_FunctionCallbackInfo w is_construct_call this args) st2) ∧
    (∀ st2 info out,
       info_Data info = w → heap st2 !! w = heap st1 !! w →
       persistents_wf st2 → is_Some (persistents st2 !! out) →
       ∃ st3,
         Neon_Call_InitData info out st2 = Some (tt, st3) ∧
         holds out w st3 ∧
         Neon_Fun_GetDynamicCallback out st3 = Some (dynamic_callback callback, st3)).
Proof.
  intros Hs.
  set (w := fresh (dom (heap st))).
  set (h1 := <[w := HExternal (dynamic_callback callback)]> (heap st)).
  set (ft := fresh (dom h1)).
  assert (Hfw : ft ≠ w) by (eapply fresh_dom_ne, lookup_insert_eq).
  assert (Hft : heap st !! ft = None).
  { destruct (heap st !! ft) eqn:E; [|done]. exfalso.
    eapply (fresh_dom_ne h1 ft); [|done]. unfold h1. by rewrite lookup_insert_ne. }
  eexists _, _, ft, w. split.
  { unfold Neon_Fun_Template_New.
    erewrite bind_eq by (by apply External_New_spec). cbv beta iota.
    erewrite bind_eq
      by (apply FunctionTemplate_New_spec; [done|cbn; apply lookup_snoc_length]).
    cbv beta iota. reflexivity. }
  split; [cbn; by rewrite lookup_snoc_length|].
  split; [done|]. split; [apply fresh_dom_None|].
  split; [cbn; apply lookup_insert_eq|].
  split; [cbn; rewrite lookup_insert_ne by done; apply lookup_insert_eq|].
  split.
  { intros a o Ha. cbn.
    assert (ft ≠ a) by (intros Heq; rewrite <- Heq, Hft in Ha; done).
    assert (w ≠ a) by (by eapply fresh_dom_ne).
    by rewrite !lookup_insert_ne. }
  split.
  - intros st2 b this args Hsame. cbn in Hsame. rewrite lookup_insert_eq in Hsame.
    unfold host_invoke, bind, get_state. by rewrite Hsame.
  - intros st2 info out Hdata Hsame Hwf Hout. cbn in Hsame.
    rewrite lookup_insert_ne, lookup_insert_eq in Hsame by done.
    destruct (scoped_store_word st2 out w Hwf Hout)
      as (st3 & Hrun & Hh & _ & Hheap & _).
    exists st3. split; [unfold Neon_Call_InitData; by rewrite Hdata|].
    split; [exact Hh|].
    destruct Hh as (g & Hp & Hg & _).
    unfold Neon_Fun_GetDynamicCallback. erewrite scoped_look; [| exact Hp | exact Hg |].
    + reflexivity.
    + cbv zeta. unfold deref, External_Value, referent, bind, get_state, lift_option, ret.
      cbn. rewrite lookup_snoc_length. cbn. by rewrite Hheap, Hsame.
Qed.
(** ** The region of a scope *)

Lemma run_app ops1 : ∀ ops2 st,
  run (ops1 ++ ops2) st =
    match run ops1 st with
    | Some (_, st1) => run ops2 st1
    | None => None
    end.
Proof.
  induction ops1 as [|o ops1 IH]; intros ops2 st; cbn; [done|].
  unfold bind. destruct (step o st) as [[[] st']|]; [|done]. apply IH.
Qed.

Lemma keeps_open_mono n m ops : ∀ st,
  m ≤ n → keeps_open n ops st → keeps_open m ops st.
Proof.
  induction ops as [|o ops IH]; intros st Hmn Hk; cbn in *; [done|].
  destruct (step o st) as [[[] st']|]; [|done].
  destruct Hk as [Hk1 Hk2]. split; [lia|]. by apply IH.
Qed.

Lemma keeps_open_app n ops1 : ∀ ops2 st st1,
  keeps_open n (ops1 ++ ops2) st → run ops1 st = Some (tt, st1) →
  keeps_open n ops1 st ∧ keeps_open n ops2 st1.
Proof.
  induction ops1 as [|o ops1 IH]; intros ops2 st st1 Hk Hrun; cbn in *.
  - inv_M. done.
  - inv_M. destruct x. rewrite Hm in Hk |- *. destruct Hk as [Hk1 Hk2].
    destruct (IH _ _ _ Hk2 Hrun) as [H1 H2]. done.
Qed.

Lemma scopes_below_step n ss o st st' :
  scopes_below n ss st → length ss = n →
  step o st = Some (tt, st') → n ≤ length (scopes st') →
  scopes_below n ss st'.
Proof.
  unfold scopes_below. intros Hb Hn Hstep Hopen.
  assert (Hle : n ≤ length (scopes st)).
  { rewrite <- Hn, <- Hb, length_take. lia. }
  destruct o; unfold_shim Hstep; solve_M; cbn in *;
    repeat match goal with
    | H : scopes ?s = _ :: _ |- _ => rewrite <- H in *; clear H
    end; try done.
  - by rewrite take_app_le.
  - rewrite take_app_le; [done|].
    pose proof (f_equal length Hb) as HH. rewrite length_take in HH. lia.
  - rewrite length_take in Hopen. rewrite take_take.
    by replace (length ss `min` scope) with (length ss) by lia.
Qed.

Lemma scopes_wf_run ops : ∀ st st',
  scopes_wf st → run ops st = Some (tt, st') → scopes_wf st'.
Proof.
  induction ops as [|o ops IH]; intros st st' Hwf Hrun; cbn in Hrun; inv_M; [done|].
  destruct x. eapply IH; [|done]. by eapply scopes_wf_step.
Qed.

Lemma scopes_below_run n ss ops : ∀ st st',
  scopes_below n ss st → length ss = n → keeps_open n ops st →
  run ops st = Some (tt, st') → scopes_below n ss st'.
Proof.
  induction ops as [|o ops IH]; intros st st' Hb Hn Hk Hrun; cbn in *; inv_M; [done|].
  destruct x. rewrite Hm in Hk. destruct Hk as [Hk1 Hk2].
  eapply IH; [|done|done|done]. by eapply scopes_below_step.
Qed.

(** What a sequence of calls that keeps a scope open leaves of the state
    around it. *)
Lemma region_run st0 ss d ops st1 :
  scopes_wf st0 → scopes st0 = ss ++ [d] →
  keeps_open (S (length ss)) ops st0 → run ops st0 = Some (tt, st1) →
  scopes_wf st1 ∧
  take (S (length ss)) (scopes st1) = ss ++ [d] ∧
  ∀ i a, i < prev_next d → handles st0 !! i = Some (Some a) →
         handles st1 !! i = Some (Some a).
Proof.
  intros Hwf Hss Hk Hrun.
  split; [by eapply scopes_wf_run|]. split.
  - eapply (scopes_below_run (S (length ss)) (ss ++ [d])); [| |done|done].
    + unfold scopes_below. rewrite Hss. apply firstn_all2. rewrite length_app. cbn. lia.
    + rewrite length_app. cbn. lia.
  - intros i a Hi Ha.
    assert (He : escaped i a (length ss) st0).
    { split; [done|]. intros k d' Hk' Hd'. rewrite Hss in Hd'.
      destruct (decide (k = length ss)) as [->|Hne].
      - rewrite lookup_snoc_length in Hd'. by simplify_eq.
      - apply lookup_lt_Some in Hd'. rewrite length_app in Hd'. cbn in Hd'. lia. }
    eapply escaped_run in He; [apply He| |done].
    eapply keeps_open_mono; [|done]. lia.
Qed.

(** Closing the innermost scope of a well-formed state. *)
Lemma region_close st1 ss d :
  scopes_wf st1 → scopes st1 = ss ++ [d] →
  HandleScope_close (length ss) st1 =
    Some (tt, set_scopes (take (length ss)) (set_handles (take (prev_next d)) st1)) ∧
  take (length ss) (scopes st1) = ss ∧
  length (take (prev_next d) (handles st1)) = prev_next d.
Proof.
  intros [Hwf _] Hss. split; [by apply HandleScope_close_innermost|].
  split; [by rewrite Hss, take_app_length|].
  rewrite length_take. rewrite Hss in Hwf.
  destruct (scopes_nested_lookup _ _ _ (length ss) d Hwf (lookup_snoc_length _ _))
    as (_ & Hle & _). lia.
Qed.

(** X1. The scope discipline of [Neon_Scope_Nested], and of
    [Neon_Scope_Enter] with [Neon_Scope_Exit].  In a state with well-nested
    scopes a scope is entered, then any calls are made that keep that scope
    open and leave it innermost.  Then leaving the scope succeeds, and
    [Neon_Scope_Nested] run on those calls ends in the same state: the scopes
    are those before the entry, the handle stack is as high as before, every
    handle at or above that height (every handle made inside) refers to
    nothing, every handle of the caller that referred to a value still
    refers to it, and the heap, the globals and the persistents are as the
    calls left them. *)
Theorem Neon_Scope_Nested_releases
    (st st0 st1 : State) (sc : nat) (ops : list op) :
  scopes_wf st →
  Neon_Scope_Enter st = Some (sc, st0) →
  keeps_open (S sc) ops st0 →
  run ops st0 = Some (tt, st1) →
  length (scopes st1) = S sc →
  ∃ st2,
    Neon_Scope_Exit sc st1 = Some (tt, st2) ∧
    Neon_Scope_Nested (run ops) st = Some (tt, st2) ∧
    scopes st2 = scopes st ∧
    length (handles st2) = length (handles st) ∧
    (∀ i, length (handles st) ≤ i → referent st2 (Some i) = None) ∧
    (∀ i a, handles st !! i = Some (Some a) → handles st2 !! i = Some (Some a)) ∧
    heap st2 = heap st1 ∧ globals st2 = globals st1 ∧ persistents st2 = persistents st1.
Proof.
  intros Hwf Henter Hk Hrun Hlen.
  set (d := mk_ScopeData (length (handles st)) None).
  assert (sc = length (scopes st) ∧ st0 = set_scopes (λ ss, ss ++ [d]) st) as [-> ->].
  { unfold Neon_Scope_Enter, HandleScope_open in Henter. inv_M. done. }
  assert (Hwf0 : scopes_wf (set_scopes (λ ss, ss ++ [d]) st)).
  { eapply (scopes_wf_step OpScopeEnter st); [done|].
    unfold step, Neon_Scope_Enter, HandleScope_open, bind, get_state, modify, ret. done. }
  destruct (region_run _ (scopes st) d ops st1 Hwf0 eq_refl Hk Hrun)
    as (Hwf1 & Hbelow & Hkept).
  rewrite firstn_all2 in Hbelow by lia.
  destruct (region_close st1 (scopes st) d Hwf1 Hbelow) as (Hclose & Hss & Hhs).
  eexists. split; [exact Hclose|]. split.
  { unfold Neon_Scope_Nested, with_HandleScope.
    erewrite bind_eq by (unfold HandleScope_open, bind, get_state, modify, ret; reflexivity).
    cbv beta. erewrite bind_eq by exact Hrun. cbv beta.
    by erewrite bind_eq by exact Hclose. }
  cbn. split; [done|]. split; [done|].
  split; [|split; [|done]].
  - intros i Hi. rewrite lookup_ge_None_2; [done|]. cbn in Hhs. lia.
  - intros i a Ha. rewrite lookup_take_lt by (by eapply lookup_lt_Some).
    apply Hkept; [|done]. by eapply lookup_lt_Some.
Qed.
Lemma EscapableHandleScope_open_spec st :
  scopes st ≠ [] →
  EscapableHandleScope_open st =
    Some (length (scopes st),
          set_scopes (λ ss, ss ++ [mk_ScopeData (length (handles st ++ [None]))
                                     (Some (length (handles st)))])
            (set_handles (λ hs, hs ++ [None]) st)).
Proof.
  intros Hs. unfold EscapableHandleScope_open, CreateHandle, bind, get_state, modify, ret.
  destruct (scopes st) eqn:E; [done|]. cbn. by rewrite E.
Qed.

Lemma EscapableHandleScope_open_scoped st r :
  EscapableHandleScope_open st = Some r → scopes st ≠ [].
Proof.
  unfold EscapableHandleScope_open, CreateHandle, bind, get_state, modify, ret, fatal.
  by destruct (scopes st).
Qed.

Lemma Neon_Scope_Escape_inv st sc v d e a r st' :
  scopes st !! sc = Some d → escape_slot d = Some e → referent st v = Some a →
  Neon_Scope_Escape sc v st = Some (r, st') →
  st' = set_handles (<[e := Some a]>) st ∧ handles st !! e = Some None.
Proof.
  intros Hsc He Hv. destruct d as [pn es]. cbn in He. subst es.
  apply referent_Some in Hv as (i & -> & Hi).
  unfold Neon_Scope_Escape, EscapableHandleScope_Escape, read_slot, bind, get_state,
    lift_option, modify, ret, fatal.
  rewrite Hsc. destruct (handles st !! e) as [[x|]|]; [done| |done].
  rewrite Hi. by intros [= <- <-].
Qed.

(** X2. The scope discipline of [Neon_Scope_Chained], and of
    [Neon_Scope_Enter_Escapable] with [Neon_Scope_Exit_Escapable].  In a
    state with well-nested scopes an escapable scope is entered; calls are
    made, a handle that refers to a value is escaped through the scope, more
    calls are made, all of which keep the scope open and leave it innermost.
    Then leaving the scope succeeds and [Neon_Scope_Chained] run on the same
    calls ends in the same state: the scopes are those before the entry, the
    handle stack has grown by exactly one slot, that slot refers to the
    escaped value, every handle above it refers to nothing, and every handle
    of the caller that referred to a value still refers to it. *)
Theorem Neon_Scope_Chained_escapes
    (st st0 sta st1 : State) (sc : nat) (ops1 ops2 : list op) (v : Local) (a : positive) :
  scopes_wf st →
  Neon_Scope_Enter_Escapable st = Some (sc, st0) →
  keeps_open (S sc) (ops1 ++ OpScopeEscape sc v :: ops2) st0 →
  run ops1 st0 = Some (tt, sta) →
  referent sta v = Some a →
  run (OpScopeEscape sc v :: ops2) sta = Some (tt, st1) →
  length (scopes st1) = S sc →
  ∃ st2,
    Neon_Scope_Exit_Escapable sc st1 = Some (tt, st2) ∧
    Neon_Scope_Chained (λ scope, run (ops1 ++ OpScopeEscape scope v :: ops2)) st
      = Some (tt, st2) ∧
    scopes st2 = scopes st ∧
    length (handles st2) = S (length (handles st)) ∧
    referent st2 (Some (length (handles st))) = Some a ∧
    (∀ i, length (handles st) < i → referent st2 (Some i) = None) ∧
    (∀ i x, handles st !! i = Some (Some x) → handles st2 !! i = Some (Some x)) ∧
    heap st2 = heap st1.
Proof.
  intros Hwf Henter Hk Hrun1 Hv Hrun2 Hlen.
  unfold Neon_Scope_Enter_Escapable in Henter.
  pose proof (EscapableHandleScope_open_scoped _ _ Henter) as Hs.
  pose proof Henter as Henter'.
  rewrite EscapableHandleScope_open_spec in Henter' by done.
  set (e := length (handles st)) in *.
  set (d := mk_ScopeData (length (handles st ++ [None])) (Some e)) in *.
  injection Henter' as <- <-.
  assert (Hpn : prev_next d = S e) by (cbn; rewrite length_app; cbn; lia).
  set (st0 := set_scopes (λ ss, ss ++ [d]) (set_handles (λ hs, hs ++ [None]) st)) in *.
  assert (Hwf0 : scopes_wf st0).
  { eapply (scopes_wf_step OpScopeEnterEscapable st); [done|].
    unfold step, Neon_Scope_Enter_Escapable. by erewrite bind_eq by exact Henter. }
  assert (Hrun : run (ops1 ++ OpScopeEscape (length (scopes st)) v :: ops2) st0
                 = Some (tt, st1)) by (by rewrite run_app, Hrun1).
  destruct (keeps_open_app _ _ _ _ _ Hk Hrun1) as [Hk1 Hk2].
  destruct (region_run st0 (scopes st) d _ st1 Hwf0 eq_refl Hk Hrun)
    as (Hwf1 & Hbelow & Hkept).
  rewrite firstn_all2 in Hbelow by lia.
  destruct (region_run st0 (scopes st) d _ sta Hwf0 eq_refl Hk1 Hrun1)
    as (Hwfa & Hbelowa & _).
  assert (Hsca : scopes sta !! length (scopes st) = Some d).
  { rewrite <- (lookup_take_lt _ (S (length (scopes st)))) by lia.
    rewrite Hbelowa. apply lookup_snoc_length. }
  cbn [run] in Hrun2. apply bind_Some in Hrun2 as ([] & stb & Hstep & Hrun2).
  cbn [keeps_open] in Hk2. rewrite Hstep in Hk2. destruct Hk2 as [_ Hk2].
  assert (Hesc : ∃ r, Neon_Scope_Escape (length (scopes st)) v sta = Some (r, stb)).
  { unfold step in Hstep. apply bind_Some in Hstep as (r & st' & Hr & Hret).
    unfold ret in Hret. simplify_eq. by exists r. }
  destruct Hesc as [r Hesc].
  apply (Neon_Scope_Escape_inv _ _ _ d e a) in Hesc as [-> Hhole]; [|done..].
  assert (Hslot : escaped e a (length (scopes st)) (set_handles (<[e := Some a]>) sta)).
  { split.
    - cbn. apply list_lookup_insert_eq. by eapply lookup_lt_Some.
    - cbn. intros k d' Hk' Hd'.
      destruct (scopes_nested_lookup _ _ _ _ _ (proj1 Hwfa) Hsca) as (_ & _ & _ & Hmono).
      specialize (Hmono k d' Hk' Hd'). lia. }
  eapply escaped_run in Hslot; [|eapply keeps_open_mono; [|exact Hk2]; lia|exact Hrun2].
  destruct Hslot as [Hslot _].
  destruct (region_close st1 (scopes st) d Hwf1 Hbelow) as (Hclose & Hss & Hhs).
  eexists. split; [exact Hclose|]. split.
  { unfold Neon_Scope_Chained.
    erewrite bind_eq by exact Henter. cbv beta.
    erewrite bind_eq by exact Hrun. cbv beta.
    by erewrite bind_eq by exact Hclose. }
  unfold referent. cbn [scopes handles heap set_scopes set_handles].
  rewrite Hpn in Hhs |- *.
  split; [done|]. split; [done|].
  split; [|split; [|split; [|done]]].
  - rewrite lookup_take_lt by lia. by rewrite Hslot.
  - intros i Hi. rewrite lookup_ge_None_2; [done|]. fold e in Hi. lia.
  - intros i x Hx. pose proof (lookup_lt_Some _ _ _ Hx) as Hlt. fold e in Hlt.
    rewrite lookup_take_lt by lia.
    apply Hkept; [lia|]. cbn. by apply lookup_app_l_Some.
Qed.
(** ** No global node without an owner *)

Lemma owned_drop p st st' :
  owned st → Neon_Mem_DropPersistent p st = Some (tt, st') → owned st'.
Proof.
  intros Hown Hdrop.
  apply Neon_Mem_DropPersistent_inv in Hdrop as (v & Hv & _ & ->).
  intros g Hg. cbn in *.
  assert (Hlive : is_Some (globals st !! g)).
  { destruct v as [g0|]; [|done]. by apply lookup_delete_is_Some in Hg as [_ ?]. }
  destruct (Hown g Hlive) as [q Hq]. exists q.
  rewrite lookup_delete_ne; [done|]. intros ->.
  rewrite Hv in Hq. injection Hq as ->.
  rewrite lookup_delete_eq in Hg. by destruct Hg.
Qed.

Lemma owned_step o st st' :
  owned st →
  match o with
  | OpNewPersistent out => ∀ g, persistents st !! out ≠ Some (Some g)
  | _ => True
  end →
  step o st = Some (tt, st') → owned st'.
Proof.
  intros Hown Hnew Hstep.
  destruct o; try (by eapply owned_drop);
    unfold_shim Hstep; solve_M; cbn in *; try done.
  all: intros g Hg; cbn in *.
  all: repeat match goal with
       | H : is_Some (<[?k := _]> _ !! ?g) |- _ =>
           destruct (decide (k = g)) as [<-|?];
           [ clear H | rewrite lookup_insert_ne in H by done ]
       | H : is_Some (delete ?k _ !! ?g) |- _ =>
           destruct (decide (k = g)) as [<-|?];
           [ rewrite lookup_delete_eq in H; by destruct H
           | rewrite lookup_delete_ne in H by done ]
       end.
  all: try (eexists; apply lookup_insert_eq).
  all: destruct (Hown g Hg) as [q Hq]; exists q.
  all: rewrite ?lookup_insert_ne; try done.
  all: try (intros ->; congruence).
  all: try (intros ->; by eapply Hnew).
Qed.

Lemma owned_run ops : ∀ st st',
  owned st → constructs_over_empty ops st → run ops st = Some (tt, st') → owned st'.
Proof.
  induction ops as [|o ops IH]; intros st st' Hown Hc Hrun; cbn in *; inv_M; [done|].
  destruct x. rewrite Hm in Hc. destruct Hc as [Hc1 Hc2].
  eapply IH; [|done|done]. by eapply owned_step.
Qed.

(** X10. No global node is leaked.  If every live global node belongs to
    a persistent, and no persistent is constructed over one that holds a
    node, then after any sequence of calls into the scope and persistent
    functions every live global node still belongs to a persistent; and
    once every persistent is empty no global node is left. *)
Theorem Neon_Mem_no_leak (st st' : State) (ops : list op) :
  owned st → constructs_over_empty ops st → run ops st = Some (tt, st') →
  owned st' ∧
  ((∀ p v, persistents st' !! p = Some v → v = None) → globals st' = ∅).
Proof.
  intros Hown Hc Hrun. pose proof (owned_run _ _ _ Hown Hc Hrun) as Hown'.
  split; [done|]. intros Hempty. apply map_empty. intros g.
  destruct (globals st' !! g) as [w|] eqn:Hg; [|done].
  destruct (Hown' g) as [p Hp]; [by rewrite Hg|].
  by specialize (Hempty p _ Hp).
Qed.

(** X13. What [Neon_Class_CreateBase] makes.  With a scope open it returns
    a new metadata object; the heap gains an external value wrapping it, a
    constructor template whose callback is [Neon_Class_ConstructBaseCallback]
    and whose data is that wrapper, with no class name and no prototype
    template yet, and its instance template, which has no property and
    exactly one internal field; nothing that was in the heap changes.  The
    function opens no scope of its own: the scopes are those of the caller,
    every handle of the caller is kept, and the handles made on the way stay
    in the scope of the caller.  The pending exception is untouched and the
    new class has no method. *)
Theorem Neon_Class_CreateBase_templates
    (st : State) (allocate construct call : callback_t) (drop : positive) :
  scopes st ≠ [] →
  ∃ st1 mp ft data it,
    Neon_Class_CreateBase allocate construct call drop st = Some (mp, st1) ∧
    metadata st !! mp = None ∧
    heap st1 !! data = Some (HExternal mp) ∧
    heap st1 !! ft =
      Some (HFunctionTemplate ConstructBaseCallback data None None (Some it)) ∧
    heap st1 !! it = Some (HObjectTemplate [] 1) ∧
    (∀ a o, heap st !! a = Some o → heap st1 !! a = Some o) ∧
    (∀ i x, handles st !! i = Some x → handles st1 !! i = Some x) ∧
    length (handles st) < length (handles st1) ∧
    scopes st1 = scopes st ∧
    pending_exception st1 = pending_exception st ∧
    prototype_properties st1 ft = [].
Proof.
  intros Hs. destruct (scopes st) as [|s0 ss] eqn:Hsc; [done|].
  unfold Neon_Class_CreateBase, new_BaseClassMetadata, External_New, FunctionTemplate_New,
    ClassMetadata_SetTemplate, metadata_at, FunctionTemplate_InstanceTemplate,
    ObjectTemplate_SetInternalFieldCount, Persistent_Reset_to, Persistent_Reset,
    persistent_val, set_persistent_val, GlobalizeReference, DisposeGlobal, deref,
    heap_alloc, NewLocal, CreateHandle, read_slot.
  unfold bind, get_state, lift_option, modify, ret. cbn.
  repeat first
    [ rewrite lookup_snoc_length
    | rewrite lookup_insert_eq
    | rewrite Hsc
    | rewrite lookup_app_r by (rewrite ?length_app; cbn; lia)
    | rewrite lookup_insert_ne
        by (let Heq := fresh in
            intros Heq; symmetry in Heq; revert Heq;
            eapply fresh_dom_ne, lookup_insert_eq)
    | progress cbn ].
  set (data := fresh (dom (heap st))).
  set (mp := fresh (dom (metadata st))).
  set (h1 := <[data := HExternal mp]> (heap st)).
  set (ft := fresh (dom h1)).
  set (h2 := <[ft := HFunctionTemplate ConstructBaseCallback data None None None]> h1).
  set (it := fresh (dom h2)).
  assert (Hfd : ft ≠ data) by (eapply fresh_dom_ne, lookup_insert_eq).
  assert (Hif : it ≠ ft) by (eapply fresh_dom_ne, lookup_insert_eq).
  assert (Hid : it ≠ data).
  { eapply fresh_dom_ne. unfold h2. rewrite lookup_insert_ne by done.
    apply lookup_insert_eq. }
  eexists _, mp, ft, data, it. split; [reflexivity|]. cbn.
  split; [apply fresh_dom_None|].
  split; [rewrite !lookup_insert_ne by done; apply lookup_insert_eq|].
  split; [rewrite lookup_insert_ne by done; apply lookup_insert_eq|].
  split; [apply lookup_insert_eq|].
  split; [|split; [|split; [|split; [done|split; [done|]]]]].
  2:{ intros i x Hi. by do 3 apply lookup_app_l_Some. }
  2:{ rewrite !length_app. cbn. lia. }
  2:{ unfold prototype_properties. cbn. rewrite lookup_insert_ne by done.
      by rewrite lookup_insert_eq. }
  intros a o Ha.
  assert (data ≠ a) by (by eapply fresh_dom_ne).
  assert (Ha1 : h1 !! a = Some o) by (unfold h1; by rewrite lookup_insert_ne).
  assert (ft ≠ a) by (by eapply fresh_dom_ne).
  assert (Ha2 : h2 !! a = Some o) by (unfold h2; by rewrite lookup_insert_ne).
  assert (it ≠ a) by (by eapply fresh_dom_ne).
  fold h1. fold h2. fold it.
  rewrite !lookup_insert_ne by done. exact Ha2.
Qed.

(** ** Tags *)

Lemma tag_of_held test st val g a o :
  persistents st !! val = Some (Some g) → globals st !! g = Some (Some a) →
  heap st !! a = Some o →
  with_HandleScope (local <~ Nan_New_persistent val ;; Value_Is test local) st
    = Some (test o, st).
Proof.
  intros Hp Hg Ha. eapply scoped_look; [exact Hp|exact Hg|].
  cbv zeta. unfold Value_Is, deref, referent, bind, get_state, lift_option, ret.
  cbn. rewrite lookup_snoc_length. cbn. by rewrite Ha.
Qed.

Lemma tag_of_handle test st h a o :
  referent st h = Some a → heap st !! a = Some o →
  Value_Is test h st = Some (test o, st).
Proof.
  intros Hh Ha. unfold Value_Is, deref, bind, get_state, lift_option, ret.
  rewrite Hh. by rewrite Ha.
Qed.

(** X14. The tag tests on a persistent agree with the tag tests on a
    handle.  For a persistent holding a value, [Neon_Tag_IsUndefinedThin],
    [Neon_Tag_IsObjectThin], [Neon_Tag_IsString], [Neon_Tag_IsArray] and
    [Neon_Tag_IsError] return the test of the host on that value and leave
    the state exactly as it was; [Neon_Tag_IsUndefined] and
    [Neon_Tag_IsObject] on a handle read from the persistent return the same
    answers as their counterparts on the persistent. *)
Theorem Neon_Tag_Thin_agrees (st : State) (val g a : positive) (o : HObject) :
  persistents st !! val = Some (Some g) → globals st !! g = Some (Some a) →
  heap st !! a = Some o → scopes st ≠ [] →
  ∃ h st1,
    Neon_Mem_ReadPersistent val st = Some (h, st1) ∧
    Neon_Tag_IsUndefined h st1 = Some (is_undefined o, st1) ∧
    Neon_Tag_IsUndefinedThin val st = Some (is_undefined o, st) ∧
    Neon_Tag_IsObject h st1 = Some (is_object o, st1) ∧
    Neon_Tag_IsObjectThin val st = Some (is_object o, st) ∧
    Neon_Tag_IsString val st = Some (is_string o, st) ∧
    Neon_Tag_IsArray val st = Some (is_array o, st) ∧
    Neon_Tag_IsError val st = Some (is_native_error o, st).
Proof.
  intros Hp Hg Ha Hs.
  eexists _, _. split; [by eapply Nan_New_persistent_spec|].
  assert (Hh : referent (set_handles (λ hs, hs ++ [Some a]) st)
                 (Some (length (handles st))) = Some a).
  { cbn. by rewrite lookup_snoc_length. }
  split; [by eapply tag_of_handle|].
  split; [by eapply tag_of_held|].
  split; [by eapply tag_of_handle|].
  split; [by eapply tag_of_held|].
  split; [by eapply tag_of_held|].
  split; by eapply tag_of_held.
Qed.
(** ** Properties of objects by name *)

Lemma Neon_ASCII_Key_spec st data len :
  scopes st ≠ [] → heap st !! empty_string = Some (HString []) →
  (0 ≤ len ≤ Z.of_nat (length data))%Z →
  if encodable st len then
    ∃ key h',
      Neon_ASCII_Key data len st =
        Some ((true, Some (length (handles st))),
              set_handles (λ hs, hs ++ [Some key]) (set_heap (λ _, h') st)) ∧
      h' !! key = Some (HString (take (Z.to_nat len) data)) ∧
      (∀ a x, heap st !! a = Some x → h' !! a = Some x)
  else Neon_ASCII_Key data len st = Some ((false, None), st).
Proof.
  intros Hs Hroot Hlen. unfold encodable, Neon_ASCII_Key.
  destruct (Z.eqb_spec len 0) as [->|Hne]; cbn [orb].
  - exists empty_string, (heap st).
    split; [|done].
    erewrite bind_eq by (by apply String_NewFromUtf8_empty). cbv beta iota.
    unfold ret. by do 2 f_equal.
  - destruct (Z.leb_spec len (kMaxLength st)) as [Hfit|Hlong].
    + eexists (fresh (dom (heap st))), _. split; [|split].
      * erewrite bind_eq by (apply String_NewFromUtf8_fits; [done|lia|lia]).
        cbv beta iota. reflexivity.
      * apply lookup_insert_eq.
      * intros a x Ha. rewrite lookup_insert_ne; [done|]. by eapply fresh_dom_ne.
    + by erewrite bind_eq by (apply String_NewFromUtf8_too_long; [lia|done]).
Qed.

Lemma EscapableHandleScope_Escape_spec st sc pn e i w :
  scopes st !! sc = Some (mk_ScopeData pn (Some e)) →
  handles st !! e = Some None → handles st !! i = Some w →
  EscapableHandleScope_Escape sc (Some i) st =
    Some (Some e, set_handles (<[e := w]>) st).
Proof.
  intros Hsc He Hi.
  unfold EscapableHandleScope_Escape, read_slot, bind, get_state, lift_option, modify, ret.
  by rewrite Hsc, He, Hi.
Qed.

Lemma take_escaped {A} (hs rest : list A) (x y : A) :
  take (length (hs ++ [x])) (<[length hs := y]> ((hs ++ [x]) ++ rest)) = hs ++ [y].
Proof.
  rewrite take_insert_lt by (rewrite length_app; cbn; lia).
  rewrite take_app_length.
  rewrite insert_app_r_alt by lia. rewrite Nat.sub_diag. done.
Qed.

Lemma Nan_Get_spec `{HostObjects} st i j o k r sg :
  handles st !! i = Some (Some o) → handles st !! j = Some (Some k) →
  Object_Get o k st = Some (r, sg) → scopes sg ≠ [] →
  Nan_Get (Some i) (Some j) st =
    match r with
    | Some v => Some (Some (length (handles sg)), set_handles (λ hs, hs ++ [Some v]) sg)
    | None => Some (None, sg)
    end.
Proof.
  intros Hi Hj Hr Hs. unfold Nan_Get, deref, referent, bind, get_state, lift_option.
  rewrite Hi, Hj, Hr. destruct r; [by apply NewLocal_open|done].
Qed.

(** X15. [Neon_Object_Get_String] uses exactly one slot of the scope of
    the caller.  For a host whose property access returns with the handle
    stack and the scopes as it found them, a handle [obj] that refers to an
    object, and [len] bytes that lie in the buffer, the function returns;
    the scopes are as before and the handle stack has grown by one slot.
    When the host cannot make a string of that length the function returns
    false without asking the host for the property: the slot holds the hole
    and neither the heap nor the pending exception has changed.  Otherwise
    the host was asked once, for a key that is a string of those bytes; the
    function returns true exactly when the host produced a value, [out] is
    then the new slot and the slot refers to that value; when the host
    threw, the slot holds the hole and [out] is not written. *)
Theorem Neon_Object_Get_String_slot `{HostObjects}
    (st : State) (obj : Local) (o : positive) (data : list Byte.byte) (len : Z) :
  host_balanced →
  scopes st ≠ [] → referent st obj = Some o →
  heap st !! empty_string = Some (HString []) →
  (0 ≤ len ≤ Z.of_nat (length data))%Z →
  ∃ b out st' w,
    Neon_Object_Get_String obj data len st = Some ((b, out), st') ∧
    scopes st' = scopes st ∧
    handles st' = handles st ++ [w] ∧
    out = (if b then Some (length (handles st)) else None) ∧
    (if encodable st len then
       ∃ key sk sg,
         heap sk !! key = Some (HString (take (Z.to_nat len) data)) ∧
         (∀ a x, heap st !! a = Some x → heap sk !! a = Some x) ∧
         Object_Get o key sk = Some (w, sg) ∧
         heap st' = heap sg ∧
         b = bool_decide (is_Some w)
     else b = false ∧ w = None ∧ heap st' = heap st ∧
          pending_exception st' = pending_exception st).
Proof.
  intros [Hget _] Hs Hobj Hroot Hlen.
  apply referent_Some in Hobj as (i & -> & Hi).
  set (e := length (handles st)).
  set (d := mk_ScopeData (length (handles st ++ [None])) (Some e)).
  set (st0 := set_scopes (λ ss, ss ++ [d]) (set_handles (λ hs, hs ++ [None]) st)).
  assert (Hopen : EscapableHandleScope_open st = Some (length (scopes st), st0))
    by (by apply EscapableHandleScope_open_spec).
  assert (Hs0 : scopes st0 ≠ []) by apply snoc_not_nil.
  unfold Neon_Object_Get_String, with_EscapableHandleScope.
  erewrite bind_eq by exact Hopen. cbv beta.
  pose proof (Neon_ASCII_Key_spec st0 data len Hs0 Hroot Hlen) as Hkey.
  change (encodable st0 len) with (encodable st len) in Hkey.
  destruct (encodable st len).
  - destruct Hkey as (key & h' & Hkey & Hk1 & Hk2).
    set (sk := set_handles (λ hs, hs ++ [Some key]) (set_heap (λ _, h') st0)) in *.
    destruct (Hget o key sk) as (r & sg & Hr & Hhs & Hss).
    assert (Hnan : Nan_Get (Some i) (Some (length (handles st0))) sk =
              match r with
              | Some v => Some (Some (length (handles sg)),
                                set_handles (λ hs, hs ++ [Some v]) sg)
              | None => Some (None, sg)
              end).
    { apply (Nan_Get_spec sk i _ o key); [| |done|rewrite Hss; apply snoc_not_nil].
      - cbn. by do 2 apply lookup_app_l_Some.
      - cbn. apply lookup_snoc_length. }
    destruct r as [v|].
    + erewrite bind_eq; cycle 1.
      { erewrite bind_eq by exact Hkey. cbv beta. cbn [fst snd negb].
        erewrite bind_eq by exact Hnan. cbv beta iota.
        erewrite bind_eq; [reflexivity|].
        apply (EscapableHandleScope_Escape_spec _ _ (length (handles st ++ [None])) e
                 _ (Some v)).
        - cbn. rewrite Hss. apply lookup_snoc_length.
        - cbn. rewrite Hhs. cbn.
          do 2 (rewrite lookup_app_l by (rewrite ?length_app; cbn; lia)).
          apply lookup_snoc_length.
        - cbn. apply lookup_snoc_length. }
      cbv beta.
      erewrite bind_eq by (apply (HandleScope_close_innermost _ (scopes st) d); cbn;
                           by rewrite Hss).
      eexists true, _, _, (Some v). split; [reflexivity|].
      cbn. rewrite Hss, Hhs. cbn. rewrite take_app_length.
      split; [done|]. split.
      { rewrite <- (assoc_L (++) _ [Some key] [Some v]). apply take_escaped. }
      split; [done|].
      exists key, sk, sg. split; [done|]. split; [done|]. split; [done|]. split; [done|].
      done.
    + erewrite bind_eq; cycle 1.
      { erewrite bind_eq by exact Hkey. cbv beta. cbn [fst snd negb].
        erewrite bind_eq by exact Hnan. cbv beta iota. reflexivity. }
      cbv beta.
      erewrite bind_eq by (apply (HandleScope_close_innermost _ (scopes st) d); by rewrite Hss).
      eexists false, _, _, None. split; [reflexivity|].
      cbn. rewrite Hss, Hhs. cbn. rewrite take_app_length.
      split; [done|]. split; [by rewrite take_app_length|]. split; [done|].
      exists key, sk, sg. split; [done|]. split; [done|]. split; [done|]. split; [done|].
      done.
  - erewrite bind_eq; cycle 1.
    { erewrite bind_eq by exact Hkey. cbv beta. cbn [fst snd negb]. reflexivity. }
    cbv beta.
    erewrite bind_eq by (by apply (HandleScope_close_innermost _ (scopes st) d)).
    eexists false, _, _, None. split; [reflexivity|].
    cbn. by rewrite take_app_length, firstn_all.
Qed.

Lemma Nan_Set_spec `{HostObjects} st i j l o k v :
  handles st !! i = Some (Some o) → handles st !! j = Some (Some k) →
  handles st !! l = Some (Some v) →
  Nan_Set (Some i) (Some j) (Some l) st = Object_Set o k v st.
Proof.
  intros Hi Hj Hl. unfold Nan_Set, deref, referent, bind, get_state, lift_option.
  by rewrite Hi, Hj, Hl.
Qed.

(** X16. [Neon_Object_Set_String] leaves the handle stack and the scopes
    as it found them, for a host whose property access does.  It returns
    true exactly when it wrote [out].  When the host cannot make a string of
    [len] bytes it returns false and the state is exactly the one it started
    from; otherwise the host was asked once to set the property, under a key
    that is a string of those bytes, to the value [val] refers to, and what
    is written to [out] is what the host answered. *)
Theorem Neon_Object_Set_String_balanced `{HostObjects}
    (st : State) (obj val : Local) (o v : positive) (data : list Byte.byte) (len : Z) :
  host_balanced →
  referent st obj = Some o → referent st val = Some v →
  heap st !! empty_string = Some (HString []) →
  (0 ≤ len ≤ Z.of_nat (length data))%Z →
  ∃ b out st',
    Neon_Object_Set_String obj data len val st = Some ((b, out), st') ∧
    scopes st' = scopes st ∧ handles st' = handles st ∧
    b = bool_decide (is_Some out) ∧
    (if encodable st len then
       ∃ key sk sg,
         heap sk !! key = Some (HString (take (Z.to_nat len) data)) ∧
         (∀ a x, heap st !! a = Some x → heap sk !! a = Some x) ∧
         Object_Set o key v sk = Some (out, sg) ∧
         heap st' = heap sg
     else out = None ∧ st' = st).
Proof.
  intros [_ Hset] Hobj Hval Hroot Hlen.
  apply referent_Some in Hobj as (i & -> & Hi).
  apply referent_Some in Hval as (l & -> & Hl).
  set (d := mk_ScopeData (length (handles st)) None).
  set (st0 := set_scopes (λ ss, ss ++ [d]) st).
  assert (Hs0 : scopes st0 ≠ []) by apply snoc_not_nil.
  pose proof (Neon_ASCII_Key_spec st0 data len Hs0 Hroot Hlen) as Hkey.
  change (encodable st0 len) with (encodable st len) in Hkey.
  unfold Neon_Object_Set_String.
  destruct (encodable st len).
  - destruct Hkey as (key & h' & Hkey & Hk1 & Hk2).
    set (sk := set_handles (λ hs, hs ++ [Some key]) (set_heap (λ _, h') st0)) in *.
    destruct (Hset o key v sk) as (r & sg & Hr & Hhs & Hss).
    assert (Hnan : Nan_Set (Some i) (Some (length (handles st0))) (Some l) sk = Some (r, sg)).
    { rewrite <- Hr. apply Nan_Set_spec; cbn.
      - by apply lookup_app_l_Some.
      - apply lookup_snoc_length.
      - by apply lookup_app_l_Some. }
    erewrite (with_HandleScope_eq _ st (bool_decide (is_Some r), r) sg).
    + eexists _, _, _. split; [reflexivity|]. cbn. rewrite Hss, Hhs. cbn.
      rewrite !take_app_length. split; [done|]. split; [done|]. split; [done|].
      by exists key, sk, sg.
    + erewrite bind_eq by exact Hkey. cbv beta. cbn [fst snd negb].
      erewrite bind_eq by exact Hnan. by destruct r.
    + by rewrite Hss.
  - erewrite (with_HandleScope_eq _ st (false, None) st0).
    + eexists _, _, _. split; [reflexivity|].
      rewrite scope_restored_same. done.
    + by erewrite bind_eq by exact Hkey.
    + done.
Qed.

(** ** Invariants and edges of the scope and handle system *)

(** X17. Well-formedness is an invariant of the scope and persistent
    functions: from a state whose scopes are nested and whose persistents
    each own a live global node, any sequence of calls to
    [Neon_Scope_Enter], [Neon_Scope_Enter_Escapable], [Neon_Scope_Exit],
    [Neon_Scope_Escape], [Neon_Object_New], [Neon_Mem_NewPersistent],
    [Neon_Mem_DropPersistent], [Neon_Mem_ReadPersistent] and
    [Neon_Mem_ResetPersistent] that returns leads to such a state. *)
Theorem scope_and_persistent_calls_keep_wf (st st' : State) (ops : list op) :
  wf st → run ops st = Some (tt, st') → wf st'.
Proof. apply wf_run. Qed.

(** X18. [Neon_Mem_DropPersistent] releases its own node and nothing
    else, and ends the persistent.  In a state whose persistents own their
    nodes, dropping a persistent that lives at [p] succeeds; afterwards no
    persistent lives at [p] and the others are those of before; the global
    nodes are those of before without the node it held, and all of them when
    it held none; the heap, the handle stack and the scopes are unchanged;
    every other persistent holds what it held. *)
Theorem Neon_Mem_DropPersistent_releases
    (st : State) (p : positive) (v : option positive) :
  persistents_wf st → persistents st !! p = Some v →
  ∃ st1,
    Neon_Mem_DropPersistent p st = Some (tt, st1) ∧
    persistents st1 = delete p (persistents st) ∧
    globals st1 = match v with
                  | Some g => delete g (globals st)
                  | None => globals st
                  end ∧
    heap st1 = heap st ∧ handles st1 = handles st ∧ scopes st1 = scopes st ∧
    persistents_wf st1 ∧
    (∀ q b, q ≠ p → holds q b st → holds q b st1).
Proof.
  intros Hwf Hp.
  destruct (Neon_Mem_DropPersistent_total st p Hwf) as [st1 Hdrop]; [by eexists|].
  exists st1. split; [done|].
  pose proof (persistents_wf_drop _ _ _ Hwf Hdrop) as Hwf1.
  assert (Hothers : ∀ q b, q ≠ p → holds q b st → holds q b st1).
  { intros q b Hq Hh. by eapply (holds_drop q b p st). }
  apply Neon_Mem_DropPersistent_inv in Hdrop as (v' & Hv' & _ & ->).
  rewrite Hp in Hv'. injection Hv' as <-. done.
Qed.

(** X19. A scope lets one value escape.  After [Neon_Scope_Escape] has
    returned for a handle that refers to a value, and whatever calls follow
    that keep the scope open, a second [Neon_Scope_Escape] through the same
    scope is fatal, whatever handle it is given. *)
Theorem Neon_Scope_Escape_once
    (st st1 st2 : State) (sc : nat) (v v' r : Local) (a : positive) (ops : list op) :
  scopes_wf st → referent st v = Some a →
  Neon_Scope_Escape sc v st = Some (r, st1) →
  keeps_open (S sc) ops st1 → run ops st1 = Some (tt, st2) →
  Neon_Scope_Escape sc v' st2 = None.
Proof.
  intros Hwf Hv Hesc Hk Hrun.
  assert (∃ d e, scopes st !! sc = Some d ∧ escape_slot d = Some e) as (d & e & Hsc & He).
  { revert Hesc. unfold Neon_Scope_Escape, EscapableHandleScope_Escape, bind, get_state.
    destruct (scopes st !! sc) as [[pn [e|]]|]; [|done|done]. by exists (mk_ScopeData pn (Some e)), e. }
  destruct (Neon_Scope_Escape_inv _ _ _ _ _ _ _ _ Hsc He Hv Hesc) as [-> Hhole].
  set (st1 := set_handles (<[e := Some a]>) st) in *.
  destruct (scopes_nested_lookup _ _ _ _ _ (proj1 Hwf) Hsc) as (_ & _ & Hlt & Hmono).
  specialize (Hlt e He).
  assert (Hslot : escaped e a sc st1).
  { split.
    - cbn. apply list_lookup_insert_eq. by eapply lookup_lt_Some.
    - cbn. intros k d' Hk' Hd'. specialize (Hmono k d' Hk' Hd'). lia. }
  eapply escaped_run in Hslot; [|eapply keeps_open_mono; [|exact Hk]; lia|exact Hrun].
  destruct Hslot as [Hslot _].
  pose proof (lookup_lt_Some _ _ _ Hsc) as Hlen.
  assert (Hbelow : scopes_below (S sc) (take (S sc) (scopes st)) st2).
  { eapply (scopes_below_run (S sc) _ ops st1); [done| |done|done].
    rewrite length_take. lia. }
  assert (Hsc2 : scopes st2 !! sc = Some d).
  { rewrite <- (lookup_take_lt _ (S sc)) by lia. unfold scopes_below in Hbelow.
    rewrite Hbelow. rewrite lookup_take_lt by lia. done. }
  unfold Neon_Scope_Escape, EscapableHandleScope_Escape, read_slot, bind, get_state,
    lift_option. rewrite Hsc2. destruct d as [pn es]. cbn in He. subst es.
  by rewrite Hslot.
Qed.

(** ** Failing paths and empty handles *)

(** X20. The failing path of [Neon_Object_GetOwnPropertyNames].  When the
    persistent holds an object whose enumeration of own keys throws, the
    function returns false; the exception thrown is pending and nothing else
    of the state has changed: [out] is not written, and the scope is closed
    and the handle released. *)
Theorem Neon_Object_GetOwnPropertyNames_fails
    (st : State) (out obj g a thrown : positive) :
  persistents st !! obj = Some (Some g) →
  globals st !! g = Some (Some a) →
  heap st !! a = Some (HProxy (inr thrown)) →
  Neon_Object_GetOwnPropertyNames out obj st
    = Some (Return false, set_pending (Some thrown) st).
Proof.
  intros Hobj Hg Ha. unfold Neon_Object_GetOwnPropertyNames.
  set (d := mk_ScopeData (length (handles st)) None).
  erewrite (with_HandleScope_eq _ st (Return false)
    (mk_State (heap st) (handles st ++ [Some a]) (scopes st ++ [d]) (globals st)
       (persistents st) (metadata st) (Some thrown) (kMaxLength st))).
  - rewrite scope_restored. by destruct st.
  - erewrite bind_eq by (by eapply Nan_New_persistent_spec; [| |apply snoc_not_nil]).
    cbv beta. erewrite bind_eq; cycle 1.
    { unfold Nan_GetOwnPropertyNames, deref, bind, get_state, lift_option, modify, ret.
      cbn. rewrite lookup_snoc_length. cbn. rewrite Ha. reflexivity. }
    reflexivity.
  - done.
Qed.

(** X21. [Neon_Mem_ResetPersistent] with the empty handle releases the
    node and leaves the persistent alive and empty.  In a state whose
    persistents own their nodes, on a persistent that lives at [p], it
    succeeds; the persistent is empty and the others are unchanged; the
    global nodes are those of before without the node it held; the heap, the
    handle stack and the scopes are unchanged; [Neon_Mem_ReadPersistent]
    then returns the empty handle and leaves the state alone.
    [Neon_Mem_DropPersistent] on the same state does the same and, on top,
    ends the persistent. *)
Theorem Neon_Mem_ResetPersistent_empty_handle
    (st : State) (p : positive) (v : option positive) :
  persistents_wf st → persistents st !! p = Some v →
  ∃ st1,
    Neon_Mem_ResetPersistent p None st = Some (tt, st1) ∧
    persistents st1 = <[p := None]> (persistents st) ∧
    globals st1 = match v with
                  | Some g => delete g (globals st)
                  | None => globals st
                  end ∧
    heap st1 = heap st ∧ handles st1 = handles st ∧ scopes st1 = scopes st ∧
    persistents_wf st1 ∧
    Neon_Mem_ReadPersistent p st1 = Some (None, st1) ∧
    Neon_Mem_DropPersistent p st = Some (tt, set_persistents (delete p) st1).
Proof.
  intros Hwf Hp.
  unfold Neon_Mem_ResetPersistent, Neon_Mem_DropPersistent, Persistent_Reset_to,
    Persistent_destroy, Persistent_Reset, persistent_val, DisposeGlobal,
    set_persistent_val, bind, get_state, lift_option, modify, ret.
  rewrite Hp. destruct v as [g|].
  - destruct (proj1 Hwf p g Hp) as [w Hw]. rewrite Hw. cbn.
    eexists. split; [reflexivity|]. cbn.
    split; [done|]. split; [done|]. split; [done|]. split; [done|]. split; [done|].
    split; [by apply persistents_wf_dispose|]. split; [|done].
    apply Nan_New_persistent_empty. cbn. apply lookup_insert_eq.
  - exists st. split; [done|].
    split; [by rewrite insert_id|].
    split; [done|]. split; [done|]. split; [done|]. split; [done|]. split; [done|].
    split; [|done]. by apply Nan_New_persistent_empty.
Qed.

(** ** The further properties at concrete states *)

Lemma message_held_wf : persistents_wf message_held.
Proof.
  apply (persistents_wf_ext object_held); [by vm_compute|by vm_compute|].
  apply (after_wf [OpNewPersistent 7; OpNewPersistent 8; OpObjectNew;
                   OpResetPersistent 7 (Some 0%nat)]).
Qed.

Lemma Neon_Scope_Nested_releases_witness :
  ∃ st2,
    Neon_Scope_Exit 1 (after [OpObjectNew; OpScopeEnter; OpObjectNew; OpScopeEnter;
                              OpObjectNew; OpScopeExit 2]) = Some (tt, st2) ∧
    Neon_Scope_Nested (run [OpObjectNew; OpScopeEnter; OpObjectNew; OpScopeExit 2])
      (after [OpObjectNew]) = Some (tt, st2) ∧
    scopes st2 = scopes (after [OpObjectNew]) ∧
    length (handles st2) = length (handles (after [OpObjectNew])) ∧
    (∀ i, length (handles (after [OpObjectNew])) ≤ i → referent st2 (Some i) = None) ∧
    (∀ i a, handles (after [OpObjectNew]) !! i = Some (Some a) →
            handles st2 !! i = Some (Some a)) ∧
    heap st2 = heap (after [OpObjectNew; OpScopeEnter; OpObjectNew; OpScopeEnter;
                            OpObjectNew; OpScopeExit 2]) ∧
    globals st2 = globals (after [OpObjectNew; OpScopeEnter; OpObjectNew; OpScopeEnter;
                                  OpObjectNew; OpScopeExit 2]) ∧
    persistents st2 = persistents (after [OpObjectNew; OpScopeEnter; OpObjectNew;
                                          OpScopeEnter; OpObjectNew; OpScopeExit 2]).
Proof.
  apply (Neon_Scope_Nested_releases (after [OpObjectNew]) (after [OpObjectNew; OpScopeEnter])
           _ 1 [OpObjectNew; OpScopeEnter; OpObjectNew; OpScopeExit 2]).
  - apply (after_wf [OpObjectNew]).
  - vm_compute. reflexivity.
  - vm_compute. repeat split; lia.
  - vm_compute. reflexivity.
  - vm_compute. reflexivity.
Defined.

Lemma Neon_Scope_Chained_escapes_witness :
  ∃ st2,
    Neon_Scope_Exit_Escapable 1
      (after [OpScopeEnterEscapable; OpObjectNew; OpScopeEscape 1 (Some 1%nat); OpObjectNew])
      = Some (tt, st2) ∧
    Neon_Scope_Chained
      (λ scope, run ([OpObjectNew] ++ OpScopeEscape scope (Some 1%nat) :: [OpObjectNew]))
      initial_state = Some (tt, st2) ∧
    scopes st2 = scopes initial_state ∧
    length (handles st2) = S (length (handles initial_state)) ∧
    referent st2 (Some (length (handles initial_state))) = Some 3%positive ∧
    (∀ i, length (handles initial_state) < i → referent st2 (Some i) = None) ∧
    (∀ i x, handles initial_state !! i = Some (Some x) → handles st2 !! i = Some (Some x)) ∧
    heap st2 = heap (after [OpScopeEnterEscapable; OpObjectNew;
                            OpScopeEscape 1 (Some 1%nat); OpObjectNew]).
Proof.
  apply (Neon_Scope_Chained_escapes initial_state (after [OpScopeEnterEscapable])
           in_escapable _ 1 [OpObjectNew] [OpObjectNew] (Some 1%nat) 3).
  - apply initial_state_wf.
  - vm_compute. reflexivity.
  - vm_compute. repeat split; lia.
  - vm_compute. reflexivity.
  - vm_compute. reflexivity.
  - vm_compute. reflexivity.
  - vm_compute. reflexivity.
Defined.

Lemma Neon_Object_Init_fresh_witness :
  ∃ st' a,
    Neon_Object_Init 7 object_and_persistent = Some (tt, st') ∧
    heap object_and_persistent !! a = None ∧
    heap st' = <[a := HPlainObject []]> (heap object_and_persistent) ∧
    holds 7 a st' ∧
    (∀ q b, q ≠ 7%positive → holds q b object_and_persistent → holds q b st') ∧
    handles st' = handles object_and_persistent ∧
    scopes st' = scopes object_and_persistent ∧
    persistents_wf st'.
Proof.
  apply (Neon_Object_Init_fresh object_and_persistent 7).
  - apply (after_wf [OpNewPersistent 7; OpObjectNew]).
  - vm_compute. eexists. reflexivity.
Defined.

Lemma Neon_Call_InitGet_bounds_witness :
  ∃ st',
    Neon_Call_InitGet example_info 0 7 object_and_persistent = Some (tt, st') ∧
    ((0 ≤ 0 < Neon_Call_Length example_info)%Z →
       ∃ a, info_args example_info !! Z.to_nat 0 = Some a ∧ holds 7 a st') ∧
    (¬ (0 ≤ 0 < Neon_Call_Length example_info)%Z → holds 7 undefined_value st') ∧
    (∀ q b, q ≠ 7%positive → holds q b object_and_persistent → holds q b st') ∧
    heap st' = heap object_and_persistent ∧
    handles st' = handles object_and_persistent ∧
    scopes st' = scopes object_and_persistent.
Proof.
  apply (Neon_Call_InitGet_bounds object_and_persistent example_info 0 7).
  - apply (after_wf [OpNewPersistent 7; OpObjectNew]).
  - vm_compute. eexists. reflexivity.
Defined.

Lemma Neon_Fun_Template_New_roundtrip_witness :
  ∃ st1 i ft w,
    Neon_Fun_Template_New example_call initial_state = Some ((true, Some i), st1) ∧
    referent st1 (Some i) = Some ft ∧
    heap initial_state !! ft = None ∧ heap initial_state !! w = None ∧
    heap st1 !! ft =
      Some (HFunctionTemplate (StaticCallback (static_callback example_call)) w
              None None None) ∧
    heap st1 !! w = Some (HExternal (dynamic_callback example_call)) ∧
    (∀ a o, heap initial_state !! a = Some o → heap st1 !! a = Some o) ∧
    (∀ st2 is_construct_call this args,
       heap st2 !! ft = heap st1 !! ft →
       @host_invoke example_native ft is_construct_call this args st2 =
         @static_entry example_native (static_callback example_call)
           (mk_FunctionCallbackInfo w is_construct_call this args) st2) ∧
    (∀ st2 info out,
       info_Data info = w → heap st2 !! w = heap st1 !! w →
       persistents_wf st2 → is_Some (persistents st2 !! out) →
       ∃ st3,
         Neon_Call_InitData info out st2 = Some (tt, st3) ∧
         holds out w st3 ∧
         Neon_Fun_GetDynamicCallback out st3
           = Some (dynamic_callback example_call, st3)).
Proof.
  apply (@Neon_Fun_Template_New_roundtrip example_native initial_state example_call).
  vm_compute. discriminate.
Defined.

Lemma Neon_Error_Throw_pending_witness :
  Neon_Error_Throw 7 holding = Some (tt, set_pending (Some 3%positive) holding).
Proof.
  apply (Neon_Error_Throw_pending holding 7 (Some 1%positive) 3).
  - vm_compute. reflexivity.
  - intros g [= <-]. vm_compute. reflexivity.
Defined.

Lemma Neon_Error_InitError_Throw_witness :
  ∃ st1 e,
    Neon_Error_InitError 8 7 message_held = Some (tt, st1) ∧
    heap message_held !! e = None ∧
    heap st1 = <[e := HError 3%positive]> (heap message_held) ∧
    holds 8 e st1 ∧
    handles st1 = handles message_held ∧ scopes st1 = scopes message_held ∧
    pending_exception st1 = pending_exception message_held ∧
    Neon_Error_Throw 8 st1 = Some (tt, set_pending (Some e) st1).
Proof.
  apply (Neon_Error_InitError_Throw message_held 8 7 1 3).
  - apply message_held_wf.
  - vm_compute. eexists. reflexivity.
  - vm_compute. reflexivity.
  - vm_compute. reflexivity.
Defined.

Lemma Neon_String_New_stores_witness :
  if encodable object_and_persistent 5 then
    ∃ st' s,
      Neon_String_New 7 (bytes_of "hello") 5 object_and_persistent = Some (Return true, st') ∧
      holds 7 s st' ∧
      heap st' !! s = Some (HString (take (Z.to_nat 5) (bytes_of "hello"))) ∧
      (∀ a o, heap object_and_persistent !! a = Some o → heap st' !! a = Some o) ∧
      (∀ q b, q ≠ 7%positive → holds q b object_and_persistent → holds q b st') ∧
      handles st' = handles object_and_persistent ∧
      scopes st' = scopes object_and_persistent
  else Neon_String_New 7 (bytes_of "hello") 5 object_and_persistent
         = Some (Return false, object_and_persistent).
Proof.
  apply (Neon_String_New_stores object_and_persistent 7 (bytes_of "hello") 5).
  - apply (after_wf [OpNewPersistent 7; OpObjectNew]).
  - vm_compute. eexists. reflexivity.
  - vm_compute. reflexivity.
  - vm_compute. split; discriminate.
Defined.

Lemma owned_initial_state : owned initial_state.
Proof. intros g [x Hx]. vm_compute in Hx. discriminate. Qed.

Lemma Neon_Mem_no_leak_witness :
  owned dropped ∧
  ((∀ p v, persistents dropped !! p = Some v → v = None) → globals dropped = ∅).
Proof.
  apply (Neon_Mem_no_leak initial_state dropped
           [OpNewPersistent 7; OpObjectNew; OpResetPersistent 7 (Some 0%nat);
            OpDropPersistent 7]).
  - apply owned_initial_state.
  - cbn. split; [|done]. intros g. vm_compute. discriminate.
  - vm_compute. reflexivity.
Defined.

Lemma Neon_Array_Init_Length_witness :
  if (@FixedArray_kMaxLength example_limits <? 3)%Z && (3 <? 2 ^ 31)%Z then
    @Neon_Array_Init example_limits 7 3 object_and_persistent = None
  else
    ∃ st1 arr,
      @Neon_Array_Init example_limits 7 3 object_and_persistent = Some (tt, st1) ∧
      heap object_and_persistent !! arr = None ∧
      holds 7 arr st1 ∧
      handles st1 = handles object_and_persistent ∧
      scopes st1 = scopes object_and_persistent ∧
      Neon_Array_Length 7 st1 = Some (if (3 <? 2 ^ 31)%Z then 3%Z else 0%Z, st1).
Proof.
  apply (@Neon_Array_Init_Length example_limits object_and_persistent 7 3).
  - apply (after_wf [OpNewPersistent 7; OpObjectNew]).
  - vm_compute. eexists. reflexivity.
  - vm_compute. split; [discriminate|reflexivity].
  - vm_compute. discriminate.
Defined.

(** An array of 2^27 elements is more than a 64-bit host allocates. *)
Example array_too_long :
  @Neon_Array_Init example_limits 7 (2 ^ 27) object_and_persistent = None.
Proof. vm_compute. reflexivity. Qed.

Lemma Neon_Mem_ReadPersistent_SameHandle_witness :
  ∃ h1 h2 st1 st2,
    Neon_Mem_ReadPersistent 7 holding = Some (h1, st1) ∧
    Neon_Mem_ReadPersistent 7 st1 = Some (h2, st2) ∧
    h1 ≠ h2 ∧
    referent st2 h1 = Some 3%positive ∧ referent st2 h2 = Some 3%positive ∧
    Neon_Mem_SameHandle h1 h2 st2 = Some (bool_decide (3%positive = 3%positive), st2).
Proof.
  apply (Neon_Mem_ReadPersistent_SameHandle holding 7 7 1 1 3 3).
  - vm_compute. reflexivity.
  - vm_compute. reflexivity.
  - vm_compute. reflexivity.
  - vm_compute. reflexivity.
  - vm_compute. discriminate.
Defined.

Lemma Neon_Class_CreateBase_templates_witness :
  ∃ st1 mp ft data it,
    Neon_Class_CreateBase example_allocate example_construct example_call 17 initial_state
      = Some (mp, st1) ∧
    metadata initial_state !! mp = None ∧
    heap st1 !! data = Some (HExternal mp) ∧
    heap st1 !! ft =
      Some (HFunctionTemplate ConstructBaseCallback data None None (Some it)) ∧
    heap st1 !! it = Some (HObjectTemplate [] 1) ∧
    (∀ a o, heap initial_state !! a = Some o → heap st1 !! a = Some o) ∧
    (∀ i x, handles initial_state !! i = Some x → handles st1 !! i = Some x) ∧
    length (handles initial_state) < length (handles st1) ∧
    scopes st1 = scopes initial_state ∧
    pending_exception st1 = pending_exception initial_state ∧
    prototype_properties st1 ft = [].
Proof.
  apply (Neon_Class_CreateBase_templates initial_state example_allocate example_construct
           example_call 17).
  vm_compute. discriminate.
Defined.

Lemma Neon_Tag_Thin_agrees_witness :
  ∃ h st1,
    Neon_Mem_ReadPersistent 7 holding = Some (h, st1) ∧
    Neon_Tag_IsUndefined h st1 = Some (is_undefined (HPlainObject []), st1) ∧
    Neon_Tag_IsUndefinedThin 7 holding = Some (is_undefined (HPlainObject []), holding) ∧
    Neon_Tag_IsObject h st1 = Some (is_object (HPlainObject []), st1) ∧
    Neon_Tag_IsObjectThin 7 holding = Some (is_object (HPlainObject []), holding) ∧
    Neon_Tag_IsString 7 holding = Some (is_string (HPlainObject []), holding) ∧
    Neon_Tag_IsArray 7 holding = Some (is_array (HPlainObject []), holding) ∧
    Neon_Tag_IsError 7 holding = Some (is_native_error (HPlainObject []), holding).
Proof.
  apply (Neon_Tag_Thin_agrees holding 7 1 3 (HPlainObject [])).
  - vm_compute. reflexivity.
  - vm_compute. reflexivity.
  - vm_compute. reflexivity.
  - vm_compute. discriminate.
Defined.

Lemma Neon_Class_SetName_GetName_witness :
  ∃ st',
    Neon_Class_SetName 1 (bytes_of "Point") 5 with_class
      = Some (Return (encodable with_class 5), st') ∧
    class_of st' 1 4 ∧
    if encodable with_class 5 then
      ∃ key,
        heap st' !! 4%positive =
          Some (HFunctionTemplate ConstructBaseCallback 3 (Some key) None (Some 5%positive)) ∧
        heap st' !! key = Some (HString (take (Z.to_nat 5) (bytes_of "Point"))) ∧
        Neon_Class_GetName 1 st' = Some ((bytes_of "Point", 5%Z), st')
    else
      heap st' = heap with_class ∧ metadata st' = metadata with_class.
Proof.
  apply (Neon_Class_SetName_GetName with_class 1 4 ConstructBaseCallback 3 None None
           (Some 5%positive) (bytes_of "Point") 5).
  - apply with_class_class_of.
  - vm_compute. reflexivity.
  - vm_compute. discriminate.
  - vm_compute. reflexivity.
  - vm_compute. split; discriminate.
  - reflexivity.
Defined.

Lemma example_objects_balanced : @host_balanced example_objects.
Proof.
  split.
  - intros o k st. cbn. unfold bind, get_state, modify, ret.
    destruct (heap st !! o) as [[]|]; eauto.
  - intros o k v st. cbn. unfold bind, get_state, modify, ret.
    destruct (heap st !! o) as [[]|]; eauto.
Qed.

Lemma Neon_Object_Get_String_slot_witness :
  ∃ b out st' w,
    @Neon_Object_Get_String example_objects (Some 0%nat) (bytes_of "x") 1 (after [OpObjectNew])
      = Some ((b, out), st') ∧
    scopes st' = scopes (after [OpObjectNew]) ∧
    handles st' = handles (after [OpObjectNew]) ++ [w] ∧
    out = (if b then Some (length (handles (after [OpObjectNew]))) else None) ∧
    (if encodable (after [OpObjectNew]) 1 then
       ∃ key sk sg,
         heap sk !! key = Some (HString (take (Z.to_nat 1) (bytes_of "x"))) ∧
         (∀ a x, heap (after [OpObjectNew]) !! a = Some x → heap sk !! a = Some x) ∧
         @Object_Get example_objects 3 key sk = Some (w, sg) ∧
         heap st' = heap sg ∧
         b = bool_decide (is_Some w)
     else b = false ∧ w = None ∧ heap st' = heap (after [OpObjectNew]) ∧
          pending_exception st' = pending_exception (after [OpObjectNew])).
Proof.
  apply (@Neon_Object_Get_String_slot example_objects (after [OpObjectNew]) (Some 0%nat) 3
           (bytes_of "x") 1).
  - apply example_objects_balanced.
  - vm_compute. discriminate.
  - vm_compute. reflexivity.
  - vm_compute. reflexivity.
  - vm_compute. split; discriminate.
Defined.

Lemma Neon_Object_Set_String_balanced_witness :
  ∃ b out st',
    @Neon_Object_Set_String example_objects (Some 0%nat) (bytes_of "x") 1 (Some 0%nat)
      (after [OpObjectNew]) = Some ((b, out), st') ∧
    scopes st' = scopes (after [OpObjectNew]) ∧
    handles st' = handles (after [OpObjectNew]) ∧
    b = bool_decide (is_Some out) ∧
    (if encodable (after [OpObjectNew]) 1 then
       ∃ key sk sg,
         heap sk !! key = Some (HString (take (Z.to_nat 1) (bytes_of "x"))) ∧
         (∀ a x, heap (after [OpObjectNew]) !! a = Some x → heap sk !! a = Some x) ∧
         @Object_Set example_objects 3 key 3 sk = Some (out, sg) ∧
         heap st' = heap sg
     else out = None ∧ st' = after [OpObjectNew]).
Proof.
  apply (@Neon_Object_Set_String_balanced example_objects (after [OpObjectNew])
           (Some 0%nat) (Some 0%nat) 3 3 (bytes_of "x") 1).
  - apply example_objects_balanced.
  - vm_compute. reflexivity.
  - vm_compute. reflexivity.
  - vm_compute. reflexivity.
  - vm_compute. split; discriminate.
Defined.

Lemma scope_and_persistent_calls_keep_wf_witness : wf holding.
Proof.
  apply (scope_and_persistent_calls_keep_wf initial_state holding
           [OpNewPersistent 7; OpObjectNew; OpResetPersistent 7 (Some 0%nat)]).
  - apply initial_state_wf.
  - vm_compute. reflexivity.
Defined.

Lemma Neon_Mem_DropPersistent_releases_witness :
  ∃ st1,
    Neon_Mem_DropPersistent 7 holding = Some (tt, st1) ∧
    persistents st1 = delete 7%positive (persistents holding) ∧
    globals st1 = delete 1%positive (globals holding) ∧
    heap st1 = heap holding ∧ handles st1 = handles holding ∧
    scopes st1 = scopes holding ∧
    persistents_wf st1 ∧
    (∀ q b, q ≠ 7%positive → holds q b holding → holds q b st1).
Proof.
  apply (Neon_Mem_DropPersistent_releases holding 7 (Some 1%positive)).
  - apply (after_wf [OpNewPersistent 7; OpObjectNew; OpResetPersistent 7 (Some 0%nat)]).
  - vm_compute. reflexivity.
Defined.

Lemma Neon_Scope_Escape_once_witness :
  Neon_Scope_Escape 1 (Some 2%nat)
    (after [OpScopeEnterEscapable; OpObjectNew; OpScopeEscape 1 (Some 1%nat); OpObjectNew])
  = None.
Proof.
  apply (Neon_Scope_Escape_once in_escapable
           (after [OpScopeEnterEscapable; OpObjectNew; OpScopeEscape 1 (Some 1%nat)])
           _ 1 (Some 1%nat) (Some 2%nat) (Some 0%nat) 3 [OpObjectNew]).
  - apply (after_wf [OpScopeEnterEscapable; OpObjectNew]).
  - vm_compute. reflexivity.
  - vm_compute. reflexivity.
  - vm_compute. repeat split; lia.
  - vm_compute. reflexivity.
Defined.

Lemma Neon_Object_GetOwnPropertyNames_fails_witness :
  Neon_Object_GetOwnPropertyNames 8 7
    (set_heap (<[3%positive := HProxy (inr 1%positive)]>) object_held)
  = Some (Return false,
          set_pending (Some 1%positive)
            (set_heap (<[3%positive := HProxy (inr 1%positive)]>) object_held)).
Proof.
  apply (Neon_Object_GetOwnPropertyNames_fails
           (set_heap (<[3%positive := HProxy (inr 1%positive)]>) object_held) 8 7 1 3 1).
  - vm_compute. reflexivity.
  - vm_compute. reflexivity.
  - vm_compute. reflexivity.
Defined.

Lemma Neon_Mem_ResetPersistent_empty_handle_witness :
  ∃ st1,
    Neon_Mem_ResetPersistent 7 None holding = Some (tt, st1) ∧
    persistents st1 = <[7%positive := None]> (persistents holding) ∧
    globals st1 = delete 1%positive (globals holding) ∧
    heap st1 = heap holding ∧ handles st1 = handles holding ∧
    scopes st1 = scopes holding ∧
    persistents_wf st1 ∧
    Neon_Mem_ReadPersistent 7 st1 = Some (None, st1) ∧
    Neon_Mem_DropPersistent 7 holding = Some (tt, set_persistents (delete 7%positive) st1).
Proof.
  apply (Neon_Mem_ResetPersistent_empty_handle holding 7 (Some 1%positive)).
  - apply (after_wf [OpNewPersistent 7; OpObjectNew; OpResetPersistent 7 (Some 0%nat)]).
  - vm_compute. reflexivity.
Defined.
